(** * PhysicsFS 3.0.2 (multi-drive "lt" build): a shallow embedding of physfs.c

    The development follows [src/physfs.c] and [src/physfs_archiver_dir.c].

    Conventions of the embedding.
    - A C string is the [string] of its characters before the terminating
      NUL; a NULL [char *] is [None].
    - [size_t], [PHYSFS_uint64] and [PHYSFS_sint64] values are integers in
      [Z]; every C operation that can wrap is written with [u64] / [s64]
      ([u32] for [PHYSFS_uint32]).
    - One drive ([dv]) is one [Drive] record that is passed explicitly; the
      per-thread error state of the calling thread is its [errcode] field.
    - The allocator is assumed not to run out of memory, so the
      [PHYSFS_ERR_OUT_OF_MEMORY] exits are not part of the embedding.
    - The platform layer and the stream behind a [PHYSFS_Io] are not defined
      in these files; they are parameters of the sections that use them.
    - The mutexes are not modelled: every function runs to its end on the
      state it is given.
    - The calls that leave physfs.c (platform, archiver, stream, callback)
      are recorded, in order, in the [trace] of the environment. *)

From Stdlib Require Import ZArith List String Ascii Bool Lia Arith.
From Stdlib Require Import Sorting.Sorted.
From Stdlib Require Init.Byte.
From Stdlib Require DecimalString.
From Equations Require Import Equations.
Import ListNotations.

Open Scope string_scope.

(* ===================================================================== *)
(** * Part I: the embedding *)
(* ===================================================================== *)

(* ===================================================================== *)
(** * Error codes and results *)
(* ===================================================================== *)

Inductive PHYSFS_ErrorCode : Type :=
| PHYSFS_ERR_OK
| PHYSFS_ERR_OTHER_ERROR
| PHYSFS_ERR_OUT_OF_MEMORY
| PHYSFS_ERR_NOT_INITIALIZED
| PHYSFS_ERR_IS_INITIALIZED
| PHYSFS_ERR_ARGV0_IS_NULL
| PHYSFS_ERR_UNSUPPORTED
| PHYSFS_ERR_PAST_EOF
| PHYSFS_ERR_FILES_STILL_OPEN
| PHYSFS_ERR_INVALID_ARGUMENT
| PHYSFS_ERR_NOT_MOUNTED
| PHYSFS_ERR_NOT_FOUND
| PHYSFS_ERR_SYMLINK_FORBIDDEN
| PHYSFS_ERR_NO_WRITE_DIR
| PHYSFS_ERR_OPEN_FOR_READING
| PHYSFS_ERR_OPEN_FOR_WRITING
| PHYSFS_ERR_NOT_A_FILE
| PHYSFS_ERR_READ_ONLY
| PHYSFS_ERR_CORRUPT
| PHYSFS_ERR_SYMLINK_LOOP
| PHYSFS_ERR_IO
| PHYSFS_ERR_PERMISSION
| PHYSFS_ERR_NO_SPACE
| PHYSFS_ERR_BAD_FILENAME
| PHYSFS_ERR_BUSY
| PHYSFS_ERR_DIR_NOT_EMPTY
| PHYSFS_ERR_OS_ERROR
| PHYSFS_ERR_DUPLICATE
| PHYSFS_ERR_BAD_PASSWORD
| PHYSFS_ERR_APP_CALLBACK.

Definition errcode_eqb (a b : PHYSFS_ErrorCode) : bool :=
  match a, b with
  | PHYSFS_ERR_OK, PHYSFS_ERR_OK
  | PHYSFS_ERR_OTHER_ERROR, PHYSFS_ERR_OTHER_ERROR
  | PHYSFS_ERR_OUT_OF_MEMORY, PHYSFS_ERR_OUT_OF_MEMORY
  | PHYSFS_ERR_NOT_INITIALIZED, PHYSFS_ERR_NOT_INITIALIZED
  | PHYSFS_ERR_IS_INITIALIZED, PHYSFS_ERR_IS_INITIALIZED
  | PHYSFS_ERR_ARGV0_IS_NULL, PHYSFS_ERR_ARGV0_IS_NULL
  | PHYSFS_ERR_UNSUPPORTED, PHYSFS_ERR_UNSUPPORTED
  | PHYSFS_ERR_PAST_EOF, PHYSFS_ERR_PAST_EOF
  | PHYSFS_ERR_FILES_STILL_OPEN, PHYSFS_ERR_FILES_STILL_OPEN
  | PHYSFS_ERR_INVALID_ARGUMENT, PHYSFS_ERR_INVALID_ARGUMENT
  | PHYSFS_ERR_NOT_MOUNTED, PHYSFS_ERR_NOT_MOUNTED
  | PHYSFS_ERR_NOT_FOUND, PHYSFS_ERR_NOT_FOUND
  | PHYSFS_ERR_SYMLINK_FORBIDDEN, PHYSFS_ERR_SYMLINK_FORBIDDEN
  | PHYSFS_ERR_NO_WRITE_DIR, PHYSFS_ERR_NO_WRITE_DIR
  | PHYSFS_ERR_OPEN_FOR_READING, PHYSFS_ERR_OPEN_FOR_READING
  | PHYSFS_ERR_OPEN_FOR_WRITING, PHYSFS_ERR_OPEN_FOR_WRITING
  | PHYSFS_ERR_NOT_A_FILE, PHYSFS_ERR_NOT_A_FILE
  | PHYSFS_ERR_READ_ONLY, PHYSFS_ERR_READ_ONLY
  | PHYSFS_ERR_CORRUPT, PHYSFS_ERR_CORRUPT
  | PHYSFS_ERR_SYMLINK_LOOP, PHYSFS_ERR_SYMLINK_LOOP
  | PHYSFS_ERR_IO, PHYSFS_ERR_IO
  | PHYSFS_ERR_PERMISSION, PHYSFS_ERR_PERMISSION
  | PHYSFS_ERR_NO_SPACE, PHYSFS_ERR_NO_SPACE
  | PHYSFS_ERR_BAD_FILENAME, PHYSFS_ERR_BAD_FILENAME
  | PHYSFS_ERR_BUSY, PHYSFS_ERR_BUSY
  | PHYSFS_ERR_DIR_NOT_EMPTY, PHYSFS_ERR_DIR_NOT_EMPTY
  | PHYSFS_ERR_OS_ERROR, PHYSFS_ERR_OS_ERROR
  | PHYSFS_ERR_DUPLICATE, PHYSFS_ERR_DUPLICATE
  | PHYSFS_ERR_BAD_PASSWORD, PHYSFS_ERR_BAD_PASSWORD
  | PHYSFS_ERR_APP_CALLBACK, PHYSFS_ERR_APP_CALLBACK => true
  | _, _ => false
  end.

(** A call that either returns a value or bails out with an explicit error
    code ([BAIL(e, ...)]). *)
Inductive result (A : Type) : Type :=
| Ok (a : A)
| Err (e : PHYSFS_ErrorCode).
Arguments Ok {A} a.
Arguments Err {A} e.

(* ===================================================================== *)
(** * Machine integers *)
(* ===================================================================== *)

Definition u32 (x : Z) : Z := (x mod 2 ^ 32)%Z.
Definition u64 (x : Z) : Z := (x mod 2 ^ 64)%Z.
(** Conversion of a 64-bit pattern to [PHYSFS_sint64] (two's complement). *)
Definition s64 (x : Z) : Z := ((x + 2 ^ 63) mod 2 ^ 64 - 2 ^ 63)%Z.

Lemma u32_small (x : Z) : (0 <= x < 2 ^ 32)%Z -> u32 x = x.
Proof. intros H. unfold u32. apply Z.mod_small. exact H. Qed.

Lemma u32_le (x : Z) : (0 <= x)%Z -> (0 <= u32 x <= x)%Z.
Proof.
  intros H. unfold u32. split.
  - apply Z.mod_pos_bound. lia.
  - apply Z.mod_le; lia.
Qed.

Lemma u64_small (x : Z) : (0 <= x < 2 ^ 64)%Z -> u64 x = x.
Proof. intros H. unfold u64. apply Z.mod_small. exact H. Qed.

Lemma u64_range (x : Z) : (0 <= u64 x < 2 ^ 64)%Z.
Proof. unfold u64. apply Z.mod_pos_bound. lia. Qed.

Lemma s64_small (x : Z) : (- 2 ^ 63 <= x < 2 ^ 63)%Z -> s64 x = x.
Proof. intros H. unfold s64. rewrite Z.mod_small; lia. Qed.

Lemma s64_range (x : Z) : (- 2 ^ 63 <= s64 x < 2 ^ 63)%Z.
Proof.
  unfold s64. pose proof (Z.mod_pos_bound (x + 2 ^ 63) (2 ^ 64)). lia.
Qed.

Lemma s64_u64 (x : Z) : s64 (u64 x) = s64 x.
Proof.
  unfold s64, u64.
  rewrite Zplus_mod_idemp_l. reflexivity.
Qed.

(* ===================================================================== *)
(** * C strings *)
(* ===================================================================== *)

Definition is_slash (ch : ascii) : bool := Ascii.eqb ch "/".

(** [strcmp]: only the sign of the result is specified by C; the embedding
    returns -1, 0 or 1, comparing characters as unsigned bytes. *)
Fixpoint strcmp (a b : string) : Z :=
  match a, b with
  | EmptyString, EmptyString => 0
  | EmptyString, String _ _ => -1
  | String _ _, EmptyString => 1
  | String c a', String d b' =>
      match N.compare (N_of_ascii c) (N_of_ascii d) with
      | Eq => strcmp a' b'
      | Lt => -1
      | Gt => 1
      end
  end%Z.

(** The string a [char *] that points [n] characters into [s] denotes. *)
Fixpoint str_from (n : nat) (s : string) : string :=
  match n, s with
  | O, _ => s
  | S n', String _ s' => str_from n' s'
  | S _, EmptyString => EmptyString
  end.

(** [strchr(s + start, c)], as an index into [s]. *)
Fixpoint strchr_from (start : nat) (c : ascii) (s : string) : option nat :=
  match s with
  | EmptyString => None
  | String d s' =>
      match start with
      | O => if Ascii.eqb d c then Some O
             else option_map S (strchr_from O c s')
      | S start' => option_map S (strchr_from start' c s')
      end
  end.

Fixpoint contains_char (c : ascii) (s : string) : bool :=
  match s with
  | EmptyString => false
  | String d s' => Ascii.eqb d c || contains_char c s'
  end.

Definition starts_with_slash (s : string) : bool :=
  match s with
  | String c _ => is_slash c
  | EmptyString => false
  end.

Fixpoint ends_with_slash (s : string) : bool :=
  match s with
  | EmptyString => false
  | String c EmptyString => is_slash c
  | String _ s' => ends_with_slash s'
  end.

Fixpoint has_double_slash (s : string) : bool :=
  match s with
  | EmptyString => false
  | String c s' => (is_slash c && starts_with_slash s') || has_double_slash s'
  end.

(** The segments of a path: the pieces between consecutive ['/']. *)
Fixpoint split_slash_aux (cur : string) (s : string) : list string :=
  match s with
  | EmptyString => [cur]
  | String c s' =>
      if is_slash c then cur :: split_slash_aux "" s'
      else split_slash_aux (cur ++ String c "") s'
  end.

Definition split_slash (s : string) : list string := split_slash_aux "" s.

Definition is_dot_or_dotdot (s : string) : bool :=
  (strcmp s "." =? 0)%Z || (strcmp s ".." =? 0)%Z.

(* ===================================================================== *)
(** * sanitizePlatformIndependentPath (physfs.c, 715-754) *)
(* ===================================================================== *)

(** The loop that advances [src] past every leading slash. *)
Fixpoint skip_slashes (src : string) : string :=
  match src with
  | String ch rest => if is_slash ch then skip_slashes rest else src
  | EmptyString => src
  end.

(** The do-while loop that runs until the NUL is copied.  [dst] is what has been written to
    the output so far and [prev] the offset of the pointer [prev] into it. *)
Fixpoint sanitize_loop (src dst : string) (prev : nat) {struct src}
  : result string :=
  match src with
  | EmptyString => Ok dst
  | String ch src' =>
      if Ascii.eqb ch ":" || Ascii.eqb ch "\" then
        Err PHYSFS_ERR_BAD_FILENAME
      else if is_slash ch then
        if is_dot_or_dotdot (str_from prev dst) then
          Err PHYSFS_ERR_BAD_FILENAME
        else
          match skip_slashes src' with
          | EmptyString => Ok dst
          | String _ _ =>
              sanitize_loop (skip_slashes src') (dst ++ String ch "")
                            (S (String.length dst))
          end
      else sanitize_loop src' (dst ++ String ch "") prev
  end.

Definition sanitizePlatformIndependentPath (src : string) : result string :=
  let src := skip_slashes src in
  if is_dot_or_dotdot src then Err PHYSFS_ERR_BAD_FILENAME
  else sanitize_loop src "" 0.


(** The rejection rule of the specification, in its words: the path
    contains [':'], contains a backslash, contains a segment equal to ["."]
    or [".."], or is ["."] or [".."] once its leading slashes are gone. *)
Definition spec_rejects (s : string) : bool :=
  contains_char ":" s || contains_char "\" s
  || existsb is_dot_or_dotdot (split_slash s)
  || is_dot_or_dotdot (skip_slashes s).

(** What the loop does reject: as above, but a segment counts only when a
    separator follows it. *)
Definition code_rejects (s : string) : bool :=
  contains_char ":" s || contains_char "\" s
  || is_dot_or_dotdot (skip_slashes s)
  || existsb is_dot_or_dotdot (removelast (split_slash (skip_slashes s))).

(* ===================================================================== *)
(** * Streams and file handles *)
(* ===================================================================== *)

Definition byte : Type := Init.Byte.byte.

(** The function table of a [PHYSFS_Io], over the state [T] of the stream
    behind it.  [io_read s len] gives the return value, the bytes the call
    stored at the start of the caller's buffer and the stream afterwards;
    [io_write s buf len] is handed the bytes at [buf]; [io_flush] may be a
    NULL pointer.  [destroy] only releases the stream and is recorded as an
    event of the caller. *)
Record PHYSFS_Io (T : Type) : Type := {
  io_read   : T -> Z -> Z * list byte * T;
  io_write  : T -> list byte -> Z -> Z * T;
  io_seek   : T -> Z -> bool * T;
  io_tell   : T -> Z;
  io_length : T -> Z;
  io_flush  : option (T -> bool * T)
}.
Arguments io_read {T} _ _ _.
Arguments io_write {T} _ _ _ _.
Arguments io_seek {T} _ _ _.
Arguments io_tell {T} _ _.
Arguments io_length {T} _ _.
Arguments io_flush {T} _.

Definition inspect {A : Type} (a : A) : {b : A | a = b} := exist _ a eq_refl.

Section FileHandles.

Context {T : Type}.
Variable IO : PHYSFS_Io T.

(** [struct __PHYSFS_FILEHANDLE__].  [fh_addr] is the address of the
    structure (handles are compared as pointers), [dirHandle] the address of
    the [DirHandle] that created it, [buffer] is [None] for NULL. *)
Record FileHandle : Type := mkFileHandle {
  fh_addr    : nat;
  io         : T;
  forReading : bool;
  dirHandle  : nat;
  buffer     : option (list byte);
  bufsize    : Z;
  buffill    : Z;
  bufpos     : Z
}.

Definition set_io (fh : FileHandle) (s : T) : FileHandle :=
  mkFileHandle (fh_addr fh) s (forReading fh) (dirHandle fh) (buffer fh)
               (bufsize fh) (buffill fh) (bufpos fh).

Definition set_buffer (fh : FileHandle) (b : option (list byte)) : FileHandle :=
  mkFileHandle (fh_addr fh) (io fh) (forReading fh) (dirHandle fh) b
               (bufsize fh) (buffill fh) (bufpos fh).

Definition set_bufsize (fh : FileHandle) (n : Z) : FileHandle :=
  mkFileHandle (fh_addr fh) (io fh) (forReading fh) (dirHandle fh) (buffer fh)
               n (buffill fh) (bufpos fh).

Definition set_buffill (fh : FileHandle) (n : Z) : FileHandle :=
  mkFileHandle (fh_addr fh) (io fh) (forReading fh) (dirHandle fh) (buffer fh)
               (bufsize fh) n (bufpos fh).

Definition set_bufpos (fh : FileHandle) (n : Z) : FileHandle :=
  mkFileHandle (fh_addr fh) (io fh) (forReading fh) (dirHandle fh) (buffer fh)
               (bufsize fh) (buffill fh) n.

(** The calls through the function table return [PHYSFS_sint64]. *)
Definition call_read (s : T) (len : Z) : Z * list byte * T :=
  let '(rc, data, s') := io_read IO s len in (s64 rc, data, s').

Definition call_write (s : T) (buf : list byte) (len : Z) : Z * T :=
  let '(rc, s') := io_write IO s buf len in (s64 rc, s').

Definition call_tell (s : T) : Z := s64 (io_tell IO s).

(** The bytes of the handle's buffer ([[]] when the pointer is NULL). *)
Definition buffer_bytes (fh : FileHandle) : list byte :=
  match buffer fh with
  | Some b => b
  | None => []
  end.

(** [len] bytes at [buffer + off]. *)
Definition buf_slice (fh : FileHandle) (off len : Z) : list byte :=
  firstn (Z.to_nat len) (skipn (Z.to_nat off) (buffer_bytes fh)).

(** [memcpy(buf + off, data, ...)] within the bounds of [buf]. *)
Definition store_at (off : Z) (data buf : list byte) : list byte :=
  firstn (List.length buf)
         (firstn (Z.to_nat off) buf ++ data
            ++ skipn (Z.to_nat off + List.length data) buf)%list.

(** ** PHYSFS_flush (physfs.c, 2473-2488) *)
Definition PHYSFS_flush (fh : FileHandle) : bool * FileHandle :=
  if forReading fh || (bufpos fh =? buffill fh)%Z then (true, fh)
  else
    let len := u64 (buffill fh - bufpos fh) in
    let '(rc, s') := call_write (io fh) (buf_slice fh (bufpos fh) len) len in
    if (rc <=? 0)%Z then (false, set_io fh s')
    else (true, set_buffill (set_bufpos (set_io fh s') 0) 0).

(** ** PHYSFS_tell (physfs.c, 2382-2390)
    [pos] is signed and the buffer counters are [size_t]: the sum is
    computed on 64-bit patterns and converted back to [PHYSFS_sint64]. *)
Definition PHYSFS_tell (fh : FileHandle) : Z :=
  let pos := call_tell (io fh) in
  if forReading fh
  then s64 (u64 (u64 (pos - buffill fh) + bufpos fh))
  else s64 (u64 (pos + buffill fh)).

(** ** doBufferedRead (physfs.c, 2232-2269) *)
Definition fh_avail (fh : FileHandle) : Z := u64 (buffill fh - bufpos fh).

(** The handle after [io->read] refilled its buffer: [data] is what the call
    stored, [fill] the new [buffill]. *)
Definition refilled (fh : FileHandle) (s' : T) (data : list byte) (fill : Z)
  : FileHandle :=
  set_buffill
    (set_bufpos
       (set_buffer (set_io fh s')
                   (option_map (store_at 0 data) (buffer fh))) 0) fill.

Definition read_measure (fh : FileHandle) (len : Z) : nat :=
  2 * Z.to_nat len + (if (fh_avail fh >? 0)%Z then 0 else 1).

Lemma call_read_range (s : T) (len rc : Z) (data : list byte) (s' : T) :
  call_read s len = (rc, data, s') -> (- 2 ^ 63 <= rc < 2 ^ 63)%Z.
Proof.
  unfold call_read. destruct (io_read IO s len) as [[rc0 d0] s0].
  intros H. inversion H; subst. apply s64_range.
Qed.

Equations? doBufferedRead_loop (fh : FileHandle) (out : list byte)
  (len retval : Z) : Z * list byte * FileHandle
  by wf (read_measure fh len) lt :=
doBufferedRead_loop fh out len retval with Z_gt_dec len 0 := {
  | right _ := (retval, out, fh)
  | left Hlen with Z_gt_dec (fh_avail fh) 0 := {
    | left Hav :=
        doBufferedRead_loop
          (set_bufpos fh (u64 (bufpos fh + Z.min len (fh_avail fh))))
          (out ++ buf_slice fh (bufpos fh) (Z.min len (fh_avail fh)))%list
          (u64 (len - Z.min len (fh_avail fh)))
          (s64 (retval + Z.min len (fh_avail fh)))
    | right Hav with inspect (call_read (io fh) (bufsize fh)) := {
      | exist _ (rc, data, s') Heq with Z_gt_dec rc 0 := {
        | left Hrc :=
            doBufferedRead_loop (refilled fh s' data (u64 rc)) out len retval
        | right _ :=
            ((if (retval =? 0)%Z then rc else retval), out,
             refilled fh s' data 0) } } } }.
Proof.
  - unfold read_measure.
    assert (Hm : (1 <= Z.min len (fh_avail fh) <= len)%Z) by lia.
    assert (Hu : (0 <= u64 (len - Z.min len (fh_avail fh))
                  <= len - Z.min len (fh_avail fh))%Z).
    { unfold u64. split.
      - apply Z.mod_pos_bound. lia.
      - apply Z.mod_le; lia. }
    destruct (fh_avail (set_bufpos fh _) >? 0)%Z;
      destruct (fh_avail fh >? 0)%Z; lia.
  - apply call_read_range in Heq.
    unfold read_measure.
    assert (Hnew : (fh_avail (refilled fh s' data (u64 rc)) >? 0)%Z = true).
    { unfold fh_avail, refilled. simpl.
      rewrite (u64_small rc) by lia.
      rewrite Z.sub_0_r, (u64_small rc) by lia. lia. }
    rewrite Hnew.
    destruct (fh_avail fh >? 0)%Z eqn:E; lia.
Qed.

Definition doBufferedRead (fh : FileHandle) (len : Z)
  : Z * list byte * FileHandle :=
  doBufferedRead_loop fh [] len 0.

(** [__PHYSFS_ui64FitsAddressSpace] comes from physfs_internal.h; with the
    64-bit [size_t] of the Linux build every [PHYSFS_uint64] fits. *)
Definition __PHYSFS_ui64FitsAddressSpace (s : Z) : bool := true.

Definition maxlen : Z := 9223372036854775807.

(** ** PHYSFS_readBytes (physfs.c, 2281-2303); [Err] is a return of -1 with
    the error code set by this function.  The argument is converted to the
    [PHYSFS_uint64] of the parameter on entry. *)
Definition PHYSFS_readBytes (fh : FileHandle) (_len : Z)
  : result (Z * list byte * FileHandle) :=
  let _len := u64 _len in
  let len := u64 _len in
  if negb (__PHYSFS_ui64FitsAddressSpace _len) then
    Err PHYSFS_ERR_INVALID_ARGUMENT
  else if (_len >? maxlen)%Z then Err PHYSFS_ERR_INVALID_ARGUMENT
  else if negb (forReading fh) then Err PHYSFS_ERR_OPEN_FOR_WRITING
  else if (len =? 0)%Z then Ok (0%Z, [], fh)
  else
    match buffer fh with
    | Some _ => Ok (doBufferedRead fh len)
    | None =>
        let '(rc, data, s') := call_read (io fh) len in
        Ok (rc, data, set_io fh s')
    end.

(** ** PHYSFS_read (physfs.c, 2272-2278) *)
Definition PHYSFS_read (fh : FileHandle) (size count : Z)
  : result (Z * list byte * FileHandle) :=
  let len := u64 (size * count) in
  match PHYSFS_readBytes fh len with
  | Ok (retval, data, fh') =>
      Ok ((if (retval <=? 0)%Z then retval else Z.quot retval size), data, fh')
  | Err e => Err e
  end.

(** ** doBufferedWrite (physfs.c, 2306-2322) *)
Definition doBufferedWrite (fh : FileHandle) (data : list byte) (len : Z)
  : Z * FileHandle :=
  if (u64 (buffill fh + len) <? bufsize fh)%Z then
    (s64 len,
     set_buffill
       (set_buffer fh (option_map (store_at (buffill fh) data) (buffer fh)))
       (u64 (buffill fh + len)))
  else
    let '(ok, fh1) := PHYSFS_flush fh in
    if negb ok then ((-1)%Z, fh1)
    else
      let '(rc, s') := call_write (io fh1) data len in
      (rc, set_io fh1 s').

(** ** PHYSFS_writeBytes (physfs.c, 2334-2356).  The caller's buffer is the
    list [data]; [_len] is the byte count passed with it. *)
Definition PHYSFS_writeBytes (fh : FileHandle) (data : list byte) (_len : Z)
  : result (Z * FileHandle) :=
  let _len := u64 _len in
  let len := u64 _len in
  if negb (__PHYSFS_ui64FitsAddressSpace _len) then
    Err PHYSFS_ERR_INVALID_ARGUMENT
  else if (_len >? maxlen)%Z then Err PHYSFS_ERR_INVALID_ARGUMENT
  else if forReading fh then Err PHYSFS_ERR_OPEN_FOR_READING
  else if (len =? 0)%Z then Ok (0%Z, fh)
  else
    match buffer fh with
    | Some _ => Ok (doBufferedWrite fh data len)
    | None =>
        let '(rc, s') := call_write (io fh) data len in
        Ok (rc, set_io fh s')
    end.

(** ** PHYSFS_write (physfs.c, 2325-2331) *)
Definition PHYSFS_write (fh : FileHandle) (data : list byte) (size count : Z)
  : result (Z * FileHandle) :=
  let len := u64 (size * count) in
  match PHYSFS_writeBytes fh data len with
  | Ok (retval, fh') =>
      Ok ((if (retval <=? 0)%Z then retval else Z.quot retval size), fh')
  | Err e => Err e
  end.

(** ** PHYSFS_seek (physfs.c, 2393-2416) *)
Definition PHYSFS_seek (fh : FileHandle) (pos : Z) : bool * FileHandle :=
  let '(ok, fh) := PHYSFS_flush fh in
  if negb ok then (false, fh)
  else
    let raw (fh : FileHandle) :=
      let fh0 := set_bufpos (set_buffill fh 0) 0 in
      let '(r, s') := io_seek IO (io fh0) pos in
      (r, set_io fh0 s') in
    match buffer fh with
    | Some _ =>
        if forReading fh then
          let offset := s64 (u64 (pos - PHYSFS_tell fh)) in
          if ((offset >=? 0)%Z
              && (u64 offset <=? u64 (buffill fh - bufpos fh))%Z)
             || ((offset <? 0)%Z && (u64 (- offset) <=? bufpos fh)%Z)
          then (true, set_bufpos fh (u64 (bufpos fh + offset)))
          else raw fh
        else raw fh
    | None => raw fh
    end.

(** ** PHYSFS_setBuffer (physfs.c, 2426-2470) *)
Definition PHYSFS_setBuffer (fh : FileHandle) (_bufsize : Z)
  : result (bool * FileHandle) :=
  let bufsize' := u64 _bufsize in
  if negb (__PHYSFS_ui64FitsAddressSpace _bufsize) then
    Err PHYSFS_ERR_INVALID_ARGUMENT
  else
    let '(ok, fh) := PHYSFS_flush fh in
    if negb ok then Ok (false, fh)
    else
      let finish (fh : FileHandle) :=
        let newbuf :=
          if (bufsize' =? 0)%Z then None
          else Some (firstn (Z.to_nat bufsize')
                            (buffer_bytes fh
                               ++ repeat Byte.x00 (Z.to_nat bufsize'))%list) in
        Ok (true,
            set_bufpos (set_buffill (set_bufsize (set_buffer fh newbuf)
                                                 bufsize') 0) 0) in
      if forReading fh && negb (buffill fh =? bufpos fh)%Z then
        let curpos := call_tell (io fh) in
        if (curpos =? -1)%Z then Ok (false, fh)
        else
          let pos := u64 (u64 (curpos - buffill fh) + bufpos fh) in
          let '(r, s') := io_seek IO (io fh) pos in
          if negb r then Ok (false, set_io fh s')
          else finish (set_io fh s')
      else finish fh.

(** ** Vocabulary for the properties of handles *)

(** The counters of a handle are in order and below the sign bit. *)
Definition handle_wf (fh : FileHandle) : Prop :=
  (0 <= bufpos fh <= buffill fh /\ buffill fh < 2 ^ 63
   /\ 0 <= bufsize fh < 2 ^ 63)%Z.

(** The logical position of a handle, computed in [Z]. *)
Definition logical_pos (fh : FileHandle) : Z :=
  if forReading fh then (io_tell IO (io fh) - buffill fh + bufpos fh)%Z
  else (io_tell IO (io fh) + buffill fh)%Z.

(** A stream keeps to the contract of [read] when a positive return value
    moves its position forward by that many bytes and any other leaves it at
    a position. *)
Definition read_contract : Prop :=
  forall s len rc data s',
    io_read IO s len = (rc, data, s') ->
    (0 <= io_tell IO s)%Z ->
    ((0 < s64 rc)%Z -> io_tell IO s' = (io_tell IO s + s64 rc)%Z) /\
    ((s64 rc <= 0)%Z -> (0 <= io_tell IO s')%Z).

(** The stream stands at or after the bytes the handle has buffered. *)
Definition stream_ahead (fh : FileHandle) : Prop :=
  (0 <= io_tell IO (io fh) /\ buffill fh <= io_tell IO (io fh))%Z.

(** The public operations that move a handle. *)
Inductive file_op : Type :=
| OpReadBytes (len : Z)
| OpRead (size count : Z)
| OpWriteBytes (data : list byte) (len : Z)
| OpWrite (data : list byte) (size count : Z)
| OpSeek (pos : Z)
| OpFlush.

(** An operation on a handle: whether it succeeded (a read or write that
    did not return a negative count, a seek or flush that returned nonzero)
    and the handle afterwards. *)
Definition run_op (op : file_op) (fh : FileHandle) : bool * FileHandle :=
  match op with
  | OpReadBytes len =>
      match PHYSFS_readBytes fh len with
      | Ok (rc, _, fh') => ((rc >=? 0)%Z, fh')
      | Err _ => (false, fh)
      end
  | OpRead size count =>
      match PHYSFS_read fh size count with
      | Ok (rc, _, fh') => ((rc >=? 0)%Z, fh')
      | Err _ => (false, fh)
      end
  | OpWriteBytes data len =>
      match PHYSFS_writeBytes fh data len with
      | Ok (rc, fh') => ((rc >=? 0)%Z, fh')
      | Err _ => (false, fh)
      end
  | OpWrite data size count =>
      match PHYSFS_write fh data size count with
      | Ok (rc, fh') => ((rc >=? 0)%Z, fh')
      | Err _ => (false, fh)
      end
  | OpSeek pos => PHYSFS_seek fh pos
  | OpFlush => PHYSFS_flush fh
  end.

(** The handle after an operation that succeeded. *)
Definition after_op (op : file_op) (fh : FileHandle) : option FileHandle :=
  let '(ok, fh') := run_op op fh in
  if ok then Some fh' else None.

(** The handles a program can hold: one as [PHYSFS_openRead] or
    [doOpenWrite] makes it, then any sequence of operations and of calls of
    [PHYSFS_setBuffer] with a size below the sign bit. *)
Inductive reachable : FileHandle -> Prop :=
| reach_open (a : nat) (s : T) (r : bool) (dh : nat) :
    reachable (mkFileHandle a s r dh None 0 0 0)
| reach_op (fh : FileHandle) (op : file_op) :
    reachable fh -> reachable (snd (run_op op fh))
| reach_setBuffer (fh : FileHandle) (n : Z) (ok : bool) (fh' : FileHandle) :
    reachable fh -> (0 <= n < 2 ^ 63)%Z ->
    PHYSFS_setBuffer fh n = Ok (ok, fh') -> reachable fh'.

End FileHandles.

Arguments FileHandle T : clear implicits.

(* ===================================================================== *)
(** * The platform layer, archivers and the state of one drive *)
(* ===================================================================== *)

Inductive PHYSFS_FileType : Type :=
| PHYSFS_FILETYPE_REGULAR
| PHYSFS_FILETYPE_DIRECTORY
| PHYSFS_FILETYPE_SYMLINK
| PHYSFS_FILETYPE_OTHER.

Definition filetype_eqb (a b : PHYSFS_FileType) : bool :=
  match a, b with
  | PHYSFS_FILETYPE_REGULAR, PHYSFS_FILETYPE_REGULAR
  | PHYSFS_FILETYPE_DIRECTORY, PHYSFS_FILETYPE_DIRECTORY
  | PHYSFS_FILETYPE_SYMLINK, PHYSFS_FILETYPE_SYMLINK
  | PHYSFS_FILETYPE_OTHER, PHYSFS_FILETYPE_OTHER => true
  | _, _ => false
  end.

Record PHYSFS_Stat : Type := mkStat {
  filesize : Z;
  modtime  : Z;
  filetype : PHYSFS_FileType;
  readonly : bool
}.

Inductive PHYSFS_EnumerateCallbackResult : Type :=
| PHYSFS_ENUM_ERROR
| PHYSFS_ENUM_STOP
| PHYSFS_ENUM_OK.

(** Instance data of an archive ([void *opaque]).  The only archiver of this
    build is DIR, whose instance data is a C string. *)
Definition opaque_t : Type := string.

(** The platform layer (physfs_platform_posix.c) is not part of these files;
    its entry points are parameters.  [__PHYSFS_platformStat path follow]
    gives [None] for success or [Some e] for a failure that set [e], together
    with what the caller's [PHYSFS_Stat] holds afterwards.  The open calls
    give the stream behind the new native [PHYSFS_Io] or the code they set;
    [__PHYSFS_platformEnumerate] gives the entries it reports, in order, or
    the code of a failure before the first one. *)
Record Platform (T : Type) : Type := {
  __PHYSFS_platformStat : string -> bool -> option PHYSFS_ErrorCode * PHYSFS_Stat;
  __PHYSFS_platformOpenRead : string -> result T;
  __PHYSFS_platformOpenWrite : string -> result T;
  __PHYSFS_platformOpenAppend : string -> result T;
  __PHYSFS_platformEnumerate : string -> result (list string)
}.
Arguments __PHYSFS_platformStat {T} _ _ _.
Arguments __PHYSFS_platformOpenRead {T} _ _.
Arguments __PHYSFS_platformOpenWrite {T} _ _.
Arguments __PHYSFS_platformOpenAppend {T} _ _.
Arguments __PHYSFS_platformEnumerate {T} _ _.

(** [__PHYSFS_platformDirSeparator] of the Linux build (physfs_internal.h). *)
Definition __PHYSFS_platformDirSeparator : ascii := "/"%char.

(** [strncmp], with the sign convention of [strcmp]. *)
Fixpoint strncmp (a b : string) (n : nat) : Z :=
  match n with
  | O => 0
  | S n' =>
      match a, b with
      | EmptyString, EmptyString => 0
      | EmptyString, String _ _ => -1
      | String _ _, EmptyString => 1
      | String c a', String d b' =>
          match N.compare (N_of_ascii c) (N_of_ascii d) with
          | Eq => strncmp a' b' n'
          | Lt => -1
          | Gt => 1
          end
      end
  end%Z.

(** The characters of [s] before its first ['/'] (all of [s] without one). *)
Fixpoint until_slash (s : string) : string :=
  match s with
  | EmptyString => EmptyString
  | String c s' => if is_slash c then EmptyString else String c (until_slash s')
  end.

(** The strings that [fname] denotes while [verifyPath] has overwritten
    successive separators with NUL: [fname] cut before each ['/'] in turn,
    then [fname] itself.  [pre] is the part of the path already scanned. *)
Fixpoint path_cuts (pre rest : string) : list string :=
  match rest with
  | EmptyString => [pre]
  | String c rest' =>
      if is_slash c then pre :: path_cuts (pre ++ String c "") rest'
      else path_cuts (pre ++ String c "") rest'
  end.

(** The order of [strcmp]. *)
Definition slt (a b : string) : Prop := (strcmp a b < 0)%Z.

(** ** locateInStringList (physfs.c, 1728-1757).  [len], [lo], [half_len]
    and [middle] are [PHYSFS_uint32].  The loop gives [None] when it returns
    1 from inside (the string is in the list) and [Some lo] when it falls
    through. *)
Equations? locate_loop (str : string) (l : list string) (len lo : Z)
  : option Z by wf (Z.to_nat len) lt :=
locate_loop str l len lo with Z_gt_dec len 0 := {
  | right _ := Some lo
  | left Hlen :=
      if (strcmp (nth (Z.to_nat (u32 (lo + Z.shiftr len 1))) l "") str =? 0)%Z
      then None
      else if (strcmp (nth (Z.to_nat (u32 (lo + Z.shiftr len 1))) l "") str >? 0)%Z
      then locate_loop str l (Z.shiftr len 1) lo
      else locate_loop str l (u32 (len - u32 (Z.shiftr len 1 + 1)))
                       (u32 (u32 (lo + Z.shiftr len 1) + 1)) }.
Proof.
  - rewrite Z.shiftr_div_pow2 by lia. change (2 ^ 1)%Z with 2%Z.
    assert (len / 2 < len)%Z by (apply Z.div_lt; lia).
    assert (0 <= len / 2)%Z by (apply Z.div_pos; lia).
    lia.
  - rewrite Z.shiftr_div_pow2 by lia. change (2 ^ 1)%Z with 2%Z.
    assert (Hh : (0 <= len / 2 < len)%Z).
    { split; [apply Z.div_pos; lia | apply Z.div_lt; lia]. }
    destruct (Z_lt_dec len (2 ^ 32)) as [Hs | Hb].
    + rewrite (u32_small (len / 2 + 1)) by lia.
      pose proof (u32_le (len - (len / 2 + 1))). lia.
    + assert (0 <= u32 (len - u32 (len / 2 + 1)) < 2 ^ 32)%Z.
      { unfold u32. apply Z.mod_pos_bound. lia. }
      lia.
Qed.

(** The result is the return value and [*pos] afterwards. *)
Definition locateInStringList (str : string) (l : list string) (pos : Z)
  : bool * Z :=
  match locate_loop str l pos 0 with
  | None => (true, pos)
  | Some lo => (false, lo)
  end.

Section Drives.

Context {T : Type}.
Variable IO : PHYSFS_Io T.
Variable P : Platform T.

(** Calls that leave this file, recorded in the order they are made. *)
Inductive Event : Type :=
| EvPlatformStat (path : string) (follow : bool)
| EvCreateNativeIo (path : string) (mode : ascii)
| EvIoSeek (pos : Z)
| EvIoDestroy (s : T)
| EvOpenArchive (name : string) (forWriting : bool)
| EvCloseArchive (o : opaque_t)
| EvStat (o : opaque_t) (name : string)
| EvEnumerate (o : opaque_t) (dname : string)
| EvOpenRead (o : opaque_t) (name : string)
| EvCallback (origdir fname : string).

(** What the calling thread carries besides the drive's lists: its error
    state ([PHYSFS_ERR_OK] when it has no [ErrState] record), the record of
    outside calls and the next address the allocator hands out. *)
Record Env : Type := mkEnv {
  errcode   : PHYSFS_ErrorCode;
  trace     : list Event;
  next_addr : nat
}.

Definition log (ev : Event) (e : Env) : Env :=
  mkEnv (errcode e) (trace e ++ [ev]) (next_addr e).

Definition alloc (e : Env) : nat * Env :=
  (next_addr e, mkEnv (errcode e) (trace e) (S (next_addr e))).

(** ** PHYSFS_setErrorCode, currentErrorCode, PHYSFS_getLastErrorCode
    (physfs.c, 494-579) *)
Definition PHYSFS_setErrorCode (c : PHYSFS_ErrorCode) (e : Env) : Env :=
  if errcode_eqb c PHYSFS_ERR_OK then e
  else mkEnv c (trace e) (next_addr e).

Definition currentErrorCode (e : Env) : PHYSFS_ErrorCode := errcode e.

Definition PHYSFS_getLastErrorCode (e : Env) : PHYSFS_ErrorCode * Env :=
  (errcode e, mkEnv PHYSFS_ERR_OK (trace e) (next_addr e)).

(** ** __PHYSFS_createNativeIo (physfs.c, 169-208) *)
Definition __PHYSFS_createNativeIo (path : string) (mode : ascii) (e : Env)
  : option T * Env :=
  let e := log (EvCreateNativeIo path mode) e in
  let handle :=
    if Ascii.eqb mode "r" then __PHYSFS_platformOpenRead P path
    else if Ascii.eqb mode "w" then __PHYSFS_platformOpenWrite P path
    else __PHYSFS_platformOpenAppend P path in
  match handle with
  | Ok s => (Some s, e)
  | Err c => (None, PHYSFS_setErrorCode c e)
  end.

Definition platformStat (path : string) (follow : bool) (e : Env)
  : (bool * PHYSFS_Stat) * Env :=
  let e := log (EvPlatformStat path follow) e in
  match __PHYSFS_platformStat P path follow with
  | (None, sb) => ((true, sb), e)
  | (Some c, sb) => ((false, sb), PHYSFS_setErrorCode c e)
  end.

(** The function table of an archiver ([PHYSFS_Archiver]).  [openArchive]
    gives the instance data (or NULL) and whether it stored 1 in [*claimed];
    [stat] gives its return value and what the caller's [PHYSFS_Stat] holds
    afterwards; [entries] gives the names that [enumerate] reports for a
    directory, or the code of a failure before the first of them. *)
Record PHYSFS_Archiver : Type := {
  supportsSymlinks : bool;
  openArchive  : option T -> string -> bool -> Env -> (option opaque_t * bool) * Env;
  entries      : opaque_t -> string -> result (list string);
  openRead     : opaque_t -> string -> Env -> option T * Env;
  stat         : opaque_t -> string -> Env -> (bool * PHYSFS_Stat) * Env;
  closeArchive : opaque_t -> Env -> Env
}.

Definition EnumerateCallback (D : Type) : Type :=
  D -> string -> string -> Env -> PHYSFS_EnumerateCallbackResult * D * Env.

(** Modelled from the spec: the callback protocol of a backend's
    [enumerate] (the directory walk of the platform layer is not part of
    these files).  The entries are handed to the callback in order; [STOP]
    ends the walk, [ERROR] ends it with [PHYSFS_ERR_APP_CALLBACK]. *)
Fixpoint deliver_entries {D : Type} (cb : EnumerateCallback D)
  (origdir : string) (names : list string) (d : D) (e : Env)
  : PHYSFS_EnumerateCallbackResult * D * Env :=
  match names with
  | [] => (PHYSFS_ENUM_OK, d, e)
  | n :: rest =>
      let '(r, d', e') := cb d origdir n e in
      match r with
      | PHYSFS_ENUM_OK => deliver_entries cb origdir rest d' e'
      | PHYSFS_ENUM_STOP => (PHYSFS_ENUM_STOP, d', e')
      | PHYSFS_ENUM_ERROR =>
          (PHYSFS_ENUM_ERROR, d', PHYSFS_setErrorCode PHYSFS_ERR_APP_CALLBACK e')
      end
  end.

Definition enumerate {D : Type} (f : PHYSFS_Archiver) (o : opaque_t)
  (dname : string) (cb : EnumerateCallback D) (origdir : string) (d : D)
  (e : Env) : PHYSFS_EnumerateCallbackResult * D * Env :=
  let e := log (EvEnumerate o dname) e in
  match entries f o dname with
  | Err c => (PHYSFS_ENUM_ERROR, d, PHYSFS_setErrorCode c e)
  | Ok names => deliver_entries cb origdir names d e
  end.

(** ** The DIR archiver (physfs_archiver_dir.c) *)

(** [cvtToDependent]: with the standard separator no character is
    translated. *)
Definition cvtToDependent (prepend : option string) (path : string) : string :=
  match prepend with
  | Some pre => pre ++ path
  | None => path
  end.

Definition DIR_openArchive (io : option T) (name : string) (forWriting : bool)
  (e : Env) : (option opaque_t * bool) * Env :=
  let '((ok, st), e) := platformStat name true e in
  if negb ok then ((None, false), e)
  else if negb (filetype_eqb (filetype st) PHYSFS_FILETYPE_DIRECTORY) then
    ((None, false), PHYSFS_setErrorCode PHYSFS_ERR_UNSUPPORTED e)
  else
    let retval :=
      if ends_with_slash name then name
      else name ++ String __PHYSFS_platformDirSeparator "" in
    ((Some retval, true), e).

Definition DIR_entries (o : opaque_t) (dname : string) : result (list string) :=
  __PHYSFS_platformEnumerate P (cvtToDependent (Some o) dname).

Definition doOpen (o : opaque_t) (name : string) (mode : ascii) (e : Env)
  : option T * Env :=
  let f := cvtToDependent (Some o) name in
  match __PHYSFS_createNativeIo f mode e with
  | (Some s, e) => (Some s, e)
  | (None, e) =>
      let '(err, e) := PHYSFS_getLastErrorCode e in
      let '(_, e) := platformStat f false e in
      (None, PHYSFS_setErrorCode err e)
  end.

Definition DIR_openRead (o : opaque_t) (filename : string) (e : Env)
  : option T * Env :=
  doOpen o filename "r" e.

Definition DIR_stat (o : opaque_t) (name : string) (e : Env)
  : (bool * PHYSFS_Stat) * Env :=
  platformStat (cvtToDependent (Some o) name) false e.

Definition DIR_closeArchive (o : opaque_t) (e : Env) : Env := e.

Definition __PHYSFS_Archiver_DIR : PHYSFS_Archiver := {|
  supportsSymlinks := true;
  openArchive := DIR_openArchive;
  entries := DIR_entries;
  openRead := DIR_openRead;
  stat := DIR_stat;
  closeArchive := DIR_closeArchive
|}.

(** ** The mount stack *)

(** [struct __PHYSFS_DIRHANDLE__]; [dh_addr] is the address of the
    structure, NULL strings are [None]. *)
Record DirHandle : Type := mkDirHandle {
  dh_addr    : nat;
  opaque     : opaque_t;
  dirName    : option string;
  mountPoint : option string;
  funcs      : PHYSFS_Archiver
}.

(** The per-drive globals of physfs.c. *)
Record Drive : Type := mkDrive {
  searchPath    : list DirHandle;
  writeDir      : option DirHandle;
  openWriteList : list (FileHandle T);
  openReadList  : list (FileHandle T);
  allowSymLinks : bool;
  env           : Env
}.

Definition set_env (d : Drive) (e : Env) : Drive :=
  mkDrive (searchPath d) (writeDir d) (openWriteList d) (openReadList d)
          (allowSymLinks d) e.

Definition set_searchPath (d : Drive) (sp : list DirHandle) : Drive :=
  mkDrive sp (writeDir d) (openWriteList d) (openReadList d)
          (allowSymLinks d) (env d).

Definition set_openReadList (d : Drive) (l : list (FileHandle T)) : Drive :=
  mkDrive (searchPath d) (writeDir d) (openWriteList d) l
          (allowSymLinks d) (env d).

Definition set_openWriteList (d : Drive) (l : list (FileHandle T)) : Drive :=
  mkDrive (searchPath d) (writeDir d) l (openReadList d)
          (allowSymLinks d) (env d).

Definition bail (c : PHYSFS_ErrorCode) (d : Drive) : Drive :=
  set_env d (PHYSFS_setErrorCode c (env d)).

(** Calls through [h->funcs]. *)
Definition call_stat (h : DirHandle) (name : string) (e : Env)
  : (bool * PHYSFS_Stat) * Env :=
  stat (funcs h) (opaque h) name (log (EvStat (opaque h) name) e).

Definition call_openRead (h : DirHandle) (name : string) (e : Env)
  : option T * Env :=
  openRead (funcs h) (opaque h) name (log (EvOpenRead (opaque h) name) e).

(** ** tryOpenDir (physfs.c, 639-664) *)
Definition tryOpenDir (io : option T) (f : PHYSFS_Archiver) (d : string)
  (forWriting : bool) (e : Env) : (option DirHandle * bool * option T) * Env :=
  let seeked :=
    match io with
    | Some s =>
        let '(ok, s') := io_seek IO s 0 in
        (ok, Some s', log (EvIoSeek 0) e)
    | None => (true, None, e)
    end in
  let '(ok, io, e) := seeked in
  if negb ok then ((None, false, io), e)
  else
    let '((o, claimed), e) :=
      openArchive f io d forWriting (log (EvOpenArchive d forWriting) e) in
    match o with
    | Some o =>
        let '(a, e) := alloc e in
        ((Some (mkDirHandle a o None None f), claimed, io), e)
    | None => ((None, claimed, io), e)
    end.

(** ** openDirectory (physfs.c, 667-704) *)
Definition openDirectory (io : option T) (d : string) (forWriting : bool)
  (e : Env) : option DirHandle * Env :=
  let finish (created : option T) (claimed : bool) (e : Env) :=
    let errc := currentErrorCode e in
    let e := match created with
             | Some s => log (EvIoDestroy s) e
             | None => e
             end in
    (None,
     PHYSFS_setErrorCode (if claimed then errc else PHYSFS_ERR_UNSUPPORTED) e) in
  match io with
  | Some _ => finish None false e
  | None =>
      let '((ok, statbuf), e) := platformStat d true e in
      if negb ok then (None, e)
      else
        let wrap (claimed : bool) (e : Env) :=
          match __PHYSFS_createNativeIo d (if forWriting then "w" else "r")%char e with
          | (None, e) => (None, e)
          | (Some s, e) => finish (Some s) claimed e
          end in
        if filetype_eqb (filetype statbuf) PHYSFS_FILETYPE_DIRECTORY then
          let '((retval, claimed, _), e) :=
            tryOpenDir None __PHYSFS_Archiver_DIR d forWriting e in
          match retval with
          | Some dh => (Some dh, e)
          | None => if claimed then (None, e) else wrap claimed e
          end
        else wrap false e
  end.

(** ** createDirHandle (physfs.c, 794-842) *)
Definition createDirHandle (io : option T) (newDir : string)
  (mountPoint : option string) (forWriting : bool) (e : Env)
  : option DirHandle * Env :=
  let sane :=
    match mountPoint with
    | Some mp =>
        match sanitizePlatformIndependentPath mp with
        | Ok mp' => Ok (Some mp')
        | Err c => Err c
        end
    | None => Ok None
    end in
  match sane with
  | Err c => (None, PHYSFS_setErrorCode c e)
  | Ok mountPoint =>
      match openDirectory io newDir forWriting e with
      | (None, e) => (None, e)
      | (Some dh, e) =>
          let mp :=
            match mountPoint with
            | Some (String c s) => Some (String c s ++ "/")
            | _ => None
            end in
          (Some (mkDirHandle (dh_addr dh) (opaque dh) (Some newDir) mp (funcs dh)), e)
      end
  end.

(** ** freeDirHandle (physfs.c, 846-861) *)
Definition freeDirHandle (dh : option DirHandle) (openList : list (FileHandle T))
  (e : Env) : bool * Env :=
  match dh with
  | None => (true, e)
  | Some dh =>
      if existsb (fun i => Nat.eqb (dirHandle i) (dh_addr dh)) openList then
        (false, PHYSFS_setErrorCode PHYSFS_ERR_FILES_STILL_OPEN e)
      else
        (true, closeArchive (funcs dh) (opaque dh)
                            (log (EvCloseArchive (opaque dh)) e))
  end.

Definition dirName_is (name : string) (i : DirHandle) : bool :=
  match dirName i with
  | Some n => (strcmp name n =? 0)%Z
  | None => false
  end.

(** ** doMount (physfs.c, 1220-1260) *)
Definition doMount (io : option T) (fname : option string)
  (mountPoint : option string) (appendToPath : bool) (d : Drive)
  : bool * Drive :=
  match fname with
  | None => (false, bail PHYSFS_ERR_INVALID_ARGUMENT d)
  | Some fname =>
      let mountPoint := match mountPoint with
                        | Some mp => mp
                        | None => "/"
                        end in
      if existsb (dirName_is fname) (searchPath d) then (true, d)
      else
        match createDirHandle io fname (Some mountPoint) false (env d) with
        | (None, e) => (false, set_env d e)
        | (Some dh, e) =>
            let sp := if appendToPath then (searchPath d ++ [dh])%list
                      else dh :: searchPath d in
            (true, set_searchPath (set_env d e) sp)
        end
  end.

(** ** PHYSFS_mount (physfs.c, 1296-1300) *)
Definition PHYSFS_mount (newDir mountPoint : option string)
  (appendToPath : bool) (d : Drive) : bool * Drive :=
  match newDir with
  | None => (false, bail PHYSFS_ERR_INVALID_ARGUMENT d)
  | Some _ => doMount None newDir mountPoint appendToPath d
  end.

(** ** PHYSFS_unmount (physfs.c, 1315-1343).  The loop gives [None] when no
    handle carries the name, else whether [freeDirHandle] let it go and the
    search path afterwards. *)
Fixpoint unmount_loop (oldDir : string) (sp : list DirHandle)
  (openList : list (FileHandle T)) (e : Env)
  : option (bool * list DirHandle * Env) :=
  match sp with
  | [] => None
  | i :: next =>
      if match dirName i with
         | Some n => (strcmp n oldDir =? 0)%Z
         | None => false
         end
      then
        match freeDirHandle (Some i) openList e with
        | (false, e) => Some (false, i :: next, e)
        | (true, e) => Some (true, next, e)
        end
      else
        match unmount_loop oldDir next openList e with
        | Some (ok, sp', e) => Some (ok, i :: sp', e)
        | None => None
        end
  end.

Definition PHYSFS_unmount (oldDir : option string) (d : Drive) : bool * Drive :=
  match oldDir with
  | None => (false, bail PHYSFS_ERR_INVALID_ARGUMENT d)
  | Some oldDir =>
      match unmount_loop oldDir (searchPath d) (openReadList d) (env d) with
      | Some (ok, sp, e) => (ok, set_searchPath (set_env d e) sp)
      | None => (false, bail PHYSFS_ERR_NOT_MOUNTED d)
      end
  end.

(** ** partOfMountPoint (physfs.c, 766-791) *)
Definition partOfMountPoint (h : DirHandle) (fname : string) : bool :=
  match mountPoint h with
  | None => false
  | Some mp =>
      match fname with
      | EmptyString => true
      | String _ _ =>
          let len := String.length fname in
          let mntpntlen := String.length mp in
          if (mntpntlen <? len)%nat then false
          else if (len + 1 =? mntpntlen)%nat then false
          else if negb (strncmp fname mp len =? 0)%Z then false
          else match String.get len mp with
               | Some c => is_slash c
               | None => false
               end
      end
  end.

(** ** verifyPath (physfs.c, 1507-1579) *)

(** The loop over the path elements.  [cuts] are the strings still to be
    passed to [stat]; the last of them is the one for which [end] is NULL. *)
Fixpoint verify_segments (h : DirHandle) (allowMissing : bool)
  (cuts : list string) (e : Env) : bool * Env :=
  match cuts with
  | [] => (true, e)
  | name :: rest =>
      let '((rc, statbuf), e) := call_stat h name e in
      let is_link := rc && filetype_eqb (filetype statbuf) PHYSFS_FILETYPE_SYMLINK in
      let retval :=
        if rc then true
        else negb (errcode_eqb (currentErrorCode e) PHYSFS_ERR_NOT_FOUND) in
      if is_link then (false, PHYSFS_setErrorCode PHYSFS_ERR_SYMLINK_FORBIDDEN e)
      else if negb retval then
        match rest with
        | [] => (true, e)
        | _ :: _ => (allowMissing, e)
        end
      else
        match rest with
        | [] => (true, e)
        | _ :: _ => verify_segments h allowMissing rest e
        end
  end.

(** The block of [verifyPath] for a handle with a mountpoint: [None] when it
    bails out with [PHYSFS_ERR_NOT_FOUND], else [fname] moved past the
    mountpoint.  The [assert] on the length of a mountpoint is not part of
    the embedding. *)
Definition skip_mountPoint (h : DirHandle) (fname : string) : option string :=
  match mountPoint h with
  | Some mp =>
      let mntpntlen := String.length mp in
      let len := String.length fname in
      if (len <? mntpntlen - 1)%nat then None
      else if negb (strncmp mp fname (mntpntlen - 1) =? 0)%Z then None
      else if (mntpntlen - 1 <? len)%nat
              && negb match String.get (mntpntlen - 1) fname with
                      | Some c => is_slash c
                      | None => false
                      end
      then None
      else
        let fname1 := str_from (mntpntlen - 1) fname in
        Some (if starts_with_slash fname1 then str_from 1 fname1 else fname1)
  | None => Some fname
  end.

(** The result is the return value and the advanced [*_fname]. *)
Definition verifyPath (allow : bool) (h : DirHandle) (fname : string)
  (allowMissing : bool) (e : Env) : (bool * string) * Env :=
  match fname with
  | EmptyString => ((true, fname), e)
  | String _ _ =>
      match skip_mountPoint h fname with
      | None => ((false, fname), PHYSFS_setErrorCode PHYSFS_ERR_NOT_FOUND e)
      | Some fname =>
          if negb allow then
            let '(r, e) :=
              verify_segments h allowMissing (path_cuts "" fname) e in
            ((r, fname), e)
          else ((true, fname), e)
      end
  end.

(** ** PHYSFS_openRead (physfs.c, 2110-2163) *)
Fixpoint openRead_loop (allow : bool) (fname : string) (sp : list DirHandle)
  (e : Env) : option (T * DirHandle) * Env :=
  match sp with
  | [] => (None, e)
  | i :: rest =>
      let '((ok, arcfname), e) := verifyPath allow i fname false e in
      if ok then
        match call_openRead i arcfname e with
        | (Some s, e) => (Some (s, i), e)
        | (None, e) => openRead_loop allow fname rest e
        end
      else openRead_loop allow fname rest e
  end.

Definition PHYSFS_openRead (_fname : option string) (d : Drive)
  : option (FileHandle T) * Drive :=
  match _fname with
  | None => (None, bail PHYSFS_ERR_INVALID_ARGUMENT d)
  | Some _fname =>
      match sanitizePlatformIndependentPath _fname with
      | Err c => (None, bail c d)
      | Ok fname =>
          match searchPath d with
          | [] => (None, bail PHYSFS_ERR_NOT_FOUND d)
          | _ :: _ =>
              match openRead_loop (allowSymLinks d) fname (searchPath d) (env d) with
              | (None, e) => (None, set_env d e)
              | (Some (s, i), e) =>
                  let '(a, e) := alloc e in
                  let fh := mkFileHandle a s true (dh_addr i) None 0 0 0 in
                  (Some fh, set_openReadList (set_env d e) (fh :: openReadList d))
              end
          end
      end
  end.

(** ** closeHandleInOpenList and PHYSFS_close (physfs.c, 2166-2229).
    The result is -1, 0 or 1 as in the source, with the list afterwards. *)
Fixpoint closeHandleInOpenList (l : list (FileHandle T)) (handle : nat)
  (e : Env) : Z * list (FileHandle T) * Env :=
  match l with
  | [] => (0%Z, [], e)
  | i :: rest =>
      if Nat.eqb (fh_addr i) handle then
        let flushed :=
          if negb (forReading i) then
            let '(ok, i1) := PHYSFS_flush IO i in
            if negb ok then (false, i1)
            else
              match io_flush IO with
              | Some fl => let '(ok2, s') := fl (io i1) in (ok2, set_io i1 s')
              | None => (true, i1)
              end
          else (true, i) in
        let '(ok, i') := flushed in
        if negb ok then ((-1)%Z, i' :: rest, e)
        else (1%Z, rest, log (EvIoDestroy (io i')) e)
      else
        let '(rc, rest', e) := closeHandleInOpenList rest handle e in
        (rc, i :: rest', e)
  end.

Definition PHYSFS_close (handle : nat) (d : Drive) : bool * Drive :=
  let '(rc, l, e) := closeHandleInOpenList (openReadList d) handle (env d) in
  let d := set_openReadList (set_env d e) l in
  if (rc =? -1)%Z then (false, d)
  else if (rc =? 0)%Z then
    let '(rc, l, e) := closeHandleInOpenList (openWriteList d) handle (env d) in
    let d := set_openWriteList (set_env d e) l in
    if (rc =? -1)%Z then (false, d)
    else if (rc =? 0)%Z then (false, bail PHYSFS_ERR_INVALID_ARGUMENT d)
    else (true, d)
  else (true, d).

(** ** Enumeration (physfs.c, 1760-1984) *)

(** A call of the application's callback. *)
Definition invoke {D : Type} (cb : EnumerateCallback D) : EnumerateCallback D :=
  fun d origdir fname e => cb d origdir fname (log (EvCallback origdir fname) e).

(** [EnumStringListCallbackData]: [ecd_list] holds the strings stored in
    the array so far, [ecd_size] is the [PHYSFS_uint32] counter. *)
Record EnumStringListCallbackData : Type := mkEcd {
  ecd_list    : list string;
  ecd_size    : Z;
  ecd_errcode : PHYSFS_ErrorCode
}.

(** The array after the [memmove] of [size - pos] pointers and the store of
    [str] at index [pos]. *)
Definition insert_at (pos size : Z) (str : string) (l : list string)
  : list string :=
  (firstn (Z.to_nat pos) l
     ++ str :: firstn (Z.to_nat (size - pos)) (skipn (Z.to_nat pos) l))%list.

Definition enumFilesCallback : EnumerateCallback EnumStringListCallbackData :=
  fun pecd origdir str e =>
    let '(found, pos) := locateInStringList str (ecd_list pecd) (ecd_size pecd) in
    if found then (PHYSFS_ENUM_OK, pecd, e)
    else
      (PHYSFS_ENUM_OK,
       mkEcd (insert_at pos (ecd_size pecd) str (ecd_list pecd))
             (u32 (ecd_size pecd + 1)) (ecd_errcode pecd),
       e).

(** ** enumerateFromMountPoint (physfs.c, 1830-1854) *)
Definition enumerateFromMountPoint {D : Type} (i : DirHandle)
  (arcfname : string) (cb : EnumerateCallback D) (_fname : string) (d : D)
  (e : Env) : PHYSFS_EnumerateCallbackResult * D * Env :=
  let len := String.length arcfname in
  let mp := match mountPoint i with
            | Some mp => mp
            | None => ""
            end in
  let ptr := str_from (if (len =? 0)%nat then 0 else len + 1) mp in
  let '(retval, d, e) := invoke cb d _fname (until_slash ptr) e in
  match retval with
  | PHYSFS_ENUM_ERROR =>
      (retval, d, PHYSFS_setErrorCode PHYSFS_ERR_APP_CALLBACK e)
  | _ => (retval, d, e)
  end.

Record SymlinkFilterData (D : Type) : Type := mkFilter {
  callback       : EnumerateCallback D;
  callbackData   : D;
  dirhandle      : DirHandle;
  arcfname       : string;
  filter_errcode : PHYSFS_ErrorCode
}.
Arguments mkFilter {D} _ _ _ _ _.
Arguments callback {D} _.
Arguments callbackData {D} _.
Arguments dirhandle {D} _.
Arguments arcfname {D} _.
Arguments filter_errcode {D} _.

(** ** enumCallbackFilterSymLinks (physfs.c, 1866-1905) *)
Definition enumCallbackFilterSymLinks {D : Type}
  : EnumerateCallback (SymlinkFilterData D) :=
  fun data origdir fname e =>
    let dh := dirhandle data in
    let trimmedDir :=
      if starts_with_slash (arcfname data) then str_from 1 (arcfname data)
      else arcfname data in
    let path :=
      trimmedDir
        ++ match trimmedDir with
           | EmptyString => ""
           | String _ _ => "/"
           end
        ++ fname in
    match call_stat dh path e with
    | ((false, _), e) =>
        (PHYSFS_ENUM_ERROR,
         mkFilter (callback data) (callbackData data) dh (arcfname data)
                  (currentErrorCode e),
         e)
    | ((true, statbuf), e) =>
        if negb (filetype_eqb (filetype statbuf) PHYSFS_FILETYPE_SYMLINK) then
          let '(retval, d, e) :=
            invoke (callback data) (callbackData data) origdir fname e in
          (retval,
           mkFilter (callback data) d dh (arcfname data)
                    match retval with
                    | PHYSFS_ENUM_ERROR => PHYSFS_ERR_APP_CALLBACK
                    | _ => filter_errcode data
                    end,
           e)
        else (PHYSFS_ENUM_OK, data, e)
    end.

(** ** PHYSFS_enumerate (physfs.c, 1908-1984) *)

(** One turn of the loop over the search path. *)
Definition enumerate_one {D : Type} (allow : bool) (fname _fn : string)
  (cb : EnumerateCallback D) (i : DirHandle) (d : D) (e : Env)
  : PHYSFS_EnumerateCallbackResult * D * Env :=
  if partOfMountPoint i fname then enumerateFromMountPoint i fname cb _fn d e
  else
    let '((ok, arcname), e) := verifyPath allow i fname false e in
    if ok then
      let '((sok, statbuf), e) := call_stat i arcname e in
      if negb sok && errcode_eqb (currentErrorCode e) PHYSFS_ERR_NOT_FOUND then
        (PHYSFS_ENUM_OK, d, e)
      else if negb (filetype_eqb (filetype statbuf) PHYSFS_FILETYPE_DIRECTORY) then
        (PHYSFS_ENUM_OK, d, e)
      else if negb allow && supportsSymlinks (funcs i) then
        let filterdata := mkFilter cb d i arcname PHYSFS_ERR_OK in
        let '(retval, fd, e) :=
          enumerate (funcs i) (opaque i) arcname enumCallbackFilterSymLinks
                    _fn filterdata e in
        let e :=
          match retval with
          | PHYSFS_ENUM_ERROR =>
              if errcode_eqb (currentErrorCode e) PHYSFS_ERR_APP_CALLBACK
              then PHYSFS_setErrorCode (filter_errcode fd) e
              else e
          | _ => e
          end in
        (retval, callbackData fd, e)
      else enumerate (funcs i) (opaque i) arcname (invoke cb) _fn d e
    else (PHYSFS_ENUM_OK, d, e).

Fixpoint enumerate_loop {D : Type} (allow : bool) (fname _fn : string)
  (cb : EnumerateCallback D) (sp : list DirHandle)
  (retval : PHYSFS_EnumerateCallbackResult) (d : D) (e : Env)
  : PHYSFS_EnumerateCallbackResult * D * Env :=
  match sp with
  | [] => (retval, d, e)
  | i :: rest =>
      match retval with
      | PHYSFS_ENUM_OK =>
          let '(retval, d, e) := enumerate_one allow fname _fn cb i d e in
          enumerate_loop allow fname _fn cb rest retval d e
      | _ => (retval, d, e)
      end
  end.

Definition PHYSFS_enumerate {D : Type} (_fn : option string)
  (cb : option (EnumerateCallback D)) (data : D) (d : Drive)
  : bool * D * Drive :=
  match _fn, cb with
  | None, _ => (false, data, bail PHYSFS_ERR_INVALID_ARGUMENT d)
  | Some _, None => (false, data, bail PHYSFS_ERR_INVALID_ARGUMENT d)
  | Some _fn, Some cb =>
      let '(retval, data, d) :=
        match sanitizePlatformIndependentPath _fn with
        | Err c => (PHYSFS_ENUM_STOP, data, bail c d)
        | Ok fname =>
            let '(retval, data, e) :=
              enumerate_loop (allowSymLinks d) fname _fn cb (searchPath d)
                             PHYSFS_ENUM_OK data (env d) in
            (retval, data, set_env d e)
        end in
      (match retval with
       | PHYSFS_ENUM_ERROR => false
       | _ => true
       end, data, d)
  end.

(** ** PHYSFS_enumerateFiles (physfs.c, 1805-1824).  The result is the
    array the caller receives: the strings, then the NULL. *)
Definition PHYSFS_enumerateFiles (path : option string) (d : Drive)
  : option (list (option string)) * Drive :=
  let ecd := mkEcd [] 0 PHYSFS_ERR_OK in
  let '(ok, ecd, d) := PHYSFS_enumerate path (Some enumFilesCallback) ecd d in
  if negb ok then
    let errc := currentErrorCode (env d) in
    (None,
     if errcode_eqb errc PHYSFS_ERR_APP_CALLBACK then bail (ecd_errcode ecd) d
     else d)
  else
    (Some (map Some (firstn (Z.to_nat (ecd_size ecd)) (ecd_list ecd)) ++ [None])%list,
     d).

(** ** Vocabulary for the properties of the mount stack *)



(** The list collected so far is strictly ascending in the order of
    [strcmp], [ecd_size] counts it, and it has at most [m] strings. *)
Definition ecd_ok (m : nat) (ecd : EnumStringListCallbackData) : Prop :=
  StronglySorted slt (ecd_list ecd) /\
  ecd_size ecd = Z.of_nat (List.length (ecd_list ecd)) /\
  List.length (ecd_list ecd) <= m.

(** The addresses of the open read handles that came from [dh]. *)
Definition referencing (dh : DirHandle) (d : Drive) : list nat :=
  map (@fh_addr T)
      (filter (fun i => Nat.eqb (dirHandle i) (dh_addr dh)) (openReadList d)).

(** An open list without its first handle at address [a]. *)
Fixpoint remove_addr (a : nat) (l : list (FileHandle T)) : list (FileHandle T) :=
  match l with
  | [] => []
  | i :: rest => if Nat.eqb (fh_addr i) a then rest else i :: remove_addr a rest
  end.

(** The drive after [PHYSFS_close] has been called on each of [handles]. *)
Definition close_handles (handles : list nat) (d : Drive) : Drive :=
  fold_left (fun d h => snd (PHYSFS_close h d)) handles d.

(** [stat] on [name] through [h] succeeds and reports a symbolic link, or
    succeeds and reports something else. *)
Definition stats_as_symlink (h : DirHandle) (name : string) : Prop :=
  forall e, fst (fst (stat (funcs h) (opaque h) name e)) = true /\
            filetype (snd (fst (stat (funcs h) (opaque h) name e)))
            = PHYSFS_FILETYPE_SYMLINK.

Definition stats_as_other (h : DirHandle) (name : string) : Prop :=
  forall e, fst (fst (stat (funcs h) (opaque h) name e)) = true /\
            filetype (snd (fst (stat (funcs h) (opaque h) name e)))
            <> PHYSFS_FILETYPE_SYMLINK.

End Drives.

Arguments mkFilter {T D} _ _ _ _ _.
Arguments callback {T D} _.
Arguments callbackData {T D} _.
Arguments dirhandle {T D} _.
Arguments arcfname {T D} _.
Arguments filter_errcode {T D} _.

(* ===================================================================== *)
(** * Streams and a platform for the examples *)
(* ===================================================================== *)

(** An in-memory stream that follows the [Io] contract: the bytes of the
    file and the cursor.  One [read] delivers at most [maxlen] bytes. *)
Definition MemStream : Type := (list byte * Z)%type.

Definition mem_read (s : MemStream) (len : Z) : Z * list byte * MemStream :=
  let '(bytes, cur) := s in
  let got := firstn (Z.to_nat (Z.min len maxlen)) (skipn (Z.to_nat cur) bytes) in
  (Z.of_nat (List.length got), got, (bytes, cur + Z.of_nat (List.length got))%Z).

Definition mem_write (s : MemStream) (buf : list byte) (len : Z)
  : Z * MemStream :=
  let '(bytes, cur) := s in
  let data := firstn (Z.to_nat len) buf in
  (Z.of_nat (List.length data),
   ((firstn (Z.to_nat cur) bytes ++ data
       ++ skipn (Z.to_nat cur + List.length data) bytes)%list,
    cur + Z.of_nat (List.length data))%Z).

Definition mem_seek (s : MemStream) (pos : Z) : bool * MemStream :=
  let '(bytes, cur) := s in
  if (pos <=? Z.of_nat (List.length bytes))%Z then (true, (bytes, pos))
  else (false, s).

Definition memIo : PHYSFS_Io MemStream := {|
  io_read := mem_read;
  io_write := mem_write;
  io_seek := mem_seek;
  io_tell := fun s => snd s;
  io_length := fun s => Z.of_nat (List.length (fst s));
  io_flush := None
|}.

(** The same stream behind a device that takes one byte per [write]. *)
Definition shortIo : PHYSFS_Io MemStream := {|
  io_read := mem_read;
  io_write := fun s buf len => mem_write s buf (Z.min len 1);
  io_seek := mem_seek;
  io_tell := fun s => snd s;
  io_length := fun s => Z.of_nat (List.length (fst s));
  io_flush := None
|}.

(** A small tree: the directory /data with the file pack.zip, the symbolic
    link link and the directory sub, which holds the file f and the symbolic
    link ln; and the directory /tree with the files foo, bar and baz. *)
Definition demo_stat (path : string) (follow : bool)
  : option PHYSFS_ErrorCode * PHYSFS_Stat :=
  let dir := mkStat 0 0 PHYSFS_FILETYPE_DIRECTORY false in
  let reg := mkStat 3 0 PHYSFS_FILETYPE_REGULAR false in
  let lnk := mkStat 0 0 PHYSFS_FILETYPE_SYMLINK false in
  if String.eqb path "/data" || String.eqb path "/data/"
     || String.eqb path "/data/sub" || String.eqb path "/tree"
     || String.eqb path "/tree/" then (None, dir)
  else if String.eqb path "/data/pack.zip" || String.eqb path "/data/sub/f"
          || String.eqb path "/tree/foo" || String.eqb path "/tree/bar"
          || String.eqb path "/tree/baz" then
    (None, reg)
  else if String.eqb path "/data/link" || String.eqb path "/data/sub/ln" then
    (None, lnk)
  else (Some PHYSFS_ERR_NOT_FOUND, reg).

Definition demo_open (path : string) : result MemStream :=
  if String.eqb path "/data/pack.zip" || String.eqb path "/data/sub/f"
  then Ok ([Byte.x50; Byte.x4b; Byte.x03], 0%Z)
  else Err PHYSFS_ERR_NOT_FOUND.

Definition demo_enumerate (path : string) : result (list string) :=
  if String.eqb path "/data/" then Ok ["pack.zip"; "sub"; "link"]
  else if String.eqb path "/data/sub" then Ok ["f"]
  else if String.eqb path "/tree/" then Ok ["foo"; "bar"; "baz"]
  else Err PHYSFS_ERR_NOT_FOUND.

Definition demoPlatform : Platform MemStream := {|
  __PHYSFS_platformStat := demo_stat;
  __PHYSFS_platformOpenRead := demo_open;
  __PHYSFS_platformOpenWrite := fun _ => Err PHYSFS_ERR_PERMISSION;
  __PHYSFS_platformOpenAppend := fun _ => Err PHYSFS_ERR_PERMISSION;
  __PHYSFS_platformEnumerate := demo_enumerate
|}.

Definition demo_env : @Env MemStream := mkEnv PHYSFS_ERR_OK [] 1.

(** The directory /data mounted at the root of the tree. *)
Definition demo_dir : @DirHandle MemStream :=
  mkDirHandle 7 "/data/" (Some "/data") None (__PHYSFS_Archiver_DIR demoPlatform).

(** A drive right after [PHYSFS_init]. *)
Definition emptyDrive {T : Type} : @Drive T :=
  mkDrive [] None [] [] false (mkEnv PHYSFS_ERR_OK [] 1).

(** The directory /tree mounted at the root of the tree of a fresh drive. *)
Definition tree_drive : @Drive MemStream :=
  mkDrive [mkDirHandle 7 "/tree/" (Some "/tree") None
                       (__PHYSFS_Archiver_DIR demoPlatform)]
          None [] [] false demo_env.

(** The drive with /data mounted and one file of it open for reading. *)
Definition busy_drive : @Drive MemStream :=
  mkDrive [demo_dir] None []
          [mkFileHandle 9 ([Byte.x50; Byte.x4b; Byte.x03], 0%Z) true 7 None 0 0 0]
          false demo_env.

Definition ten_bytes : list byte :=
  [Byte.x00; Byte.x01; Byte.x02; Byte.x03; Byte.x04;
   Byte.x05; Byte.x06; Byte.x07; Byte.x08; Byte.x09].

(** A handle opened for reading on a file of ten bytes, with a buffer of
    four bytes that has not been filled yet. *)
Definition fresh_reader : FileHandle MemStream :=
  mkFileHandle 9 (ten_bytes, 0%Z) true 7
               (Some [Byte.x00; Byte.x00; Byte.x00; Byte.x00]) 4 0 0.

(** The same handle after two bytes have been read through the buffer. *)
Definition buffered_reader : FileHandle MemStream :=
  mkFileHandle 9 (ten_bytes, 4%Z) true 7
               (Some [Byte.x00; Byte.x01; Byte.x02; Byte.x03]) 4 4 2.

(** A handle opened for writing on an empty file, with three bytes pending
    in a buffer of eight. *)
Definition pending_writer : FileHandle MemStream :=
  mkFileHandle 9 ([], 0%Z) false 7
               (Some [Byte.x61; Byte.x62; Byte.x63; Byte.x00;
                      Byte.x00; Byte.x00; Byte.x00; Byte.x00]) 8 3 0.

(** A callback that counts its calls. *)
Definition count_callback : @EnumerateCallback MemStream nat :=
  fun n origdir fname e => (PHYSFS_ENUM_OK, S n, e).

(** A handle opened for writing on an empty file, with an empty buffer of
    seven bytes. *)
Definition fresh_writer : FileHandle MemStream :=
  mkFileHandle 9 ([], 0%Z) false 7
               (Some (repeat Byte.x00 7)) 7 0 0.

Definition five_bytes : list byte :=
  [Byte.x61; Byte.x62; Byte.x63; Byte.x64; Byte.x65].

(** [n] calls of [PHYSFS_writeBytes] with the same five bytes. *)
Fixpoint write_times (n : nat) (fh : FileHandle MemStream)
  : FileHandle MemStream :=
  match n with
  | O => fh
  | S n' =>
      match PHYSFS_writeBytes memIo fh five_bytes 5 with
      | Ok (_, fh') => write_times n' fh'
      | Err _ => fh
      end
  end.

(* ===================================================================== *)
(** * The rest of the embedding: helpers of physfs.c and the Linux platform
      file (physfs_platform_linux.c) *)
(* ===================================================================== *)

(** ** More of the C string library *)

(** [strrchr(s, c)], as an index into [s]. *)
Fixpoint strrchr (c : ascii) (s : string) : option nat :=
  match s with
  | EmptyString => None
  | String d s' =>
      match strrchr c s' with
      | Some i => Some (S i)
      | None => if Ascii.eqb d c then Some O else None
      end
  end.

(** The string that [s] denotes once a NUL is stored at index [n]: its first
    [n] characters (all of it when the index is at or past its end). *)
Fixpoint str_take (n : nat) (s : string) : string :=
  match n, s with
  | O, _ => EmptyString
  | S n', String c s' => String c (str_take n' s')
  | S _, EmptyString => EmptyString
  end.

Lemma strchr_from_range (start : nat) (c : ascii) (s : string) (i : nat) :
  strchr_from start c s = Some i -> start <= i < String.length s.
Proof.
  revert start i. induction s as [|d s IH]; intros start i H; simpl in H.
  - discriminate.
  - destruct start as [|start].
    + destruct (Ascii.eqb d c).
      * inversion H; subst. simpl. lia.
      * destruct (strchr_from 0 c s) as [j|] eqn:E; simpl in H; [|discriminate].
        inversion H; subst. apply IH in E. simpl. lia.
    + destruct (strchr_from start c s) as [j|] eqn:E; simpl in H; [|discriminate].
      inversion H; subst. apply IH in E. simpl. lia.
Qed.

(** ** find_filename_extension (physfs.c, 616-636) *)

(** The loop that moves [retval] to each later ['.']: [p] is the offset of
    the dot found last. *)
Equations? last_dot (fname : string) (p : nat) : nat
  by wf (String.length fname - p) lt :=
last_dot fname p with inspect (strchr_from (S p) "." fname) := {
  | exist _ (Some q) Heq := last_dot fname q
  | exist _ None _ := p }.
Proof. apply strchr_from_range in Heq. lia. Qed.

Definition find_filename_extension (fname : option string) : option string :=
  match fname with
  | None => None
  | Some fname =>
      match strchr_from 0 "." fname with
      | None => None
      | Some p => Some (str_from (S (last_dot fname p)) fname)
      end
  end.

(** The value of a [char] in an expression: [char] is signed on the x86
    targets of this platform file, so the bytes from 0x80 on are negative. *)
Definition char_value (c : ascii) : Z :=
  let n := Z.of_N (N_of_ascii c) in
  if (n <? 128)%Z then n else (n - 256)%Z.

(** ** __PHYSFS_hashString (physfs.c, 1091-1097).  [len] is the number of
    characters of [str] that are hashed; [hash] is a [PHYSFS_uint32], to
    which the character is converted for the exclusive or. *)
Fixpoint hashString_loop (str : string) (len : nat) (hash : Z) : Z :=
  match len, str with
  | S len', String c str' =>
      hashString_loop str' len'
        (Z.lxor (u32 (u32 (Z.shiftl hash 5) + hash)) (u32 (char_value c)))
  | _, _ => hash
  end.

Definition __PHYSFS_hashString (str : string) (len : nat) : Z :=
  hashString_loop str len 5381.

(* ===================================================================== *)
(** * physfs_platform_linux.c *)
(* ===================================================================== *)

(** The calls of the C library that the file makes.  [access_F_OK] and
    [access_X_OK] tell whether [access] returns 0 for the mode;
    [readlink_target] gives the contents of a symbolic link, or [None] where
    [readlink] returns -1; [getenv] gives NULL as [None]. *)
Record Posix : Type := {
  access_F_OK     : string -> bool;
  access_X_OK     : string -> bool;
  readlink_target : string -> option string;
  getpid          : Z;
  getenv          : string -> option string
}.

(** [readlink(path, buf, len)]: the call stores at most [len] bytes of the
    contents, without a NUL, and returns how many it stored. *)
Definition readlink (os : Posix) (path : string) (len : positive)
  : option (Z * string) :=
  match readlink_target os path with
  | None => None
  | Some t =>
      let got := str_take (Pos.to_nat len) t in
      Some (Z.of_nat (String.length got), got)
  end.

Lemma str_take_length (n : nat) (s : string) :
  String.length (str_take n s) = Nat.min n (String.length s).
Proof.
  revert s. induction n as [|n IH]; intros [|c s]; simpl; auto.
Qed.

(** ** readSymLink (physfs_platform_linux.c, 108-137).  [len] starts at 64
    and doubles; the doubling is written without the overflow of [ssize_t],
    which only a link of 2^62 bytes could reach. *)
Definition link_measure (os : Posix) (path : string) (len : positive) : nat :=
  match readlink_target os path with
  | Some t => S (String.length t) - Pos.to_nat len
  | None => 0
  end.

Equations? readSymLink_loop (os : Posix) (path : string) (len : positive)
  : option string by wf (link_measure os path len) lt :=
readSymLink_loop os path len with inspect (readlink os path len) := {
  | exist _ None _ := None
  | exist _ (Some (rc, got)) Heq with Z_lt_dec rc (Z.pos len) := {
    | left _ := Some got
    | right Hge := readSymLink_loop os path (2 * len) } }.
Proof.
  unfold readlink in Heq. unfold link_measure.
  destruct (readlink_target os path) as [t|]; [|discriminate].
  inversion Heq; subst. rewrite str_take_length in Hge. lia.
Qed.

Definition readSymLink (os : Posix) (path : string) : option string :=
  readSymLink_loop os path 64.

(** ** findBinaryInPath (physfs_platform_linux.c, 51-105) *)

(** One turn of the loop, for the element [start] of the search path: the
    name that is built in [exe], the test with [access] and the NUL that
    chops the file name off. *)
Definition try_path_element (os : Posix) (bin start : string) : option string :=
  let size := String.length start + String.length bin + 2 in
  let exe := start in
  let exe :=
    if match exe with
       | EmptyString => true
       | String _ _ => false
       end || negb (ends_with_slash exe)
    then exe ++ "/" else exe in
  let exe := exe ++ bin in
  if access_X_OK os exe
  then Some (str_take ((size - String.length bin) - 1) exe)
  else None.

(** The loop over the elements of [envr], which [':'] separates.  [start]
    holds the characters of the current element read so far. *)
Fixpoint findBinaryInPath_from (os : Posix) (bin start rest : string)
  : option string :=
  match rest with
  | EmptyString => try_path_element os bin start
  | String c rest' =>
      if Ascii.eqb c ":" then
        match try_path_element os bin start with
        | Some exe => Some exe
        | None => findBinaryInPath_from os bin "" rest'
        end
      else findBinaryInPath_from os bin (start ++ String c "") rest'
  end.

Definition findBinaryInPath (os : Posix) (bin envr : string) : option string :=
  findBinaryInPath_from os bin "" envr.

(** The elements of a search path: the pieces between consecutive [':'].
    [cur] holds the characters of the current element read so far. *)
Fixpoint path_elements_aux (cur s : string) : list string :=
  match s with
  | EmptyString => [cur]
  | String c s' =>
      if Ascii.eqb c ":" then cur :: path_elements_aux "" s'
      else path_elements_aux (cur ++ String c "") s'
  end.

Definition path_elements (envr : string) : list string :=
  path_elements_aux "" envr.

(** ** __PHYSFS_platformCalcBaseDir (physfs_platform_linux.c, 140-207) *)

(** [snprintf(path, sizeof (path), "/proc/%llu/exe", pid)]. *)
Definition proc_pid_exe (pid : Z) : string :=
  "/proc/" ++ DecimalString.NilEmpty.string_of_uint (N.to_uint (Z.to_N pid)) ++ "/exe".

(** The name with everything after its last ['/'] chopped off, or NULL when
    it has none. *)
Definition chop_file_name (retval : string) : option string :=
  match strrchr "/" retval with
  | Some i => Some (str_take (S i) retval)
  | None => None
  end.

Definition __PHYSFS_platformCalcBaseDir (os : Posix) (argv0 : option string)
  : option string :=
  let retval :=
    if access_F_OK os "/proc" then
      match readSymLink os "/proc/self/exe" with
      | Some r => Some r
      | None =>
          match readSymLink os "/proc/curproc/file" with
          | Some r => Some r
          | None =>
              match readSymLink os "/proc/curproc/exe" with
              | Some r => Some r
              | None =>
                  let path := proc_pid_exe (u64 (getpid os)) in
                  let rc := String.length path in
                  if (0 <? rc)%nat && (rc <? 64)%nat then readSymLink os path
                  else None
              end
          end
      end
    else None in
  let retval :=
    match retval with
    | Some r => chop_file_name r
    | None => None
    end in
  match retval, argv0 with
  | None, Some argv0 =>
      if contains_char "/" argv0 then None
      else
        match getenv os "PATH" with
        | Some envr => findBinaryInPath os argv0 envr
        | None => None
        end
  | _, _ => retval
  end.

(** ** __PHYSFS_platformCalcPrefDir (physfs_platform_linux.c, 210-237).
    [userDir] is what [__PHYSFS_getUserDir] returns. *)
Definition __PHYSFS_platformCalcPrefDir (os : Posix) (userDir : option string)
  (org app : string) : option string :=
  match getenv os "XDG_DATA_HOME" with
  | Some envr => Some (envr ++ "/" ++ app ++ "/")
  | None =>
      match userDir with
      | None => None
      | Some envr => Some (envr ++ ".local/share/" ++ app ++ "/")
      end
  end.

(* ===================================================================== *)
(** * physfs.c: the other entry points of file handles *)
(* ===================================================================== *)

Section MoreFileHandles.

Context {T : Type}.
Variable IO : PHYSFS_Io T.

(** ** PHYSFS_eof (physfs.c, 2359-2379) *)
Definition PHYSFS_eof (fh : FileHandle T) : bool :=
  if negb (forReading fh) then false
  else if (bufpos fh =? buffill fh)%Z then
    let pos := call_tell IO (io fh) in
    let len := s64 (io_length IO (io fh)) in
    if (pos <? 0)%Z || (len <? 0)%Z then false
    else (pos >=? len)%Z
  else false.

(** ** PHYSFS_fileLength (physfs.c, 2419-2423) *)
Definition PHYSFS_fileLength (fh : FileHandle T) : Z :=
  s64 (io_length IO (io fh)).

(** ** __PHYSFS_readAll (physfs.c, 2550-2554).  The comparison is made on
    [PHYSFS_uint64], to which the return value of [read] is converted. *)
Definition __PHYSFS_readAll (s : T) (_len : Z) : bool * list byte * T :=
  let len := u64 _len in
  let '(rc, data, s') := call_read IO s len in
  ((u64 rc =? len)%Z, data, s').

(** ** Vocabulary for the properties of buffered handles *)

(** A stream that reads like a file: [rest s] is what lies between its
    position and its end; a [read] of [len] bytes delivers the first [len]
    of them (all of them when fewer are left), reports their number and
    moves past them. *)
Definition reads_like_file (rest : T -> list byte) : Prop :=
  forall s len rc data s',
    (0 < len < 2 ^ 63)%Z ->
    io_read IO s len = (rc, data, s') ->
    data = firstn (Z.to_nat len) (rest s)
    /\ rc = Z.of_nat (List.length data)
    /\ rest s' = skipn (Z.to_nat len) (rest s).

(** What a read handle has still to deliver: the unread part of its buffer,
    then the rest of the stream. *)
Definition unread (rest : T -> list byte) (fh : FileHandle T) : list byte :=
  (buf_slice fh (bufpos fh) (buffill fh - bufpos fh) ++ rest (io fh))%list.

(** A stream that writes like a file: [written s] is what has been sent to
    it; a [write] that is handed [len] bytes takes them all and reports
    [len]. *)
Definition writes_like_file (written : T -> list byte) : Prop :=
  forall s buf len rc s',
    (0 < len < 2 ^ 63)%Z -> Z.of_nat (List.length buf) = len ->
    io_write IO s buf len = (rc, s') ->
    rc = len /\ written s' = (written s ++ buf)%list.

(** What has gone into a write handle: what its stream has taken, then the
    bytes that wait in its buffer. *)
Definition taken (written : T -> list byte) (fh : FileHandle T) : list byte :=
  (written (io fh) ++ buf_slice fh 0 (buffill fh))%list.

(** The buffer of a handle is as [PHYSFS_setBuffer] leaves it and as the
    reads and writes keep it: [bufsize] bytes, not empty, filled up to at
    most its size; no buffer, nothing buffered. *)
Definition buffer_ok (fh : FileHandle T) : Prop :=
  match buffer fh with
  | Some b =>
      (Z.of_nat (List.length b) = bufsize fh /\ 0 < bufsize fh
       /\ buffill fh <= bufsize fh)%Z
  | None => buffill fh = 0%Z
  end.

(** The state of a write handle between two calls: its counters are in
    order, its buffer is as above and [bufpos] is 0 (no write moves it). *)
Definition writer_ok (fh : FileHandle T) : Prop :=
  forReading fh = false /\ handle_wf fh /\ buffer_ok fh /\ bufpos fh = 0%Z.

(** A stream keeps to the contract of [seek] when a successful call leaves
    it at the position asked for. *)
Definition seek_contract : Prop :=
  forall s pos s',
    (0 <= pos < 2 ^ 63)%Z ->
    io_seek IO s pos = (true, s') -> io_tell IO s' = pos.

(** [PHYSFS_writeBytes] for each of [chunks] in turn; [None] as soon as a
    call does not report the full length of its chunk. *)
Fixpoint write_chunks (chunks : list (list byte)) (fh : FileHandle T)
  : option (FileHandle T) :=
  match chunks with
  | [] => Some fh
  | c :: rest =>
      match PHYSFS_writeBytes IO fh c (Z.of_nat (List.length c)) with
      | Ok (rc, fh') =>
          if (rc =? Z.of_nat (List.length c))%Z then write_chunks rest fh'
          else None
      | Err _ => None
      end
  end.

End MoreFileHandles.

(* ===================================================================== *)
(** * physfs.c: the other entry points of a drive *)
(* ===================================================================== *)

Section MoreDrives.

Context {T : Type}.
Variable IO : PHYSFS_Io T.
Variable P : Platform T.

(** ** PHYSFS_getErrorByCode, PHYSFS_getLastError (physfs.c, 511-586).
    Every value of the enumeration has its case in the [switch]. *)
Definition PHYSFS_getErrorByCode (code : PHYSFS_ErrorCode) : option string :=
  Some match code with
       | PHYSFS_ERR_OK => "no error"
       | PHYSFS_ERR_OTHER_ERROR => "unknown error"
       | PHYSFS_ERR_OUT_OF_MEMORY => "out of memory"
       | PHYSFS_ERR_NOT_INITIALIZED => "not initialized[dv]"
       | PHYSFS_ERR_IS_INITIALIZED => "already initialized[dv]"
       | PHYSFS_ERR_ARGV0_IS_NULL => "argv[0] is NULL"
       | PHYSFS_ERR_UNSUPPORTED => "unsupported"
       | PHYSFS_ERR_PAST_EOF => "past end of file"
       | PHYSFS_ERR_FILES_STILL_OPEN => "files still open"
       | PHYSFS_ERR_INVALID_ARGUMENT => "invalid argument"
       | PHYSFS_ERR_NOT_MOUNTED => "not mounted"
       | PHYSFS_ERR_NOT_FOUND => "not found"
       | PHYSFS_ERR_SYMLINK_FORBIDDEN => "symlinks are forbidden"
       | PHYSFS_ERR_NO_WRITE_DIR => "write directory is not set"
       | PHYSFS_ERR_OPEN_FOR_READING => "file open for reading"
       | PHYSFS_ERR_OPEN_FOR_WRITING => "file open for writing"
       | PHYSFS_ERR_NOT_A_FILE => "not a file"
       | PHYSFS_ERR_READ_ONLY => "read-only filesystem"
       | PHYSFS_ERR_CORRUPT => "corrupted"
       | PHYSFS_ERR_SYMLINK_LOOP => "infinite symbolic link loop"
       | PHYSFS_ERR_IO => "i/o error"
       | PHYSFS_ERR_PERMISSION => "permission denied"
       | PHYSFS_ERR_NO_SPACE => "no space available for writing"
       | PHYSFS_ERR_BAD_FILENAME => "filename is illegal or insecure"
       | PHYSFS_ERR_BUSY => "tried to modify a file the OS needs"
       | PHYSFS_ERR_DIR_NOT_EMPTY => "directory isn't empty"
       | PHYSFS_ERR_OS_ERROR => "OS reported an error"
       | PHYSFS_ERR_DUPLICATE => "duplicate resource"
       | PHYSFS_ERR_BAD_PASSWORD => "bad password"
       | PHYSFS_ERR_APP_CALLBACK => "app callback reported error"
       end.

Definition PHYSFS_getLastError (e : @Env T) : option string * @Env T :=
  let '(err, e) := PHYSFS_getLastErrorCode e in
  if errcode_eqb err PHYSFS_ERR_OK then (None, e)
  else (PHYSFS_getErrorByCode err, e).

(** ** PHYSFS_getWriteDir, PHYSFS_setWriteDir (physfs.c, 1182-1217) *)
Definition PHYSFS_getWriteDir (d : @Drive T) : option string :=
  match writeDir d with
  | Some h => dirName h
  | None => None
  end.

Definition set_writeDir (d : @Drive T) (w : option (@DirHandle T)) : @Drive T :=
  mkDrive (searchPath d) w (openWriteList d) (openReadList d)
          (allowSymLinks d) (env d).

Definition PHYSFS_setWriteDir (newDir : option string) (d : @Drive T)
  : bool * @Drive T :=
  let freed :=
    match writeDir d with
    | Some w =>
        match freeDirHandle (Some w) (openWriteList d) (env d) with
        | (false, e) => (false, set_env d e)
        | (true, e) => (true, set_writeDir (set_env d e) None)
        end
    | None => (true, d)
    end in
  let '(ok, d) := freed in
  if negb ok then (false, d)
  else
    match newDir with
    | Some newDir =>
        let '(dh, e) := createDirHandle IO P None newDir None true (env d) in
        (match dh with
         | Some _ => true
         | None => false
         end, set_writeDir (set_env d e) dh)
    | None => (true, d)
    end.

(** ** PHYSFS_mountIo (physfs.c, 1263-1270).  [version] is the field
    [io->version] of the structure that is passed. *)
Definition PHYSFS_mountIo (io : option T) (version : Z)
  (fname mountPoint : option string) (appendToPath : bool) (d : @Drive T)
  : bool * @Drive T :=
  match io, fname with
  | None, _ => (false, bail PHYSFS_ERR_INVALID_ARGUMENT d)
  | Some _, None => (false, bail PHYSFS_ERR_INVALID_ARGUMENT d)
  | Some _, Some _ =>
      if negb (version =? 0)%Z then (false, bail PHYSFS_ERR_UNSUPPORTED d)
      else doMount IO P io fname mountPoint appendToPath d
  end.

(** ** PHYSFS_addToSearchPath, PHYSFS_removeFromSearchPath
    (physfs.c, 1303-1312) *)
Definition PHYSFS_addToSearchPath (newDir : option string)
  (appendToPath : bool) (d : @Drive T) : bool * @Drive T :=
  PHYSFS_mount IO P newDir None appendToPath d.

Definition PHYSFS_removeFromSearchPath (oldDir : option string) (d : @Drive T)
  : bool * @Drive T :=
  PHYSFS_unmount oldDir d.

(** ** PHYSFS_getMountPoint (physfs.c, 1352-1368).  A handle without a
    name does not compare equal, as in [unmount_loop]. *)
Fixpoint getMountPoint_loop (dir : string) (sp : list (@DirHandle T))
  : option string :=
  match sp with
  | [] => None
  | i :: rest =>
      if match dirName i with
         | Some n => (strcmp n dir =? 0)%Z
         | None => false
         end
      then Some match mountPoint i with
                | Some mp => mp
                | None => "/"
                end
      else getMountPoint_loop dir rest
  end.

Definition PHYSFS_getMountPoint (dir : string) (d : @Drive T)
  : option string * @Drive T :=
  match getMountPoint_loop dir (searchPath d) with
  | Some retval => (Some retval, d)
  | None => (None, bail PHYSFS_ERR_NOT_MOUNTED d)
  end.

(** ** PHYSFS_getSearchPathCallback, enumStringListCallback,
    doEnumStringList, PHYSFS_getSearchPath (physfs.c, 343-387, 1346-1381) *)

(** [PHYSFS_StringCallback], over the data [D] behind its [void *]. *)
Definition StringCallback (D : Type) : Type := D -> string -> D.

(** Every handle of the search path has the name that [createDirHandle]
    gave it; the loop passes each to the callback. *)
Definition PHYSFS_getSearchPathCallback {D : Type}
  (callback : StringCallback D) (data : D) (d : @Drive T) : D :=
  fold_left (fun data i =>
               match dirName i with
               | Some n => callback data n
               | None => data
               end) (searchPath d) data.

Definition enumStringListCallback : StringCallback EnumStringListCallbackData :=
  fun pecd str =>
    if negb (errcode_eqb (ecd_errcode pecd) PHYSFS_ERR_OK) then pecd
    else
      mkEcd (insert_at (ecd_size pecd) (ecd_size pecd) str (ecd_list pecd))
            (u32 (ecd_size pecd + 1)) (ecd_errcode pecd).

Definition doEnumStringList
  (func : StringCallback EnumStringListCallbackData
          -> EnumStringListCallbackData -> EnumStringListCallbackData)
  (e : @Env T) : option (list (option string)) * @Env T :=
  let ecd := func enumStringListCallback (mkEcd [] 0 PHYSFS_ERR_OK) in
  if negb (errcode_eqb (ecd_errcode ecd) PHYSFS_ERR_OK) then
    (None, PHYSFS_setErrorCode (ecd_errcode ecd) e)
  else
    (Some (map Some (firstn (Z.to_nat (ecd_size ecd)) (ecd_list ecd))
             ++ [None])%list, e).

Definition PHYSFS_getSearchPath (d : @Drive T)
  : option (list (option string)) * @Drive T :=
  let '(r, e) :=
    doEnumStringList (fun cb data => PHYSFS_getSearchPathCallback cb data d)
                     (env d) in
  (r, set_env d e).

(** ** PHYSFS_permitSymbolicLinks, PHYSFS_symbolicLinksPermitted
    (physfs.c, 1475-1484) *)
Definition PHYSFS_permitSymbolicLinks (allow : bool) (d : @Drive T) : @Drive T :=
  mkDrive (searchPath d) (writeDir d) (openWriteList d) (openReadList d)
          allow (env d).

Definition PHYSFS_symbolicLinksPermitted (d : @Drive T) : bool :=
  allowSymLinks d.

(** ** getRealDirHandle, PHYSFS_getRealDir, PHYSFS_exists
    (physfs.c, 1682-1725, 2012-2015) *)
Fixpoint getRealDirHandle_loop (allow : bool) (fname : string)
  (sp : list (@DirHandle T)) (e : @Env T) : option (@DirHandle T) * @Env T :=
  match sp with
  | [] => (None, e)
  | i :: rest =>
      if partOfMountPoint i fname then (Some i, e)
      else
        let '((ok, arcfname), e) := verifyPath allow i fname false e in
        if ok then
          let '((found, _), e) := call_stat i arcfname e in
          if found then (Some i, e)
          else getRealDirHandle_loop allow fname rest e
        else getRealDirHandle_loop allow fname rest e
  end.

Definition getRealDirHandle (_fname : option string) (d : @Drive T)
  : option (@DirHandle T) * @Drive T :=
  match _fname with
  | None => (None, bail PHYSFS_ERR_INVALID_ARGUMENT d)
  | Some _fname =>
      match sanitizePlatformIndependentPath _fname with
      | Err c => (None, bail c d)
      | Ok fname =>
          let '(retval, e) :=
            getRealDirHandle_loop (allowSymLinks d) fname (searchPath d) (env d) in
          (retval, set_env d e)
      end
  end.

Definition PHYSFS_getRealDir (fname : option string) (d : @Drive T)
  : option string * @Drive T :=
  match getRealDirHandle fname d with
  | (Some dh, d) => (dirName dh, d)
  | (None, d) => (None, d)
  end.

Definition PHYSFS_exists (fname : option string) (d : @Drive T)
  : bool * @Drive T :=
  match getRealDirHandle fname d with
  | (Some _, d) => (true, d)
  | (None, d) => (false, d)
  end.

(** ** PHYSFS_stat (physfs.c, 2491-2547).  [PHYSFS_Stat] carries the fields
    that the code reads; [createtime] and [accesstime] are set and passed on
    like [modtime].  [retval] is 0 whenever the loop goes to the next
    handle, so the loop ends with 0 when the search path is exhausted. *)
Fixpoint stat_loop (allow : bool) (fname : string) (sp : list (@DirHandle T))
  (st : PHYSFS_Stat) (e : @Env T) : bool * PHYSFS_Stat * @Env T :=
  match sp with
  | [] => (false, st, e)
  | i :: rest =>
      if partOfMountPoint i fname then
        (true, mkStat (filesize st) (modtime st) PHYSFS_FILETYPE_DIRECTORY true, e)
      else
        let '((ok, arcfname), e) := verifyPath allow i fname false e in
        if ok then
          let '((retval, st), e) := call_stat i arcfname e in
          if retval
             || negb (errcode_eqb (currentErrorCode e) PHYSFS_ERR_NOT_FOUND)
          then (retval, st, e)
          else stat_loop allow fname rest st e
        else stat_loop allow fname rest st e
  end.

(** The result is the return value and what [*stat] holds afterwards
    ([None] for a NULL pointer). *)
Definition PHYSFS_stat (_fname : option string) (stat_given : bool)
  (d : @Drive T) : bool * option PHYSFS_Stat * @Drive T :=
  match _fname, stat_given with
  | None, _ => (false, None, bail PHYSFS_ERR_INVALID_ARGUMENT d)
  | Some _, false => (false, None, bail PHYSFS_ERR_INVALID_ARGUMENT d)
  | Some _fname, true =>
      let st := mkStat (-1) (-1) PHYSFS_FILETYPE_OTHER true in
      match sanitizePlatformIndependentPath _fname with
      | Err c => (false, Some st, bail c d)
      | Ok EmptyString =>
          (true,
           Some (mkStat (-1) (-1) PHYSFS_FILETYPE_DIRECTORY
                        match writeDir d with
                        | Some _ => false
                        | None => true
                        end), d)
      | Ok fname =>
          let '(retval, st, e) :=
            stat_loop (allowSymLinks d) fname (searchPath d) st (env d) in
          (retval, Some st, set_env d e)
      end
  end.

(** ** PHYSFS_getLastModTime, PHYSFS_isDirectory, PHYSFS_isSymbolicLink
    (physfs.c, 2018-2039) *)
Definition PHYSFS_getLastModTime (fname : option string) (d : @Drive T)
  : Z * @Drive T :=
  match PHYSFS_stat fname true d with
  | (true, Some statbuf, d) => (modtime statbuf, d)
  | (_, _, d) => ((-1)%Z, d)
  end.

Definition PHYSFS_isDirectory (fname : option string) (d : @Drive T)
  : bool * @Drive T :=
  match PHYSFS_stat fname true d with
  | (true, Some statbuf, d) =>
      (filetype_eqb (filetype statbuf) PHYSFS_FILETYPE_DIRECTORY, d)
  | (_, _, d) => (false, d)
  end.

Definition PHYSFS_isSymbolicLink (fname : option string) (d : @Drive T)
  : bool * @Drive T :=
  match PHYSFS_stat fname true d with
  | (true, Some statbuf, d) =>
      (filetype_eqb (filetype statbuf) PHYSFS_FILETYPE_SYMLINK, d)
  | (_, _, d) => (false, d)
  end.

End MoreDrives.

(* ===================================================================== *)
(** * physfs.c: the write directory and the life cycle of a drive *)
(* ===================================================================== *)

Section WriteSide.

Context {T : Type}.
Variable IO : PHYSFS_Io T.
Variable P : Platform T.

(** The entries of the function table of an archiver that change an
    archive.  [PHYSFS_Archiver] above holds the entries for reading; the
    table of an archiver is the two records together. *)
Record PHYSFS_ArchiverWrite : Type := {
  openWrite  : opaque_t -> string -> @Env T -> option T * @Env T;
  openAppend : opaque_t -> string -> @Env T -> option T * @Env T;
  remove     : opaque_t -> string -> @Env T -> bool * @Env T;
  mkdir      : opaque_t -> string -> @Env T -> bool * @Env T
}.

(** [__PHYSFS_platformDelete] and [__PHYSFS_platformMkDir] of the platform
    layer: [None] for success, or the code that the call set. *)
Record PlatformWrite : Type := {
  __PHYSFS_platformDelete : string -> option PHYSFS_ErrorCode;
  __PHYSFS_platformMkDir  : string -> option PHYSFS_ErrorCode
}.

Variable PW : PlatformWrite.

(** ** DIR_openWrite, DIR_openAppend, DIR_remove, DIR_mkdir
    (physfs_archiver_dir.c, 117-152) *)
Definition DIR_openWrite (o : opaque_t) (filename : string) (e : @Env T)
  : option T * @Env T :=
  doOpen P o filename "w" e.

Definition DIR_openAppend (o : opaque_t) (filename : string) (e : @Env T)
  : option T * @Env T :=
  doOpen P o filename "a" e.

Definition DIR_remove (o : opaque_t) (name : string) (e : @Env T)
  : bool * @Env T :=
  match __PHYSFS_platformDelete PW (cvtToDependent (Some o) name) with
  | None => (true, e)
  | Some c => (false, PHYSFS_setErrorCode c e)
  end.

Definition DIR_mkdir (o : opaque_t) (name : string) (e : @Env T)
  : bool * @Env T :=
  match __PHYSFS_platformMkDir PW (cvtToDependent (Some o) name) with
  | None => (true, e)
  | Some c => (false, PHYSFS_setErrorCode c e)
  end.

Definition __PHYSFS_Archiver_DIR_write : PHYSFS_ArchiverWrite := {|
  openWrite := DIR_openWrite;
  openAppend := DIR_openAppend;
  remove := DIR_remove;
  mkdir := DIR_mkdir
|}.

(** In the functions below [w] stands for the writing entries of
    [h->funcs], where [h] is the write directory. *)
Variable w : PHYSFS_ArchiverWrite.

(** ** doOpenWrite, PHYSFS_openWrite, PHYSFS_openAppend
    (physfs.c, 2042-2107) *)
Definition doOpenWrite (_fname : option string) (appending : bool)
  (d : @Drive T) : option (FileHandle T) * @Drive T :=
  match _fname with
  | None => (None, bail PHYSFS_ERR_INVALID_ARGUMENT d)
  | Some _fname =>
      match sanitizePlatformIndependentPath _fname with
      | Err c => (None, bail c d)
      | Ok fname =>
          match writeDir d with
          | None => (None, bail PHYSFS_ERR_NO_WRITE_DIR d)
          | Some h =>
              let '((ok, fname), e) :=
                verifyPath (allowSymLinks d) h fname false (env d) in
              if negb ok then (None, set_env d e)
              else
                let '(io, e) :=
                  if appending then openAppend w (opaque h) fname e
                  else openWrite w (opaque h) fname e in
                match io with
                | None => (None, set_env d e)
                | Some s =>
                    let '(a, e) := alloc e in
                    let fh := mkFileHandle a s false (dh_addr h) None 0 0 0 in
                    (Some fh,
                     set_openWriteList (set_env d e) (fh :: openWriteList d))
                end
          end
      end
  end.

Definition PHYSFS_openWrite (filename : option string) (d : @Drive T)
  : option (FileHandle T) * @Drive T :=
  doOpenWrite filename false d.

Definition PHYSFS_openAppend (filename : option string) (d : @Drive T)
  : option (FileHandle T) * @Drive T :=
  doOpenWrite filename true d.

(** ** doMkdir, PHYSFS_mkdir (physfs.c, 1582-1645) *)

(** The loop over the path elements; [cuts] are the strings that [dname]
    denotes while the separators after them hold a NUL, as in
    [verify_segments]. *)
Fixpoint mkdir_segments (h : @DirHandle T) (exists_ : bool)
  (cuts : list string) (retval : bool) (e : @Env T) : bool * @Env T :=
  match cuts with
  | [] => (retval, e)
  | name :: rest =>
      let '(exists_, retval, e) :=
        if exists_ then
          let '((rc, statbuf), e) := call_stat h name e in
          (negb (negb rc
                 && errcode_eqb (currentErrorCode e) PHYSFS_ERR_NOT_FOUND),
           rc && filetype_eqb (filetype statbuf) PHYSFS_FILETYPE_DIRECTORY,
           e)
        else (exists_, retval, e) in
      let '(retval, e) :=
        if negb exists_ then mkdir w (opaque h) name e else (retval, e) in
      if negb retval then (false, e)
      else mkdir_segments h exists_ rest retval e
  end.

Definition doMkdir (_dname : string) (d : @Drive T) : bool * @Drive T :=
  match sanitizePlatformIndependentPath _dname with
  | Err c => (false, bail c d)
  | Ok dname =>
      match writeDir d with
      | None => (false, bail PHYSFS_ERR_NO_WRITE_DIR d)
      | Some h =>
          let '((ok, dname), e) :=
            verifyPath (allowSymLinks d) h dname true (env d) in
          if negb ok then (false, set_env d e)
          else
            let '(retval, e) :=
              mkdir_segments h true (path_cuts "" dname) false e in
            (retval, set_env d e)
      end
  end.

Definition PHYSFS_mkdir (_dname : option string) (d : @Drive T)
  : bool * @Drive T :=
  match _dname with
  | None => (false, bail PHYSFS_ERR_INVALID_ARGUMENT d)
  | Some _dname => doMkdir _dname d
  end.

(** ** doDelete, PHYSFS_delete (physfs.c, 1648-1679) *)
Definition doDelete (_fname : string) (d : @Drive T) : bool * @Drive T :=
  match sanitizePlatformIndependentPath _fname with
  | Err c => (false, bail c d)
  | Ok fname =>
      match writeDir d with
      | None => (false, bail PHYSFS_ERR_NO_WRITE_DIR d)
      | Some h =>
          let '((ok, fname), e) :=
            verifyPath (allowSymLinks d) h fname false (env d) in
          if negb ok then (false, set_env d e)
          else
            let '(retval, e) := remove w (opaque h) fname e in
            (retval, set_env d e)
      end
  end.

Definition PHYSFS_delete (_fname : option string) (d : @Drive T)
  : bool * @Drive T :=
  match _fname with
  | None => (false, bail PHYSFS_ERR_INVALID_ARGUMENT d)
  | Some _fname => doDelete _fname d
  end.

(** ** closeFileHandleList, freeSearchPath (physfs.c, 982-1024).  The
    result of [closeFileHandleList] is its return value and [*list]
    afterwards. *)
Fixpoint closeFileHandleList (l : list (FileHandle T)) (e : @Env T)
  : bool * list (FileHandle T) * @Env T :=
  match l with
  | [] => (true, [], e)
  | i :: next =>
      let '(ok, s') :=
        match io_flush IO with
        | Some fl => fl (io i)
        | None => (true, io i)
        end in
      if negb ok then (false, set_io i s' :: next, e)
      else closeFileHandleList next (log (EvIoDestroy s') e)
  end.

(** The stream of a handle after the call of [io->flush], and the
    assumption that no such call fails. *)
Definition flushed (i : FileHandle T) : T :=
  match io_flush IO with
  | Some fl => snd (fl (io i))
  | None => io i
  end.

Definition flush_succeeds : Prop :=
  match io_flush IO with
  | Some fl => forall s, fst (fl s) = true
  | None => True
  end.

Definition freeSearchPath (d : @Drive T) : @Drive T :=
  let '(_, l, e) := closeFileHandleList (openReadList d) (env d) in
  let e :=
    fold_left (fun e i => snd (freeDirHandle (Some i) l e)) (searchPath d) e in
  set_searchPath (set_openReadList (set_env d e) l) [].

(** ** The life cycle (physfs.c, 864-891, 921-1079) *)

(** The globals of a drive that [Drive] does not hold. *)
Record Globals : Type := mkGlobals {
  drive       : @Drive T;
  initialized : bool;
  baseDir     : option string;
  userDir     : option string;
  prefDir     : option string
}.

Variable os : Posix.

(** [__PHYSFS_platformCalcUserDir] of the platform layer: the directory, or
    the code that the call set. *)
Variable __PHYSFS_platformCalcUserDir : result string.

(** ** calculateBaseDir (physfs.c, 864-891) *)
Definition calculateBaseDir (argv0 : option string) (e : @Env T)
  : option string * @Env T :=
  match __PHYSFS_platformCalcBaseDir os argv0 with
  | Some retval => (Some retval, e)
  | None =>
      match argv0 with
      | None => (None, PHYSFS_setErrorCode PHYSFS_ERR_ARGV0_IS_NULL e)
      | Some argv0 =>
          match strrchr __PHYSFS_platformDirSeparator argv0 with
          | Some ptr => (Some (str_take (ptr + 1) argv0), e)
          | None => (None, PHYSFS_setErrorCode PHYSFS_ERR_INVALID_ARGUMENT e)
          end
      end
  end.

(** [freeErrorStates]: the calling thread is left without an error
    record. *)
Definition freeErrorStates (e : @Env T) : @Env T :=
  mkEnv PHYSFS_ERR_OK (trace e) (next_addr e).

(** ** doDeinit, PHYSFS_deinit, PHYSFS_isInit (physfs.c, 1027-1079).  The
    default allocator has no [Deinit]. *)
Definition doDeinit (g : Globals) : bool * Globals :=
  let d := drive g in
  let '(_, wl, e) := closeFileHandleList (openWriteList d) (env d) in
  let d := set_openWriteList (set_env d e) wl in
  let '(ok, d) := PHYSFS_setWriteDir IO P None d in
  if negb ok then
    (false,
     mkGlobals (bail PHYSFS_ERR_FILES_STILL_OPEN d) (initialized g)
               (baseDir g) (userDir g) (prefDir g))
  else
    let d := freeSearchPath d in
    let d := set_env d (freeErrorStates (env d)) in
    (true,
     mkGlobals (PHYSFS_permitSymbolicLinks false d) false None None None).

Definition PHYSFS_deinit (g : Globals) : bool * Globals :=
  if negb (initialized g) then
    (false,
     mkGlobals (bail PHYSFS_ERR_NOT_INITIALIZED (drive g)) (initialized g)
               (baseDir g) (userDir g) (prefDir g))
  else doDeinit g.

Definition PHYSFS_isInit (g : Globals) : bool := initialized g.

(** ** The allocator of a drive (physfs.c, 65-67, 2589-2640).  Of a
    [PHYSFS_Allocator] the entries [Init] and [Deinit] are modelled, either
    of which may be NULL.  They are code of the application: they return
    what they return and do to the state of the calling thread what they
    do.  [Malloc], [Realloc] and [Free] are taken to succeed, as
    everywhere. *)
Record PHYSFS_Allocator : Type := {
  Init   : option (@Env T -> bool * @Env T);
  Deinit : option (@Env T -> @Env T)
}.

(** The statics that [PHYSFS_init] and [PHYSFS_setAllocator] use besides
    those of [Globals]. *)
Record AllocatorState : Type := mkAllocatorState {
  multi_initialized : bool;
  externalAllocator : bool;
  allocator         : PHYSFS_Allocator
}.


Definition PHYSFS_setAllocator (a : option PHYSFS_Allocator)
  (st : AllocatorState) (g : Globals) : bool * AllocatorState * Globals :=
  if initialized g then
    (false, st,
     mkGlobals (bail PHYSFS_ERR_IS_INITIALIZED (drive g)) (initialized g)
               (baseDir g) (userDir g) (prefDir g))
  else
    match a with
    | Some a => (true, mkAllocatorState (multi_initialized st) true a, g)
    | None =>
        (true, mkAllocatorState (multi_initialized st) false (allocator st), g)
    end.



(** ** PHYSFS_getBaseDir, PHYSFS_getUserDir (physfs.c, 1164-1179) *)
Definition PHYSFS_getBaseDir (g : Globals) : option string := baseDir g.
Definition PHYSFS_getUserDir (g : Globals) : option string := userDir g.



End WriteSide.

(* ===================================================================== *)
(** * physfs.c: the directory tree of the archivers (2643-2813) *)
(* ===================================================================== *)

Section DirTrees.

Context {T : Type}.

(** An entry of the tree.  The entries of a tree lie in its [store], and
    the index of an entry there stands for the pointer to it.  The chain of
    [sibling] pointers that starts at [children] is the list [children], the
    entry that [children] points to first. *)
Record __PHYSFS_DirTreeEntry : Type := mkDirTreeEntry {
  name     : string;
  isdir    : bool;
  children : list nat
}.

(** The tree: the root is the entry at index 0 of the store; bucket [k] of
    [hash] is the chain of [hashnext] pointers that starts at [dt->hash[k]]. *)
Record __PHYSFS_DirTree : Type := mkDirTree {
  store       : list __PHYSFS_DirTreeEntry;
  hash        : list (list nat);
  hashBuckets : Z;
  entrylen    : Z
}.

Definition root (dt : __PHYSFS_DirTree) : nat := 0.

Definition entry_at (dt : __PHYSFS_DirTree) (a : nat) : __PHYSFS_DirTreeEntry :=
  nth a (store dt) (mkDirTreeEntry "" false []).

(** The element at index [n] replaced; nothing where the list is shorter
    (the code writes to no such place). *)
Fixpoint set_nth {A : Type} (n : nat) (x : A) (l : list A) : list A :=
  match n, l with
  | O, _ :: t => x :: t
  | S n', h :: t => h :: set_nth n' x t
  | _, [] => []
  end.

(** ** __PHYSFS_DirTreeInit (physfs.c, 2643-2668); the allocations are
    taken to succeed. *)
Definition __PHYSFS_DirTreeInit (entrylen : Z) : bool * __PHYSFS_DirTree :=
  (true, mkDirTree [mkDirTreeEntry "/" true []] (repeat [] 64) 64 entrylen).

(** ** hashPathName (physfs.c, 2671-2674) *)
Definition hashPathName (dt : __PHYSFS_DirTree) (nm : string) : Z :=
  u32 (__PHYSFS_hashString nm (String.length nm) mod hashBuckets dt).

Definition bucket (dt : __PHYSFS_DirTree) (nm : string) : nat :=
  Z.to_nat (hashPathName dt nm).

Definition chain (dt : __PHYSFS_DirTree) (k : nat) : list nat :=
  nth k (hash dt) [].

(** ** __PHYSFS_DirTreeFind (physfs.c, 2732-2760) *)

(** The walk down a chain.  [prev] holds the entries passed; the result is
    the entry found and the chain with that entry moved to its front. *)
Fixpoint chain_find (dt : __PHYSFS_DirTree) (path : string)
  (prev rest : list nat) : option (nat * list nat) :=
  match rest with
  | [] => None
  | retval :: next =>
      if (strcmp (name (entry_at dt retval)) path =? 0)%Z
      then Some (retval, retval :: (prev ++ next)%list)
      else chain_find dt path (prev ++ [retval])%list next
  end.

Definition __PHYSFS_DirTreeFind (dt : __PHYSFS_DirTree) (path : string)
  (e : @Env T) : option nat * __PHYSFS_DirTree * @Env T :=
  match path with
  | EmptyString => (Some (root dt), dt, e)
  | String _ _ =>
      let hashval := bucket dt path in
      match chain_find dt path [] (chain dt hashval) with
      | Some (retval, moved) =>
          (Some retval,
           mkDirTree (store dt) (set_nth hashval moved (hash dt))
                     (hashBuckets dt) (entrylen dt),
           e)
      | None => (None, dt, PHYSFS_setErrorCode PHYSFS_ERR_NOT_FOUND e)
      end
  end.

(** ** __PHYSFS_DirTreeAdd, addAncestors (physfs.c, 2678-2728) *)

(** The end of [__PHYSFS_DirTreeAdd]: the new entry is allocated behind the
    others, put at the front of its chain and at the front of the children
    of [parent]. *)
Definition new_entry (dt : __PHYSFS_DirTree) (parent : nat) (nm : string)
  (isdir_ : bool) : nat * __PHYSFS_DirTree :=
  let retval := List.length (store dt) in
  let hashval := bucket dt nm in
  let p := entry_at dt parent in
  (retval,
   mkDirTree
     (set_nth parent (mkDirTreeEntry (name p) (isdir p) (retval :: children p))
              (store dt ++ [mkDirTreeEntry nm isdir_ []])%list)
     (set_nth hashval (retval :: chain dt hashval) (hash dt))
     (hashBuckets dt) (entrylen dt)).

Lemma strrchr_range (c : ascii) (s : string) (i : nat) :
  strrchr c s = Some i -> i < String.length s.
Proof.
  revert i. induction s as [|d s IH]; intros i H; simpl in H.
  - discriminate.
  - destruct (strrchr c s) as [j|].
    + inversion H; subst. specialize (IH j eq_refl). simpl. lia.
    + destruct (Ascii.eqb d c); inversion H; subst. simpl. lia.
Qed.

(** The two functions call each other; the call of [addAncestors] is
    written out in [__PHYSFS_DirTreeAdd], where [str_take sep nm] is [name]
    while the NUL is at [sep].  The recursion is on the length of the
    name. *)
Equations? __PHYSFS_DirTreeAdd (dt : __PHYSFS_DirTree) (nm : string)
  (isdir_ : bool) (e : @Env T)
  : option nat * __PHYSFS_DirTree * @Env T by wf (String.length nm) lt :=
__PHYSFS_DirTreeAdd dt nm isdir_ e with __PHYSFS_DirTreeFind dt nm e := {
  | (Some retval, dt1, e1) := (Some retval, dt1, e1)
  | (None, dt1, e1) with inspect (strrchr "/" nm) := {
    | exist _ None _ :=
        let '(retval, dt2) := new_entry dt1 (root dt1) nm isdir_ in
        (Some retval, dt2, e1)
    | exist _ (Some sep) Hsep
        with __PHYSFS_DirTreeFind dt1 (str_take sep nm) e1 := {
      | (Some parent, dt2, e2) :=
          if negb (isdir (entry_at dt2 parent))
          then (None, dt2, PHYSFS_setErrorCode PHYSFS_ERR_CORRUPT e2)
          else
            let '(retval, dt3) := new_entry dt2 parent nm isdir_ in
            (Some retval, dt3, e2)
      | (None, dt2, e2)
          with __PHYSFS_DirTreeAdd dt2 (str_take sep nm) true e2 := {
        | (Some parent, dt3, e3) :=
            let '(retval, dt4) := new_entry dt3 parent nm isdir_ in
            (Some retval, dt4, e3)
        | (None, dt3, e3) := (None, dt3, e3) } } } }.
Proof.
  rewrite str_take_length. apply strrchr_range in Hsep. lia.
Qed.

Definition addAncestors (dt : __PHYSFS_DirTree) (nm : string) (e : @Env T)
  : option nat * __PHYSFS_DirTree * @Env T :=
  match strrchr "/" nm with
  | Some sep =>
      match __PHYSFS_DirTreeFind dt (str_take sep nm) e with
      | (Some retval, dt, e) =>
          if negb (isdir (entry_at dt retval))
          then (None, dt, PHYSFS_setErrorCode PHYSFS_ERR_CORRUPT e)
          else (Some retval, dt, e)
      | (None, dt, e) => __PHYSFS_DirTreeAdd dt (str_take sep nm) true e
      end
  | None => (Some (root dt), dt, e)
  end.

(** ** __PHYSFS_DirTreeEnumerate (physfs.c, 2762-2783) *)
Fixpoint DirTreeEnumerate_loop {D : Type} (tree : __PHYSFS_DirTree)
  (cb : @EnumerateCallback T D) (origdir : string) (entry : list nat)
  (callbackdata : D) (e : @Env T)
  : PHYSFS_EnumerateCallbackResult * D * @Env T :=
  match entry with
  | [] => (PHYSFS_ENUM_OK, callbackdata, e)
  | a :: sibling =>
      let nm := name (entry_at tree a) in
      let '(retval, callbackdata, e) :=
        cb callbackdata origdir
           match strrchr "/" nm with
           | Some ptr => str_from (S ptr) nm
           | None => nm
           end e in
      match retval with
      | PHYSFS_ENUM_ERROR =>
          (retval, callbackdata,
           PHYSFS_setErrorCode PHYSFS_ERR_APP_CALLBACK e)
      | PHYSFS_ENUM_OK =>
          DirTreeEnumerate_loop tree cb origdir sibling callbackdata e
      | PHYSFS_ENUM_STOP => (retval, callbackdata, e)
      end
  end.

Definition __PHYSFS_DirTreeEnumerate {D : Type} (tree : __PHYSFS_DirTree)
  (dname : string) (cb : @EnumerateCallback T D) (origdir : string)
  (callbackdata : D) (e : @Env T)
  : PHYSFS_EnumerateCallbackResult * D * __PHYSFS_DirTree * @Env T :=
  match __PHYSFS_DirTreeFind tree dname e with
  | (None, tree, e) =>
      (PHYSFS_ENUM_ERROR, callbackdata, tree,
       PHYSFS_setErrorCode PHYSFS_ERR_NOT_FOUND e)
  | (Some entry, tree, e) =>
      let '(retval, callbackdata, e) :=
        DirTreeEnumerate_loop tree cb origdir (children (entry_at tree entry))
                              callbackdata e in
      (retval, callbackdata, tree, e)
  end.

(** ** Vocabulary for the properties of trees *)

(** [a] is the entry of the tree with the name [path]: a hashed entry of
    that name, or the root for the empty path. *)
Definition named (dt : __PHYSFS_DirTree) (path : string) (a : nat) : Prop :=
  0 < a < List.length (store dt) /\ name (entry_at dt a) = path.

Definition finds (dt : __PHYSFS_DirTree) (path : string) (a : nat) : Prop :=
  match path with
  | EmptyString => a = 0
  | String _ _ => named dt path a
  end.

(** The name of the directory that holds [nm]: [nm] up to its last ['/'],
    empty (the root) when it has none. *)
Definition parent_name (nm : string) : string :=
  match strrchr "/" nm with
  | Some sep => str_take sep nm
  | None => ""
  end.

(** The last element of a path. *)
Definition base_name (nm : string) : string :=
  match strrchr "/" nm with
  | Some ptr => str_from (S ptr) nm
  | None => nm
  end.

(** The state of a tree between two calls: the table has [hashBuckets]
    chains; a chain holds entries of the store other than the root, each in
    the chain of its name; every such entry is in its chain and has a name
    of its own, which is not empty; and every entry is among the children of
    the entry that its parent name finds, which is a directory, while the
    children of an entry are entries that it is the parent of, the one
    allocated last first. *)
Record dt_wf (dt : __PHYSFS_DirTree) : Prop := mk_dt_wf {
  wf_buckets : hashBuckets dt = Z.of_nat (List.length (hash dt))
               /\ 0 < List.length (hash dt);
  wf_root    : 0 < List.length (store dt) /\ isdir (entry_at dt 0) = true;
  wf_chain   : forall k a, In a (chain dt k) ->
                 0 < a < List.length (store dt)
                 /\ bucket dt (name (entry_at dt a)) = k;
  wf_hashed  : forall a, 0 < a < List.length (store dt) ->
                 In a (chain dt (bucket dt (name (entry_at dt a))));
  wf_unique  : forall a b, 0 < a < List.length (store dt) ->
                 0 < b < List.length (store dt) ->
                 name (entry_at dt a) = name (entry_at dt b) -> a = b;
  wf_names   : forall a, 0 < a < List.length (store dt) ->
                 name (entry_at dt a) <> "";
  wf_parent  : forall a, 0 < a < List.length (store dt) ->
                 exists p, finds dt (parent_name (name (entry_at dt a))) p
                           /\ isdir (entry_at dt p) = true
                           /\ In a (children (entry_at dt p));
  wf_children : forall p a, p < List.length (store dt) ->
                 In a (children (entry_at dt p)) ->
                 0 < a < List.length (store dt)
                 /\ finds dt (parent_name (name (entry_at dt a))) p;
  wf_sorted  : forall p, p < List.length (store dt) ->
                 StronglySorted (fun x y => y < x) (children (entry_at dt p))
}.

(** Two trees hold the same entries: the same store, and in each chain the
    same entries, in whatever order. *)
Definition same_entries (dt dt' : __PHYSFS_DirTree) : Prop :=
  store dt' = store dt /\ hashBuckets dt' = hashBuckets dt
  /\ entrylen dt' = entrylen dt
  /\ List.length (hash dt') = List.length (hash dt)
  /\ forall k a, In a (chain dt' k) <-> In a (chain dt k).

(** The tree [dt'] holds the entries of [dt], with their names and kinds,
    and maybe more. *)
Definition grown (dt dt' : __PHYSFS_DirTree) : Prop :=
  List.length (store dt) <= List.length (store dt')
  /\ hashBuckets dt' = hashBuckets dt
  /\ forall b, b < List.length (store dt) ->
        name (entry_at dt' b) = name (entry_at dt b)
        /\ isdir (entry_at dt' b) = isdir (entry_at dt b).

(** The trees that the code makes: from [__PHYSFS_DirTreeInit], by calls
    of [__PHYSFS_DirTreeAdd] and [__PHYSFS_DirTreeFind], whatever they
    return. *)
Inductive built : __PHYSFS_DirTree -> Prop :=
| built_init (entrylen : Z) : built (snd (__PHYSFS_DirTreeInit entrylen))
| built_add (dt : __PHYSFS_DirTree) (nm : string) (isdir_ : bool) (e : @Env T) :
    built dt -> built (snd (fst (__PHYSFS_DirTreeAdd dt nm isdir_ e)))
| built_find (dt : __PHYSFS_DirTree) (path : string) (e : @Env T) :
    built dt -> built (snd (fst (__PHYSFS_DirTreeFind dt path e))).

(** The proper prefixes of a path that end before a ['/']: the names of the
    directories above it. *)
Fixpoint ancestors_from (pre rest : string) : list string :=
  match rest with
  | EmptyString => []
  | String c rest' =>
      if Ascii.eqb c "/" then pre :: ancestors_from (pre ++ String c "") rest'
      else ancestors_from (pre ++ String c "") rest'
  end.

Definition ancestors (nm : string) : list string := ancestors_from "" nm.

(** A callback that notes the names it is handed. *)
Definition note_names : @EnumerateCallback T (list string) :=
  fun names origdir fname e => (PHYSFS_ENUM_OK, (names ++ [fname])%list, e).

End DirTrees.

(* ===================================================================== *)
(** * More streams, a platform that writes and a system for the examples *)
(* ===================================================================== *)

(** A stream as a tape: the bytes before the position and the bytes from
    the position on.  [read] moves bytes from the second part to the first,
    [write] appends to the first part over as many bytes of the second. *)
Definition TapeStream : Type := (list byte * list byte)%type.

Definition tape_read (s : TapeStream) (len : Z) : Z * list byte * TapeStream :=
  let got := firstn (Z.to_nat len) (snd s) in
  (Z.of_nat (List.length got), got,
   ((fst s ++ got)%list, skipn (Z.to_nat len) (snd s))).

Definition tape_write (s : TapeStream) (buf : list byte) (len : Z)
  : Z * TapeStream :=
  let data := firstn (Z.to_nat len) buf in
  (Z.of_nat (List.length data),
   ((fst s ++ data)%list, skipn (List.length data) (snd s))).

Definition tape_seek (s : TapeStream) (pos : Z) : bool * TapeStream :=
  let all := (fst s ++ snd s)%list in
  if (0 <=? pos)%Z && (pos <=? Z.of_nat (List.length all))%Z
  then (true, (firstn (Z.to_nat pos) all, skipn (Z.to_nat pos) all))
  else (false, s).

Definition tapeIo : PHYSFS_Io TapeStream := {|
  io_read := tape_read;
  io_write := tape_write;
  io_seek := tape_seek;
  io_tell := fun s => Z.of_nat (List.length (fst s));
  io_length := fun s => Z.of_nat (List.length (fst s) + List.length (snd s));
  io_flush := None
|}.

(** A handle opened for reading on a tape of ten bytes, with an empty buffer
    of four bytes; and a handle opened for writing on an empty tape, with an
    empty buffer of seven bytes. *)
Definition tape_reader : FileHandle TapeStream :=
  mkFileHandle 9 ([], ten_bytes) true 7
               (Some [Byte.x00; Byte.x00; Byte.x00; Byte.x00]) 4 0 0.

Definition tape_writer : FileHandle TapeStream :=
  mkFileHandle 9 ([], []) false 7 (Some (repeat Byte.x00 7)) 7 0 0.

(** A handle at the end of its file of ten bytes, without a buffer. *)
Definition spent_reader : FileHandle MemStream :=
  mkFileHandle 9 (ten_bytes, 10%Z) true 7 None 0 0 0.

(** A platform with the directory /out, in which every file can be opened
    for writing and every name removed or made a directory. *)
Definition out_stat (path : string) (follow : bool)
  : option PHYSFS_ErrorCode * PHYSFS_Stat :=
  if String.eqb path "/out" || String.eqb path "/out/"
  then (None, mkStat 0 0 PHYSFS_FILETYPE_DIRECTORY false)
  else (Some PHYSFS_ERR_NOT_FOUND, mkStat 0 0 PHYSFS_FILETYPE_REGULAR false).

Definition outPlatform : Platform MemStream := {|
  __PHYSFS_platformStat := out_stat;
  __PHYSFS_platformOpenRead := fun _ => Err PHYSFS_ERR_NOT_FOUND;
  __PHYSFS_platformOpenWrite := fun _ => Ok ([], 0%Z);
  __PHYSFS_platformOpenAppend := fun _ => Ok ([], 0%Z);
  __PHYSFS_platformEnumerate := fun _ => Ok []
|}.

Definition outPlatformWrite : PlatformWrite := {|
  __PHYSFS_platformDelete := fun _ => None;
  __PHYSFS_platformMkDir := fun _ => None
|}.

Definition out_dir : @DirHandle MemStream :=
  mkDirHandle 5 "/out/" (Some "/out") None (__PHYSFS_Archiver_DIR outPlatform).

(** A drive with /out as its write directory and nothing mounted. *)
Definition out_drive : @Drive MemStream :=
  mkDrive [] (Some out_dir) [] [] false demo_env.

(** The drive with /data mounted and symbolic links permitted. *)
Definition open_drive : @Drive MemStream :=
  mkDrive [demo_dir] None [] [] true demo_env.

(** A handle of the DIR archiver mounted at mnt. *)
Definition mnt_dir : @DirHandle MemStream :=
  mkDirHandle 7 "/data/" (Some "/data") (Some "mnt/")
              (__PHYSFS_Archiver_DIR demoPlatform).

(** A system without /proc in which the program app lies in /usr/bin, and
    a system that knows nothing. *)
Definition demoPosix : Posix := {|
  access_F_OK := fun _ => false;
  access_X_OK := fun p => String.eqb p "/usr/bin/app";
  readlink_target := fun _ => None;
  getpid := 42%Z;
  getenv := fun n => if String.eqb n "PATH" then Some "/bin:/usr/bin" else None
|}.


(** The globals of an initialized drive with /data mounted and one file
    open for reading. *)
Definition busyGlobals : @Globals MemStream :=
  mkGlobals busy_drive true (Some "/usr/bin/") (Some "/home/user/") None.




(** A tree with the file a/b/c, which brings the directories a and a/b,
    then the files a/x and top. *)
Definition demo_tree : __PHYSFS_DirTree :=
  let add nm isd dt := snd (fst (__PHYSFS_DirTreeAdd dt nm isd demo_env)) in
  add "top" false
      (add "a/x" false (add "a/b/c" false (snd (__PHYSFS_DirTreeInit 40)))).
(* ===================================================================== *)
(** * Part II: properties *)
(* ===================================================================== *)

Lemma errcode_eqb_eq (a b : PHYSFS_ErrorCode) : errcode_eqb a b = true <-> a = b.
Proof.
  split.
  - destruct a, b; simpl; intros H; try reflexivity; discriminate H.
  - intros ->. destruct b; reflexivity.
Qed.

Example sanitize_ex1 :
  sanitizePlatformIndependentPath "//a///b/c.txt//" = Ok "a/b/c.txt".
Proof. reflexivity. Qed.

Example sanitize_ex2 :
  sanitizePlatformIndependentPath "../etc/passwd" = Err PHYSFS_ERR_BAD_FILENAME.
Proof. reflexivity. Qed.

Example sanitize_ex3 :
  sanitizePlatformIndependentPath "a/./b" = Err PHYSFS_ERR_BAD_FILENAME.
Proof. reflexivity. Qed.

Example sanitize_ex4 :
  sanitizePlatformIndependentPath "C:\dir" = Err PHYSFS_ERR_BAD_FILENAME.
Proof. reflexivity. Qed.

(* --------------------------------------------------------------------- *)
(** ** Strings *)
(* --------------------------------------------------------------------- *)

Lemma is_slash_true (c : ascii) : is_slash c = true -> c = "/"%char.
Proof. unfold is_slash. apply Ascii.eqb_eq. Qed.

Lemma skip_slashes_length (s : string) :
  String.length (skip_slashes s) <= String.length s.
Proof.
  induction s as [|c s IH]; simpl.
  - lia.
  - destruct (is_slash c); simpl; lia.
Qed.

Lemma skip_slashes_start (s : string) :
  starts_with_slash (skip_slashes s) = false.
Proof.
  induction s as [|c s IH]; simpl.
  - reflexivity.
  - destruct (is_slash c) eqn:E; [exact IH | simpl; exact E].
Qed.

Lemma append_empty_r (s : string) : s ++ "" = s.
Proof. induction s as [|c s IH]; simpl; [reflexivity | now rewrite IH]. Qed.

Lemma append_assoc (a b c : string) : (a ++ b) ++ c = a ++ (b ++ c).
Proof. induction a as [|x a IH]; simpl; [reflexivity | now rewrite IH]. Qed.

Lemma ends_with_slash_snoc (s : string) (c : ascii) :
  ends_with_slash (s ++ String c "") = is_slash c.
Proof.
  induction s as [|d s IH]; simpl.
  - reflexivity.
  - destruct (s ++ String c "") eqn:E.
    + destruct s; discriminate E.
    + exact IH.
Qed.

Lemma starts_with_slash_snoc (s : string) (c : ascii) :
  starts_with_slash (s ++ String c "") =
  match s with
  | EmptyString => is_slash c
  | String _ _ => starts_with_slash s
  end.
Proof. destruct s; reflexivity. Qed.

Lemma has_double_slash_snoc (s : string) (c : ascii) :
  has_double_slash (s ++ String c "") =
  has_double_slash s || (ends_with_slash s && is_slash c).
Proof.
  induction s as [|d s IH].
  - simpl. now rewrite andb_false_r.
  - change (has_double_slash (String d s ++ String c ""))
      with ((is_slash d && starts_with_slash (s ++ String c ""))
            || has_double_slash (s ++ String c "")).
    rewrite IH, starts_with_slash_snoc.
    destruct s as [|d' s'].
    + simpl. destruct (is_slash d), (is_slash c); reflexivity.
    + change (has_double_slash (String d (String d' s')))
        with ((is_slash d && is_slash d') || has_double_slash (String d' s')).
      change (ends_with_slash (String d (String d' s')))
        with (ends_with_slash (String d' s')).
      change (starts_with_slash (String d' s')) with (is_slash d').
      destruct (is_slash d && is_slash d'), (has_double_slash (String d' s'));
        reflexivity.
Qed.

Lemma str_from_append (n : nat) (s x : string) :
  n <= String.length s -> str_from n (s ++ x) = str_from n s ++ x.
Proof.
  revert s. induction n as [|n IH]; intros s Hn.
  - destruct s; reflexivity.
  - destruct s as [|c s]; simpl in *; [lia | apply IH; lia].
Qed.

Lemma str_from_length (s x : string) : str_from (String.length s) (s ++ x) = x.
Proof. induction s as [|c s IH]; simpl; [destruct x; reflexivity | exact IH]. Qed.

Lemma str_from_all (s : string) : str_from (String.length s) s = "".
Proof. induction s as [|c s IH]; simpl; [reflexivity | exact IH]. Qed.

Lemma str_from_length_le (n : nat) (s : string) :
  String.length (str_from n s) <= String.length s.
Proof.
  revert s. induction n as [|n IH]; intros s.
  - destruct s; simpl; lia.
  - destruct s as [|c s]; simpl; [lia | specialize (IH s); lia].
Qed.

Lemma length_append (a b : string) :
  String.length (a ++ b) = String.length a + String.length b.
Proof. induction a as [|c a IH]; simpl; [reflexivity | now rewrite IH]. Qed.

Lemma split_slash_aux_nonempty (cur s : string) : split_slash_aux cur s <> [].
Proof.
  revert cur. induction s as [|c s IH]; intros cur; simpl.
  - discriminate.
  - destruct (is_slash c); [discriminate | apply IH].
Qed.

Lemma removelast_cons {A : Type} (a : A) (l : list A) :
  l <> [] -> removelast (a :: l) = a :: removelast l.
Proof. destruct l; [congruence | reflexivity]. Qed.

Lemma contains_char_skip (c : ascii) (s : string) :
  is_slash c = false ->
  contains_char c (skip_slashes s) = contains_char c s.
Proof.
  intros Hc. induction s as [|d s IH]; simpl.
  - reflexivity.
  - destruct (is_slash d) eqn:E.
    + rewrite IH. apply is_slash_true in E. subst d.
      unfold is_slash in Hc. rewrite Ascii.eqb_sym in Hc. now rewrite Hc.
    + reflexivity.
Qed.

Lemma dots_skip (s : string) :
  existsb is_dot_or_dotdot (removelast (split_slash_aux "" (skip_slashes s))) =
  existsb is_dot_or_dotdot (removelast (split_slash_aux "" s)).
Proof.
  induction s as [|d s IH]; simpl.
  - reflexivity.
  - destruct (is_slash d) eqn:E.
    + rewrite IH.
      rewrite removelast_cons by apply split_slash_aux_nonempty.
      reflexivity.
    + simpl. rewrite E. reflexivity.
Qed.

(* --------------------------------------------------------------------- *)
(** ** sanitizePlatformIndependentPath *)
(* --------------------------------------------------------------------- *)

(** Every failure of the function carries [PHYSFS_ERR_BAD_FILENAME]. *)
Lemma sanitize_loop_err (src : string) :
  forall n dst prev e,
    String.length src <= n ->
    sanitize_loop src dst prev = Err e -> e = PHYSFS_ERR_BAD_FILENAME.
Proof.
  intros n. revert src.
  induction n as [|n IH]; intros src dst prev e Hlen Hrun.
  - destruct src; [discriminate Hrun | simpl in Hlen; lia].
  - destruct src as [|ch src']; [discriminate Hrun|].
    simpl in Hrun, Hlen.
    destruct (Ascii.eqb ch ":" || Ascii.eqb ch "\"); [congruence|].
    destruct (is_slash ch).
    + destruct (is_dot_or_dotdot (str_from prev dst)); [congruence|].
      destruct (skip_slashes src') as [|a r] eqn:Hsk; [discriminate Hrun|].
      eapply IH; [|exact Hrun].
      pose proof (skip_slashes_length src') as Hl. rewrite Hsk in Hl. lia.
    + eapply IH; [|exact Hrun]. lia.
Qed.

Lemma sanitize_err (s : string) (e : PHYSFS_ErrorCode) :
  sanitizePlatformIndependentPath s = Err e -> e = PHYSFS_ERR_BAD_FILENAME.
Proof.
  unfold sanitizePlatformIndependentPath.
  destruct (is_dot_or_dotdot (skip_slashes s)); [congruence|].
  apply (sanitize_loop_err _ (String.length (skip_slashes s))). lia.
Qed.

(** The loop keeps its output free of a leading slash and of doubled
    slashes, and never ends it with a slash. *)
Lemma sanitize_loop_normal (n : nat) :
  forall src dst prev out,
    String.length src <= n ->
    has_double_slash dst = false ->
    starts_with_slash dst = false ->
    (dst = "" \/ ends_with_slash dst = true -> starts_with_slash src = false) ->
    (ends_with_slash dst = true -> src <> "") ->
    sanitize_loop src dst prev = Ok out ->
    starts_with_slash out = false /\ ends_with_slash out = false
    /\ has_double_slash out = false.
Proof.
  induction n as [|n IH]; intros src dst prev out Hlen Hdd Hst Hsrc Hne Hrun.
  - destruct src; [|simpl in Hlen; lia].
    simpl in Hrun. inversion Hrun; subst out.
    repeat split; auto.
    destruct (ends_with_slash dst) eqn:E; auto. exfalso. now apply Hne.
  - destruct src as [|ch src'].
    + simpl in Hrun. inversion Hrun; subst out.
      repeat split; auto.
      destruct (ends_with_slash dst) eqn:E; auto. exfalso. now apply Hne.
    + simpl in Hrun, Hlen.
      destruct (Ascii.eqb ch ":" || Ascii.eqb ch "\"); [discriminate Hrun|].
      destruct (is_slash ch) eqn:Hs.
      * destruct (is_dot_or_dotdot (str_from prev dst)); [discriminate Hrun|].
        assert (Hend : ends_with_slash dst = false).
        { destruct (ends_with_slash dst) eqn:E; auto.
          assert (starts_with_slash (String ch src') = false) by auto.
          simpl in H. congruence. }
        assert (Hdst : dst <> "").
        { intros ->. assert (starts_with_slash (String ch src') = false) by auto.
          simpl in H. congruence. }
        destruct (skip_slashes src') as [|a r] eqn:Hsk.
        -- inversion Hrun; subst out. auto.
        -- apply IH in Hrun; auto.
           ++ pose proof (skip_slashes_length src') as Hl.
              rewrite Hsk in Hl. lia.
           ++ rewrite has_double_slash_snoc, Hdd, Hend. reflexivity.
           ++ rewrite starts_with_slash_snoc. destruct dst; [congruence | exact Hst].
           ++ intros _. rewrite <- Hsk. apply skip_slashes_start.
           ++ intros _. discriminate.
      * apply IH in Hrun; auto.
        -- lia.
        -- rewrite has_double_slash_snoc, Hdd, Hs.
           now rewrite andb_false_r.
        -- rewrite starts_with_slash_snoc. destruct dst; [exact Hs | exact Hst].
        -- rewrite ends_with_slash_snoc, Hs. intros [H | H]; [|discriminate H].
           destruct dst; discriminate H.
        -- rewrite ends_with_slash_snoc, Hs. discriminate.
Qed.

(** An accepted path comes out with no leading slash, no trailing slash and
    no run of slashes. *)
Lemma sanitize_output_normal (s out : string) :
  sanitizePlatformIndependentPath s = Ok out ->
  starts_with_slash out = false /\ ends_with_slash out = false
  /\ has_double_slash out = false.
Proof.
  unfold sanitizePlatformIndependentPath.
  destruct (is_dot_or_dotdot (skip_slashes s)); [discriminate|].
  intros Hrun.
  apply (sanitize_loop_normal (String.length (skip_slashes s))) in Hrun; auto.
  - intros _. apply skip_slashes_start.
  - discriminate.
Qed.

Definition is_err {A : Type} (r : result A) : bool :=
  match r with
  | Err _ => true
  | Ok _ => false
  end.

Lemma sanitize_loop_rejects (n : nat) :
  forall src dst prev,
    String.length src <= n ->
    prev <= String.length dst ->
    is_err (sanitize_loop src dst prev) =
    contains_char ":" src || contains_char "\" src
    || existsb is_dot_or_dotdot
         (removelast (split_slash_aux (str_from prev dst) src)).
Proof.
  induction n as [|n IH]; intros src dst prev Hlen Hprev.
  - destruct src; [|simpl in Hlen; lia]. reflexivity.
  - destruct src as [|ch src']; [reflexivity|].
    simpl in Hlen.
    cbn [sanitize_loop contains_char split_slash_aux].
    destruct (Ascii.eqb ch ":") eqn:Hc1; [reflexivity|].
    destruct (Ascii.eqb ch "\") eqn:Hc2.
    { cbn. now rewrite orb_true_r. }
    cbn [orb].
    destruct (is_slash ch) eqn:Hs.
    + rewrite removelast_cons by apply split_slash_aux_nonempty.
      cbn [existsb].
      destruct (is_dot_or_dotdot (str_from prev dst)) eqn:Hd.
      { cbn. now rewrite !orb_true_r. }
      cbn [orb].
      rewrite <- dots_skip.
      rewrite <- (contains_char_skip ":" src') by reflexivity.
      rewrite <- (contains_char_skip "\" src') by reflexivity.
      destruct (skip_slashes src') as [|a r] eqn:Hsk; [reflexivity|].
      rewrite IH.
      * replace (S (String.length dst))
          with (String.length (dst ++ String ch ""))
          by (rewrite length_append; simpl; lia).
        rewrite str_from_all. reflexivity.
      * pose proof (skip_slashes_length src') as Hl. rewrite Hsk in Hl. lia.
      * rewrite length_append. simpl. lia.
    + rewrite IH by (try rewrite length_append; simpl; lia).
      rewrite str_from_append by lia. reflexivity.
Qed.

(** The function fails exactly on the inputs described by [code_rejects]. *)
Lemma sanitize_rejects_exactly (s : string) :
  is_err (sanitizePlatformIndependentPath s) = code_rejects s.
Proof.
  unfold sanitizePlatformIndependentPath, code_rejects, split_slash.
  destruct (is_dot_or_dotdot (skip_slashes s)) eqn:Hd.
  - cbn. now rewrite orb_true_r.
  - rewrite (sanitize_loop_rejects (String.length (skip_slashes s)))
      by (simpl; lia).
    rewrite !contains_char_skip by reflexivity.
    cbn [str_from]. now rewrite orb_false_r.
Qed.

Lemma sanitize_rejects_iff (s : string) :
  sanitizePlatformIndependentPath s = Err PHYSFS_ERR_BAD_FILENAME <->
  code_rejects s = true.
Proof.
  rewrite <- sanitize_rejects_exactly. split.
  - intros ->. reflexivity.
  - destruct (sanitizePlatformIndependentPath s) as [out | e] eqn:E;
      [discriminate|].
    intros _. apply sanitize_err in E. now subst e.
Qed.

Lemma existsb_removelast {A : Type} (f : A -> bool) (l : list A) :
  existsb f (removelast l) = true -> existsb f l = true.
Proof.
  induction l as [|a l IH]; [discriminate|].
  destruct l as [|b l']; [discriminate|].
  change (removelast (a :: b :: l')) with (a :: removelast (b :: l')).
  cbn [existsb]. intros H. apply orb_true_iff in H.
  apply orb_true_iff. destruct H as [H | H]; [now left | right; auto].
Qed.

Lemma dots_skip_all (s : string) :
  existsb is_dot_or_dotdot (split_slash (skip_slashes s)) =
  existsb is_dot_or_dotdot (split_slash s).
Proof.
  unfold split_slash. induction s as [|d s IH]; simpl.
  - reflexivity.
  - destruct (is_slash d) eqn:E.
    + rewrite IH. reflexivity.
    + simpl. rewrite E. reflexivity.
Qed.

(** Whatever the function rejects is rejected by the rule of the
    specification as well. *)
Lemma sanitize_rejects_sound (s : string) :
  code_rejects s = true -> spec_rejects s = true.
Proof.
  unfold code_rejects, spec_rejects. intros H.
  destruct (contains_char ":" s); [reflexivity|].
  destruct (contains_char "\" s); [reflexivity|].
  destruct (is_dot_or_dotdot (skip_slashes s)); [now rewrite orb_true_r|].
  cbn [orb] in H. apply existsb_removelast in H.
  rewrite dots_skip_all in H. now rewrite H.
Qed.

(** C1 (the code departs from the claim).  The path "a/.." has a segment
    equal to "..", so the rule of the specification rejects it, but
    sanitizePlatformIndependentPath accepts it and returns it unchanged: the
    loop compares a segment with "." and ".." only when a separator follows
    it, so the last segment of a path is never checked. *)
Theorem sanitize_accepts_final_dotdot :
  spec_rejects "a/.." = true /\
  sanitizePlatformIndependentPath "a/.." = Ok "a/..".
Proof. split; reflexivity. Qed.

Example sanitize_accepts_final_dot :
  sanitizePlatformIndependentPath "docs/." = Ok "docs/.".
Proof. reflexivity. Qed.

(* --------------------------------------------------------------------- *)
(** ** Buffered file handles *)
(* --------------------------------------------------------------------- *)

Section FileHandleProps.

Context {T : Type}.
Variable IO : PHYSFS_Io T.

Local Open Scope Z_scope.

Lemma call_write_range (s : T) (buf : list byte) (len rc : Z) (s' : T) :
  call_write IO s buf len = (rc, s') -> - 2 ^ 63 <= rc < 2 ^ 63.
Proof.
  unfold call_write. destruct (io_write IO s buf len) as [rc0 s0].
  intros H. inversion H; subst. apply s64_range.
Qed.

Lemma flush_forReading (fh : FileHandle T) :
  forReading (snd (PHYSFS_flush IO fh)) = forReading fh.
Proof.
  unfold PHYSFS_flush.
  destruct (forReading fh || (bufpos fh =? buffill fh)); [reflexivity|].
  destruct (call_write IO _ _ _) as [rc s'].
  destruct (rc <=? 0); reflexivity.
Qed.

Lemma flush_wf (fh : FileHandle T) :
  handle_wf fh -> handle_wf (snd (PHYSFS_flush IO fh)).
Proof.
  unfold PHYSFS_flush, handle_wf. intros H.
  destruct (forReading fh || (bufpos fh =? buffill fh)); [exact H|].
  destruct (call_write IO _ _ _) as [rc s'].
  destruct (rc <=? 0); simpl; lia.
Qed.

Lemma flush_reading (fh : FileHandle T) :
  forReading fh = true -> PHYSFS_flush IO fh = (true, fh).
Proof. unfold PHYSFS_flush. intros ->. reflexivity. Qed.

Lemma doBufferedRead_loop_wf (fh : FileHandle T) (out : list byte)
  (len retval : Z) :
  handle_wf fh -> handle_wf (snd (doBufferedRead_loop IO fh out len retval)).
Proof.
  funelim (doBufferedRead_loop IO fh out len retval); intros Hwf.
  - exact Hwf.
  - apply H. clear H Heqcall.
    unfold handle_wf, fh_avail in *. simpl.
    rewrite (u64_small (buffill fh - bufpos fh)) in * by lia.
    rewrite u64_small by lia. lia.
  - apply H. clear H Heqcall.
    pose proof (call_read_range IO _ _ _ _ _ Heq) as Hrange.
    unfold handle_wf in *. simpl. rewrite u64_small by lia. lia.
  - simpl. unfold handle_wf in *. simpl. lia.
Qed.


Lemma s64_u64_add (a b : Z) : s64 (u64 a + b) = s64 (a + b).
Proof.
  unfold s64, u64.
  rewrite <- Z.add_assoc, Zplus_mod_idemp_l, Z.add_assoc. reflexivity.
Qed.

Lemma u64_idem (x : Z) : u64 (u64 x) = u64 x.
Proof. apply u64_small, u64_range. Qed.

Lemma readBytes_wf (fh : FileHandle T) (len rc : Z) (data : list byte)
  (fh' : FileHandle T) :
  handle_wf fh ->
  PHYSFS_readBytes IO fh len = Ok (rc, data, fh') -> handle_wf fh'.
Proof.
  unfold PHYSFS_readBytes. intros Hwf.
  destruct (negb (__PHYSFS_ui64FitsAddressSpace (u64 len))); [discriminate|].
  destruct (u64 len >? maxlen); [discriminate|].
  destruct (negb (forReading fh)); [discriminate|].
  destruct (u64 (u64 len) =? 0).
  - intros H. inversion H; subst. exact Hwf.
  - destruct (buffer fh).
    + intros H. inversion H as [Hrun].
      pose proof (doBufferedRead_loop_wf fh [] (u64 (u64 len)) 0 Hwf) as Hl.
      unfold doBufferedRead in Hrun. rewrite Hrun in Hl. exact Hl.
    + destruct (call_read IO (io fh) (u64 (u64 len))) as [[rc0 d0] s0].
      intros H. inversion H; subst. exact Hwf.
Qed.

Lemma read_wf (fh : FileHandle T) (size count rc : Z) (data : list byte)
  (fh' : FileHandle T) :
  handle_wf fh ->
  PHYSFS_read IO fh size count = Ok (rc, data, fh') -> handle_wf fh'.
Proof.
  unfold PHYSFS_read. intros Hwf.
  destruct (PHYSFS_readBytes IO fh (u64 (size * count)))
    as [[[rc0 d0] fh0] | e] eqn:E; [|discriminate].
  intros H. inversion H; subst.
  eapply readBytes_wf; eauto.
Qed.

Lemma writeBytes_wf (fh : FileHandle T) (data : list byte) (len rc : Z)
  (fh' : FileHandle T) :
  handle_wf fh ->
  PHYSFS_writeBytes IO fh data len = Ok (rc, fh') -> handle_wf fh'.
Proof.
  unfold PHYSFS_writeBytes. intros Hwf.
  rewrite u64_idem.
  pose proof (u64_range len) as Hl.
  destruct (negb (__PHYSFS_ui64FitsAddressSpace (u64 len))); [discriminate|].
  destruct (u64 len >? maxlen) eqn:Hmax; [discriminate|].
  destruct (forReading fh); [discriminate|].
  destruct (u64 len =? 0).
  - intros H. inversion H; subst. exact Hwf.
  - destruct (buffer fh).
    + unfold doBufferedWrite.
      destruct (u64 (buffill fh + u64 len) <? bufsize fh) eqn:Hfit.
      * intros H. inversion H; subst. clear H.
        unfold handle_wf in *. unfold maxlen in Hmax. simpl.
        rewrite u64_small in * by lia. lia.
      * destruct (PHYSFS_flush IO fh) as [ok fh1] eqn:Hf.
        pose proof (flush_wf fh Hwf) as Hwf1. rewrite Hf in Hwf1. simpl in Hwf1.
        destruct (negb ok).
        -- intros H. inversion H; subst. exact Hwf1.
        -- destruct (call_write IO (io fh1) data (u64 len)) as [rc0 s0].
           intros H. inversion H; subst. exact Hwf1.
    + destruct (call_write IO (io fh) data (u64 len)) as [rc0 s0].
      intros H. inversion H; subst. exact Hwf.
Qed.

Lemma write_wf (fh : FileHandle T) (data : list byte) (size count rc : Z)
  (fh' : FileHandle T) :
  handle_wf fh ->
  PHYSFS_write IO fh data size count = Ok (rc, fh') -> handle_wf fh'.
Proof.
  unfold PHYSFS_write. intros Hwf.
  destruct (PHYSFS_writeBytes IO fh data (u64 (size * count)))
    as [[rc0 fh0] | e] eqn:E; [|discriminate].
  intros H. inversion H; subst.
  eapply writeBytes_wf; eauto.
Qed.

Lemma seek_wf (fh : FileHandle T) (pos : Z) :
  handle_wf fh -> handle_wf (snd (PHYSFS_seek IO fh pos)).
Proof.
  intros Hwf. unfold PHYSFS_seek.
  destruct (PHYSFS_flush IO fh) as [ok fh1] eqn:Hf.
  pose proof (flush_wf fh Hwf) as Hwf1. rewrite Hf in Hwf1. simpl in Hwf1.
  destruct (negb ok); [exact Hwf1|].
  assert (Hraw : handle_wf
            (snd (let fh0 := set_bufpos (set_buffill fh1 0) 0 in
                  let '(r, s') := io_seek IO (io fh0) pos in
                  (r, set_io fh0 s')))).
  { simpl. destruct (io_seek IO (io fh1) pos) as [r s'].
    unfold handle_wf in *. simpl. lia. }
  destruct (buffer fh1); [|exact Hraw].
  destruct (forReading fh1); [|exact Hraw].
  set (offset := s64 (u64 (pos - PHYSFS_tell IO fh1))) in *.
  pose proof (s64_range (u64 (pos - PHYSFS_tell IO fh1))) as Hoff.
  fold offset in Hoff.
  destruct ((offset >=? 0) && (u64 offset <=? u64 (buffill fh1 - bufpos fh1))
            || (offset <? 0) && (u64 (- offset) <=? bufpos fh1)) eqn:Hin;
    [|exact Hraw].
  unfold handle_wf in *. simpl.
  apply orb_true_iff in Hin.
  destruct Hin as [Hin | Hin]; apply andb_true_iff in Hin; destruct Hin as [H1 H2].
  - rewrite (u64_small offset) in H2 by lia.
    rewrite (u64_small (buffill fh1 - bufpos fh1)) in H2 by lia.
    rewrite u64_small by lia. lia.
  - rewrite (u64_small (- offset)) in H2 by lia.
    rewrite u64_small by lia. lia.
Qed.

Lemma setBuffer_wf (fh : FileHandle T) (n : Z) (ok : bool) (fh' : FileHandle T) :
  handle_wf fh -> 0 <= n < 2 ^ 63 ->
  PHYSFS_setBuffer IO fh n = Ok (ok, fh') -> handle_wf fh'.
Proof.
  intros Hwf Hn. unfold PHYSFS_setBuffer.
  rewrite (u64_small n) by lia.
  destruct (negb (__PHYSFS_ui64FitsAddressSpace n)); [discriminate|].
  destruct (PHYSFS_flush IO fh) as [okf fh1] eqn:Hf.
  pose proof (flush_wf fh Hwf) as Hwf1. rewrite Hf in Hwf1. cbn [snd] in Hwf1.
  destruct (negb okf); [intros H; inversion H; subst; exact Hwf1|].
  assert (Hfin : forall f : FileHandle T,
             handle_wf f ->
             forall b, handle_wf (set_bufpos (set_buffill (set_bufsize
                                   (set_buffer f b) n) 0) 0)).
  { intros f Hf0 b. unfold handle_wf in *. simpl. lia. }
  destruct (forReading fh1 && negb (buffill fh1 =? bufpos fh1)).
  - destruct (call_tell IO (io fh1) =? -1);
      [intros H; inversion H; subst; exact Hwf1|].
    destruct (io_seek IO (io fh1) _) as [r s'].
    destruct (negb r); intros H; inversion H; subst.
    + unfold handle_wf in *. simpl. lia.
    + apply Hfin. unfold handle_wf in *. simpl. lia.
  - intros H. inversion H; subst. now apply Hfin.
Qed.

(** Under the invariant the 64-bit arithmetic of [PHYSFS_tell] does not
    wrap. *)
Lemma tell_exact (fh : FileHandle T) :
  handle_wf fh ->
  -1 <= io_tell IO (io fh) < 2 ^ 63 ->
  (forReading fh = false -> io_tell IO (io fh) + buffill fh < 2 ^ 63) ->
  PHYSFS_tell IO fh = logical_pos IO fh.
Proof.
  unfold handle_wf, PHYSFS_tell, logical_pos, call_tell.
  intros Hwf Ht Hw.
  rewrite (s64_small (io_tell IO (io fh))) by lia.
  destruct (forReading fh).
  - rewrite s64_u64, s64_u64_add. apply s64_small. lia.
  - specialize (Hw eq_refl). rewrite s64_u64. apply s64_small. lia.
Qed.

Lemma run_op_wf (op : file_op) (fh : FileHandle T) :
  handle_wf fh -> handle_wf (snd (run_op IO op fh)).
Proof.
  intros Hwf. destruct op; simpl.
  - destruct (PHYSFS_readBytes IO fh len) as [[[rc d] f] | e] eqn:E;
      [|exact Hwf].
    eapply readBytes_wf; eauto.
  - destruct (PHYSFS_read IO fh size count) as [[[rc d] f] | e] eqn:E;
      [|exact Hwf].
    eapply read_wf; eauto.
  - destruct (PHYSFS_writeBytes IO fh data len) as [[rc f] | e] eqn:E;
      [|exact Hwf].
    eapply writeBytes_wf; eauto.
  - destruct (PHYSFS_write IO fh data size count) as [[rc f] | e] eqn:E;
      [|exact Hwf].
    eapply write_wf; eauto.
  - now apply seek_wf.
  - now apply flush_wf.
Qed.

Lemma after_op_wf (op : file_op) (fh fh' : FileHandle T) :
  handle_wf fh -> after_op IO op fh = Some fh' -> handle_wf fh'.
Proof.
  intros Hwf. unfold after_op.
  pose proof (run_op_wf op fh Hwf) as H.
  destruct (run_op IO op fh) as [ok f]. destruct ok; [|discriminate].
  intros E. inversion E; subst. exact H.
Qed.

(** Every handle a program can hold has its counters in order. *)
Lemma reachable_wf (fh : FileHandle T) : reachable IO fh -> handle_wf fh.
Proof.
  induction 1 as [a s r dh | fh op Hr IH | fh n ok fh' Hr IH Hn Hset].
  - unfold handle_wf. simpl. lia.
  - now apply run_op_wf.
  - eapply setBuffer_wf; eauto.
Qed.

(** C2.  For a handle whose counters are in order, after every successful
    read, write, seek or flush the counters are in order again and
    PHYSFS_tell returns io.tell() - buffill + bufpos for a handle opened for
    reading and io.tell() + buffill for one opened for writing or appending,
    as integers: the stream reports a position (or -1), and for a write
    handle the sum fits the signed 64-bit return type. *)
Theorem tell_invariant (op : file_op) (fh fh' : FileHandle T) :
  handle_wf fh ->
  after_op IO op fh = Some fh' ->
  -1 <= io_tell IO (io fh') < 2 ^ 63 ->
  (forReading fh' = false -> io_tell IO (io fh') + buffill fh' < 2 ^ 63) ->
  handle_wf fh' /\
  PHYSFS_tell IO fh' =
  if forReading fh' then io_tell IO (io fh') - buffill fh' + bufpos fh'
  else io_tell IO (io fh') + buffill fh'.
Proof.
  intros Hwf Hop Ht Hw.
  assert (Hwf' : handle_wf fh') by (eapply after_op_wf; eauto).
  split; [exact Hwf'|].
  apply (tell_exact fh' Hwf' Ht Hw).
Qed.


(* --------------------------------------------------------------------- *)
(** ** PHYSFS_flush *)
(* --------------------------------------------------------------------- *)

(** A handle opened for reading, or one whose buffer holds nothing, is
    flushed by doing nothing. *)
Lemma flush_noop (fh : FileHandle T) :
  forReading fh = true \/ bufpos fh = buffill fh ->
  PHYSFS_flush IO fh = (true, fh).
Proof.
  unfold PHYSFS_flush. intros [H | H].
  - now rewrite H.
  - rewrite H, Z.eqb_refl. now rewrite orb_true_r.
Qed.

(** Otherwise the bytes from [bufpos] up to [buffill] are handed to the
    stream in one [write]. *)
Lemma flush_writes_pending (fh : FileHandle T) :
  forReading fh = false -> bufpos fh <> buffill fh ->
  PHYSFS_flush IO fh =
  let len := u64 (buffill fh - bufpos fh) in
  let '(rc, s') := call_write IO (io fh) (buf_slice fh (bufpos fh) len) len in
  if rc <=? 0 then (false, set_io fh s')
  else (true, set_buffill (set_bufpos (set_io fh s') 0) 0).
Proof.
  unfold PHYSFS_flush. intros -> Hne.
  apply Z.eqb_neq in Hne. rewrite Hne. reflexivity.
Qed.

(** A write that reports nothing written, or an error, makes the flush fail
    and leaves the buffer and its counters as they were. *)
Lemma flush_failure_keeps_buffer (fh : FileHandle T) (rc : Z) (s' : T) :
  forReading fh = false -> bufpos fh <> buffill fh ->
  call_write IO (io fh)
             (buf_slice fh (bufpos fh) (u64 (buffill fh - bufpos fh)))
             (u64 (buffill fh - bufpos fh)) = (rc, s') ->
  rc <= 0 ->
  PHYSFS_flush IO fh = (false, set_io fh s').
Proof.
  intros Hr Hne Hw Hrc. rewrite flush_writes_pending by assumption.
  cbv zeta. rewrite Hw.
  destruct (rc <=? 0) eqn:E; [reflexivity | lia].
Qed.

(** Any positive count, also one below the number of pending bytes, makes
    the flush succeed and empty the buffer. *)
Lemma flush_positive_count_succeeds (fh : FileHandle T) (rc : Z) (s' : T) :
  forReading fh = false -> bufpos fh <> buffill fh ->
  call_write IO (io fh)
             (buf_slice fh (bufpos fh) (u64 (buffill fh - bufpos fh)))
             (u64 (buffill fh - bufpos fh)) = (rc, s') ->
  0 < rc ->
  PHYSFS_flush IO fh = (true, set_buffill (set_bufpos (set_io fh s') 0) 0).
Proof.
  intros Hr Hne Hw Hrc. rewrite flush_writes_pending by assumption.
  cbv zeta. rewrite Hw.
  destruct (rc <=? 0) eqn:E; [lia | reflexivity].
Qed.

(* --------------------------------------------------------------------- *)
(** ** PHYSFS_seek *)
(* --------------------------------------------------------------------- *)

Lemma s64_high (x : Z) : 2 ^ 63 <= x < 2 ^ 64 -> s64 x = x - 2 ^ 64.
Proof.
  intros H. unfold s64.
  replace (x + 2 ^ 63) with ((x - 2 ^ 63) + 1 * 2 ^ 64) by lia.
  rewrite Z_mod_plus_full, Z.mod_small by lia. lia.
Qed.

(** C5.  For a handle opened for reading that has a buffer, whose counters
    are in order and whose stream stands at or after the bytes it has
    buffered: PHYSFS_seek to a position inside
    [tell - bufpos, tell - bufpos + buffill] returns success and changes
    bufpos only (the stream and so io.tell(), the buffer, buffill and
    bufsize stay as they were, and tell becomes the position); a position
    outside that range zeroes buffill and bufpos and seeks the stream to the
    position, returning what that seek returns. *)
Theorem seek_within_buffer (fh : FileHandle T) (b : list byte) (pos : Z) :
  forReading fh = true ->
  buffer fh = Some b ->
  handle_wf fh ->
  buffill fh <= io_tell IO (io fh) < 2 ^ 63 ->
  0 <= pos < 2 ^ 64 ->
  (PHYSFS_tell IO fh - bufpos fh <= pos
     <= PHYSFS_tell IO fh - bufpos fh + buffill fh ->
   PHYSFS_seek IO fh pos =
     (true, set_bufpos fh (pos - (PHYSFS_tell IO fh - bufpos fh)))
   /\ PHYSFS_tell IO (snd (PHYSFS_seek IO fh pos)) = pos)
  /\ (~ (PHYSFS_tell IO fh - bufpos fh <= pos
          <= PHYSFS_tell IO fh - bufpos fh + buffill fh) ->
      PHYSFS_seek IO fh pos =
        (fst (io_seek IO (io fh) pos),
         set_io (set_bufpos (set_buffill fh 0) 0)
                (snd (io_seek IO (io fh) pos)))).
Proof.
  intros Hr Hb Hwf0 Hio Hpos.
  pose proof Hwf0 as Hwf. unfold handle_wf in Hwf.
  assert (Ht : PHYSFS_tell IO fh = io_tell IO (io fh) - buffill fh + bufpos fh).
  { rewrite tell_exact; [unfold logical_pos; now rewrite Hr | exact Hwf0 | lia |].
    rewrite Hr. discriminate. }
  unfold PHYSFS_seek. rewrite (flush_reading fh Hr). cbn [negb].
  rewrite Hb, Hr, Ht.
  set (t := io_tell IO (io fh) - buffill fh + bufpos fh) in *.
  rewrite s64_u64.
  split.
  - intros Hin.
    rewrite (s64_small (pos - t)) by lia.
    assert (Hc : ((pos - t >=? 0) && (u64 (pos - t) <=? u64 (buffill fh - bufpos fh))
                  || (pos - t <? 0) && (u64 (- (pos - t)) <=? bufpos fh)) = true).
    { rewrite (u64_small (buffill fh - bufpos fh)) by lia.
      destruct (Z_lt_dec (pos - t) 0) as [Hn | Hp].
      - rewrite (u64_small (- (pos - t))) by lia.
        apply orb_true_iff. right. apply andb_true_iff. split; lia.
      - rewrite (u64_small (pos - t)) by lia.
        apply orb_true_iff. left. apply andb_true_iff. split; lia. }
    rewrite Hc.
    replace (u64 (bufpos fh + (pos - t))) with (pos - (t - bufpos fh))
      by (rewrite u64_small by lia; lia).
    split; [reflexivity|].
    cbn [snd]. rewrite tell_exact.
    + unfold logical_pos. simpl. rewrite Hr. unfold t. lia.
    + unfold handle_wf. simpl. lia.
    + simpl. lia.
    + simpl. rewrite Hr. discriminate.
  - intros Hout.
    assert (Hc : ((s64 (pos - t) >=? 0)
                    && (u64 (s64 (pos - t)) <=? u64 (buffill fh - bufpos fh))
                  || (s64 (pos - t) <? 0)
                    && (u64 (- s64 (pos - t)) <=? bufpos fh)) = false).
    { rewrite (u64_small (buffill fh - bufpos fh)) by lia.
      destruct (Z_lt_dec (pos - t) (2 ^ 63)) as [Hs | Hh].
      - rewrite (s64_small (pos - t)) by lia.
        destruct (Z_lt_dec (pos - t) 0) as [Hn | Hp].
        + rewrite (u64_small (- (pos - t))) by lia.
          apply orb_false_iff. split; apply andb_false_iff; [left | right]; lia.
        + rewrite (u64_small (pos - t)) by lia.
          apply orb_false_iff. split; apply andb_false_iff; [right | left]; lia.
      - rewrite (s64_high (pos - t)) by lia.
        rewrite (u64_small (- (pos - t - 2 ^ 64))) by lia.
        apply orb_false_iff. split; apply andb_false_iff; [left | right]; lia. }
    rewrite Hc.
    simpl. destruct (io_seek IO (io fh) pos) as [r s']. reflexivity.
Qed.


(** *** The stream stays ahead of the buffer *)

Lemma call_read_inv (s : T) (len rc : Z) (data : list byte) (s' : T) :
  call_read IO s len = (rc, data, s') ->
  exists rc0, io_read IO s len = (rc0, data, s') /\ rc = s64 rc0.
Proof.
  unfold call_read. destruct (io_read IO s len) as [[rc0 d0] s0].
  intros H. inversion H; subst. exists rc0. split; reflexivity.
Qed.

Lemma doBufferedRead_loop_ahead (fh : FileHandle T) (out : list byte)
  (len retval : Z) :
  read_contract IO ->
  stream_ahead IO fh ->
  stream_ahead IO (snd (doBufferedRead_loop IO fh out len retval)).
Proof.
  funelim (doBufferedRead_loop IO fh out len retval); intros Hc Hah.
  - exact Hah.
  - apply H; assumption.
  - apply H; [exact Hc|]. clear H Heqcall.
    pose proof (call_read_range IO _ _ _ _ _ Heq) as Hrange.
    destruct (call_read_inv _ _ _ _ _ Heq) as [rc0 [Er Hrc0]].
    destruct Hah as [Hge Hle].
    destruct (Hc _ _ _ _ _ Er Hge) as [Hpos _].
    rewrite <- Hrc0 in Hpos.
    unfold stream_ahead. simpl. rewrite u64_small by lia.
    rewrite Hpos by lia. lia.
  - clear Heqcall.
    destruct (call_read_inv _ _ _ _ _ Heq) as [rc0 [Er Hrc0]].
    destruct Hah as [Hge Hle].
    destruct (Hc _ _ _ _ _ Er Hge) as [_ Hneg].
    rewrite <- Hrc0 in Hneg.
    unfold stream_ahead. simpl. specialize (Hneg ltac:(lia)). lia.
Qed.

End FileHandleProps.

(** The in-memory stream keeps to the contract of [read]. *)
Lemma memIo_read_contract : read_contract memIo.
Proof.
  intros [bytes cur] len rc data s' Hr Hcur. cbn in Hr, Hcur.
  inversion Hr; subst. cbn.
  set (got := firstn (Z.to_nat (Z.min len maxlen)) (skipn (Z.to_nat cur) bytes)).
  assert (Hn : (0 <= Z.of_nat (List.length got) <= maxlen)%Z).
  { split; [lia|]. unfold got. rewrite length_firstn. unfold maxlen. lia. }
  unfold maxlen in Hn. rewrite s64_small by lia.
  split; intros; lia.
Qed.

(* --------------------------------------------------------------------- *)
(** ** The mount stack *)
(* --------------------------------------------------------------------- *)

Lemma N_of_ascii_inj (c d : ascii) : N_of_ascii c = N_of_ascii d -> c = d.
Proof.
  intros H. rewrite <- (ascii_N_embedding c), <- (ascii_N_embedding d).
  now rewrite H.
Qed.

Lemma strcmp_eq (a b : string) : strcmp a b = 0%Z <-> a = b.
Proof.
  revert b. induction a as [|c a IH]; intros [|d b]; simpl.
  - tauto.
  - split; discriminate.
  - split; discriminate.
  - destruct (N.compare (N_of_ascii c) (N_of_ascii d)) eqn:E.
    + apply N.compare_eq in E. apply N_of_ascii_inj in E. subst d.
      rewrite IH. split; [now intros -> | now intros [= ->]].
    + split; [discriminate|]. intros [= -> ->].
      rewrite N.compare_refl in E. discriminate.
    + split; [discriminate|]. intros [= -> ->].
      rewrite N.compare_refl in E. discriminate.
Qed.

Lemma strcmp_refl (a : string) : strcmp a a = 0%Z.
Proof. now apply strcmp_eq. Qed.

Section MountProps.

Context {T : Type}.
Variable IO : PHYSFS_Io T.
Variable P : Platform T.

Lemma dirName_is_true (name : string) (i : @DirHandle T) :
  dirName_is name i = true <-> dirName i = Some name.
Proof.
  unfold dirName_is. destruct (dirName i) as [n|].
  - rewrite Z.eqb_eq, strcmp_eq. split; [now intros -> | now intros [= ->]].
  - split; discriminate.
Qed.

Lemma createDirHandle_dirName (io : option T) (newDir : string)
  (mp : option string) (fw : bool) (e e' : Env) (dh : DirHandle) :
  createDirHandle IO P io newDir mp fw e = (Some dh, e') ->
  dirName dh = Some newDir.
Proof.
  unfold createDirHandle.
  destruct (match mp with
            | Some m => match sanitizePlatformIndependentPath m with
                        | Ok m' => Ok (Some m')
                        | Err c => Err c
                        end
            | None => Ok None
            end) as [m | c]; [|discriminate].
  destruct (openDirectory IO P io newDir fw e) as [[h|] e1]; [|discriminate].
  intros H. inversion H; subst. reflexivity.
Qed.

(** C8.  A mount of a name that some handle of the search path already
    carries as its dirName returns success and leaves the drive, and so the
    search path, as it was, whatever the mountpoint and the append flag; a
    mount of another name that succeeds puts the new handle after the old
    search path when appendToPath is nonzero and before it otherwise. *)
Theorem mount_duplicate_and_placement (io : option T) (fname : string)
  (d : Drive) :
  (forall dh mountPoint appendToPath,
      In dh (searchPath d) -> dirName dh = Some fname ->
      doMount IO P io (Some fname) mountPoint appendToPath d = (true, d))
  /\
  (forall mountPoint appendToPath d',
      (forall dh, In dh (searchPath d) -> dirName dh <> Some fname) ->
      doMount IO P io (Some fname) mountPoint appendToPath d = (true, d') ->
      exists dh,
        dirName dh = Some fname /\
        searchPath d' = if appendToPath then (searchPath d ++ [dh])%list
                        else dh :: searchPath d).
Proof.
  split.
  - intros dh mp app Hin Hname. unfold doMount.
    assert (Hex : existsb (dirName_is fname) (searchPath d) = true).
    { apply existsb_exists. exists dh. split; [exact Hin|].
      now apply dirName_is_true. }
    now rewrite Hex.
  - intros mp app d' Hnone. unfold doMount.
    assert (Hex : existsb (dirName_is fname) (searchPath d) = false).
    { destruct (existsb (dirName_is fname) (searchPath d)) eqn:E; auto.
      apply existsb_exists in E. destruct E as [dh [Hin Hn]].
      apply dirName_is_true in Hn. exfalso. eapply Hnone; eauto. }
    rewrite Hex.
    destruct (createDirHandle IO P io fname _ false (env d)) as [[dh|] e1] eqn:E;
      [|discriminate].
    intros H. inversion H; subst. exists dh. split.
    + eapply createDirHandle_dirName; eauto.
    + destruct app; reflexivity.
Qed.

(** A handle that PHYSFS_openRead returns is at the head of the read list,
    is opened for reading and has no buffer and zeroed counters. *)
Lemma openRead_handle (name : option string) (d d' : Drive) (fh : FileHandle T) :
  PHYSFS_openRead name d = (Some fh, d') ->
  openReadList d' = fh :: openReadList d /\
  forReading fh = true /\ buffer fh = None /\ handle_wf fh.
Proof.
  unfold PHYSFS_openRead. destruct name as [n|]; [|discriminate].
  destruct (sanitizePlatformIndependentPath n) as [fname | c]; [|discriminate].
  destruct (searchPath d) as [|i sp]; [discriminate|].
  destruct (openRead_loop (allowSymLinks d) fname (i :: sp) (env d))
    as [[[s j]|] e]; [|discriminate].
  cbn. intros H. inversion H; subst. cbn.
  repeat split; unfold handle_wf; simpl; lia.
Qed.

(** *** PHYSFS_unmount *)

Lemma freeDirHandle_busy (dh : DirHandle) (l : list (FileHandle T)) (e : Env) :
  (exists fh, In fh l /\ dirHandle fh = dh_addr dh) ->
  freeDirHandle (Some dh) l e =
  (false, PHYSFS_setErrorCode PHYSFS_ERR_FILES_STILL_OPEN e).
Proof.
  intros [fh [Hin Href]]. unfold freeDirHandle.
  assert (Hex : existsb (fun i => Nat.eqb (dirHandle i) (dh_addr dh)) l = true).
  { apply existsb_exists. exists fh. split; [exact Hin|].
    now apply Nat.eqb_eq. }
  now rewrite Hex.
Qed.

Lemma freeDirHandle_free (dh : DirHandle) (l : list (FileHandle T)) (e : Env) :
  (forall fh, In fh l -> dirHandle fh <> dh_addr dh) ->
  freeDirHandle (Some dh) l e =
  (true, closeArchive (funcs dh) (opaque dh) (log (EvCloseArchive (opaque dh)) e)).
Proof.
  intros Hnone. unfold freeDirHandle.
  assert (Hex : existsb (fun i => Nat.eqb (dirHandle i) (dh_addr dh)) l = false).
  { destruct (existsb _ l) eqn:E; auto.
    apply existsb_exists in E. destruct E as [fh [Hin Hn]].
    apply Nat.eqb_eq in Hn. exfalso. eapply Hnone; eauto. }
  now rewrite Hex.
Qed.

Lemma unmount_loop_first (name : string) (pre post : list DirHandle)
  (dh : DirHandle) (l : list (FileHandle T)) (e : Env) :
  dirName dh = Some name ->
  (forall x, In x pre -> dirName x <> Some name) ->
  unmount_loop name (pre ++ dh :: post) l e =
  match freeDirHandle (Some dh) l e with
  | (false, e') => Some (false, (pre ++ dh :: post)%list, e')
  | (true, e') => Some (true, (pre ++ post)%list, e')
  end.
Proof.
  intros Hname. induction pre as [|x pre IH]; intros Hpre.
  - cbn [app unmount_loop]. rewrite Hname, strcmp_refl. reflexivity.
  - cbn [app unmount_loop].
    assert (Hx : match dirName x with
                 | Some n => (strcmp n name =? 0)%Z
                 | None => false
                 end = false).
    { destruct (dirName x) as [n|] eqn:En; [|reflexivity].
      apply Z.eqb_neq. rewrite strcmp_eq. intros ->.
      apply (Hpre x); [now left | exact En]. }
    rewrite Hx, IH by (intros y Hy; apply Hpre; now right).
    destruct (freeDirHandle (Some dh) l e) as [[|] e']; reflexivity.
Qed.


(** Closing a handle of the read list releases its stream and takes it off
    the list. *)
Lemma closeHandle_read (l : list (FileHandle T)) (a : nat) (e : Env) :
  Forall (fun fh => forReading fh = true) l ->
  In a (map (@fh_addr T) l) ->
  exists e', closeHandleInOpenList IO l a e = (1%Z, remove_addr a l, e').
Proof.
  induction l as [|i l IH]; intros Hall Hin; [destruct Hin|].
  inversion Hall as [|? ? Hi Hl]; subst.
  cbn [closeHandleInOpenList remove_addr].
  destruct (Nat.eqb (fh_addr i) a) eqn:E.
  - rewrite Hi. cbn. eexists. reflexivity.
  - destruct Hin as [Hin | Hin].
    + apply Nat.eqb_neq in E. contradiction.
    + destruct (IH Hl Hin) as [e' He']. rewrite He'. eexists. reflexivity.
Qed.

Lemma close_read_handle (a : nat) (d : Drive) :
  Forall (fun fh => forReading fh = true) (openReadList d) ->
  In a (map (@fh_addr T) (openReadList d)) ->
  exists e',
    PHYSFS_close IO a d =
    (true, set_openReadList (set_env d e') (remove_addr a (openReadList d))).
Proof.
  intros Hall Hin. unfold PHYSFS_close.
  destruct (closeHandle_read (openReadList d) a (env d) Hall Hin) as [e' He'].
  rewrite He'. cbn. exists e'. reflexivity.
Qed.

Lemma remove_addr_in (a : nat) (l : list (FileHandle T)) (i : FileHandle T) :
  NoDup (map (@fh_addr T) l) ->
  In i (remove_addr a l) -> In i l /\ fh_addr i <> a.
Proof.
  induction l as [|j l IH]; intros Hnd Hin; [destruct Hin|].
  cbn [map] in Hnd. inversion Hnd as [|? ? Hj Hl]; subst.
  cbn [remove_addr] in Hin.
  destruct (Nat.eqb (fh_addr j) a) eqn:E.
  - apply Nat.eqb_eq in E. split; [now right|].
    intros Hi. apply Hj. rewrite E, <- Hi. now apply in_map.
  - destruct Hin as [-> | Hin].
    + split; [now left | now apply Nat.eqb_neq].
    + destruct (IH Hl Hin). split; [now right | assumption].
Qed.

Lemma remove_addr_keeps (a b : nat) (l : list (FileHandle T)) :
  a <> b -> In b (map (@fh_addr T) l) ->
  In b (map (@fh_addr T) (remove_addr a l)).
Proof.
  intros Hab. induction l as [|j l IH]; intros Hin; [destruct Hin|].
  cbn [remove_addr]. destruct (Nat.eqb (fh_addr j) a) eqn:E.
  - apply Nat.eqb_eq in E. destruct Hin as [Hin | Hin]; [congruence | exact Hin].
  - destruct Hin as [Hin | Hin]; [now left | right; auto].
Qed.

Lemma remove_addr_NoDup (a : nat) (l : list (FileHandle T)) :
  NoDup (map (@fh_addr T) l) -> NoDup (map (@fh_addr T) (remove_addr a l)).
Proof.
  induction l as [|j l IH]; intros Hnd; [exact Hnd|].
  cbn [map] in Hnd. inversion Hnd as [|? ? Hj Hl]; subst.
  cbn [remove_addr]. destruct (Nat.eqb (fh_addr j) a) eqn:E; [exact Hl|].
  cbn [map]. constructor; [|auto].
  intros Hin. apply Hj.
  apply in_map_iff in Hin. destruct Hin as [x [Hx Hin]].
  destruct (remove_addr_in a l x Hl Hin) as [Hin' _].
  rewrite <- Hx. now apply in_map.
Qed.

Lemma remove_addr_Forall (Q : FileHandle T -> Prop) (a : nat)
  (l : list (FileHandle T)) :
  Forall Q l -> Forall Q (remove_addr a l).
Proof.
  induction 1 as [|j l Hj Hl IH]; [constructor|].
  cbn [remove_addr]. destruct (Nat.eqb (fh_addr j) a); [exact Hl|].
  constructor; assumption.
Qed.

Lemma close_handles_spec (handles : list nat) :
  forall d : Drive,
    Forall (fun fh => forReading fh = true) (openReadList d) ->
    NoDup (map (@fh_addr T) (openReadList d)) ->
    NoDup handles ->
    (forall a, In a handles -> In a (map (@fh_addr T) (openReadList d))) ->
    searchPath (close_handles IO handles d) = searchPath d /\
    forall i, In i (openReadList (close_handles IO handles d)) ->
              In i (openReadList d) /\ ~ In (fh_addr i) handles.
Proof.
  induction handles as [|a handles IH]; intros d Hall Hnd Hh Hsub.
  - split; [reflexivity|]. intros i Hi. split; [exact Hi | intros []].
  - cbn [close_handles fold_left].
    destruct (close_read_handle a d Hall (Hsub a (or_introl eq_refl)))
      as [e' He'].
    rewrite He'. cbn [snd].
    inversion Hh as [|? ? Ha Hh']; subst.
    set (d1 := set_openReadList (set_env d e') (remove_addr a (openReadList d))).
    assert (Hl1 : openReadList d1 = remove_addr a (openReadList d)) by reflexivity.
    destruct (IH d1) as [Hsp Hrest].
    + rewrite Hl1. now apply remove_addr_Forall.
    + rewrite Hl1. now apply remove_addr_NoDup.
    + exact Hh'.
    + intros b Hb. rewrite Hl1. apply remove_addr_keeps.
      * intros ->. contradiction.
      * apply Hsub. now right.
    + fold (close_handles IO handles d1).
      split; [rewrite Hsp; reflexivity|].
      intros i Hi. destruct (Hrest i Hi) as [Hin1 Hnot].
      rewrite Hl1 in Hin1.
      destruct (remove_addr_in a _ i Hnd Hin1) as [Hin Hne].
      split; [exact Hin|]. intros [Heq | Hin']; [congruence | contradiction].
Qed.

Lemma NoDup_map_filter {A B : Type} (f : A -> B) (q : A -> bool) (l : list A) :
  NoDup (map f l) -> NoDup (map f (filter q l)).
Proof.
  induction l as [|x l IH]; intros Hnd; [exact Hnd|].
  cbn [map] in Hnd. inversion Hnd as [|? ? Hx Hl]; subst.
  cbn [filter]. destruct (q x); [|auto].
  cbn [map]. constructor; [|auto].
  intros Hin. apply Hx. apply in_map_iff in Hin.
  destruct Hin as [y [Hy Hin]]. apply filter_In in Hin.
  rewrite <- Hy. apply in_map. tauto.
Qed.

(** C6.  Let the handle that unmount finds for a name be the first of the
    search path that carries it.  While some handle of the open read list
    refers to it, PHYSFS_unmount fails with FILES_STILL_OPEN and the drive
    keeps its search path; once PHYSFS_close has been called on every such
    handle, the same call succeeds, the handle is gone from the search path
    and closeArchive has been called on its instance data. *)
Theorem unmount_refuses_open_handles (name : string)
  (pre post : list DirHandle) (dh : DirHandle) (d : Drive) :
  searchPath d = (pre ++ dh :: post)%list ->
  dirName dh = Some name ->
  (forall x, In x pre -> dirName x <> Some name) ->
  NoDup (map (@fh_addr T) (openReadList d)) ->
  Forall (fun fh => forReading fh = true) (openReadList d) ->
  ((exists fh, In fh (openReadList d) /\ dirHandle fh = dh_addr dh) ->
   PHYSFS_unmount (Some name) d = (false, bail PHYSFS_ERR_FILES_STILL_OPEN d))
  /\
  (let d1 := close_handles IO (referencing dh d) d in
   PHYSFS_unmount (Some name) d1 =
   (true,
    set_searchPath
      (set_env d1 (closeArchive (funcs dh) (opaque dh)
                                (log (EvCloseArchive (opaque dh)) (env d1))))
      (pre ++ post)%list)).
Proof.
  intros Hsp Hname Hpre Hnd Hall. split.
  - intros Hbusy. unfold PHYSFS_unmount.
    rewrite Hsp, unmount_loop_first by assumption.
    rewrite freeDirHandle_busy by assumption.
    unfold bail. rewrite <- Hsp. destruct d; reflexivity.
  - intros d1.
    destruct (close_handles_spec (referencing dh d) d Hall Hnd) as [Hsp1 Hl1].
    + unfold referencing. now apply NoDup_map_filter.
    + intros a Ha. unfold referencing in Ha.
      apply in_map_iff in Ha. destruct Ha as [x [Hx Hin]].
      apply filter_In in Hin. rewrite <- Hx. apply in_map. tauto.
    + fold d1 in Hsp1, Hl1. unfold PHYSFS_unmount.
      rewrite Hsp1, Hsp, unmount_loop_first by assumption.
      rewrite freeDirHandle_free; [reflexivity|].
      intros fh Hin Href. destruct (Hl1 fh Hin) as [Hin0 Hnot].
      apply Hnot. unfold referencing. apply in_map.
      apply filter_In. split; [exact Hin0 | now apply Nat.eqb_eq].
Qed.

End MountProps.

(* --------------------------------------------------------------------- *)
(** ** openDirectory *)
(* --------------------------------------------------------------------- *)

Section OpenDirectoryProps.

Context {T : Type}.
Variable IO : PHYSFS_Io T.
Variable P : Platform T.

Lemma errcode_set (c : PHYSFS_ErrorCode) (e : @Env T) :
  c <> PHYSFS_ERR_OK -> errcode (PHYSFS_setErrorCode c e) = c.
Proof.
  intros Hc. unfold PHYSFS_setErrorCode.
  destruct (errcode_eqb c PHYSFS_ERR_OK) eqn:E; [|reflexivity].
  apply errcode_eqb_eq in E. contradiction.
Qed.

Lemma trace_set (c : PHYSFS_ErrorCode) (e : @Env T) :
  trace (PHYSFS_setErrorCode c e) = trace e.
Proof.
  unfold PHYSFS_setErrorCode. destruct (errcode_eqb c PHYSFS_ERR_OK); reflexivity.
Qed.

Lemma filetype_eqb_eq (a b : PHYSFS_FileType) : filetype_eqb a b = true <-> a = b.
Proof. destruct a, b; simpl; split; intros H; try reflexivity; discriminate H. Qed.



End OpenDirectoryProps.

(* --------------------------------------------------------------------- *)
(** ** verifyPath *)
(* --------------------------------------------------------------------- *)

Section VerifyPathProps.

Context {T : Type}.

Lemma verify_segments_symlink (h : @DirHandle T) (allowMissing : bool) :
  forall (cuts : list string) (e : Env) (k : nat) (name : string),
    nth_error cuts k = Some name ->
    stats_as_symlink h name ->
    (forall j n, j < k -> nth_error cuts j = Some n -> stats_as_other h n) ->
    fst (verify_segments h allowMissing cuts e) = false /\
    errcode (snd (verify_segments h allowMissing cuts e))
    = PHYSFS_ERR_SYMLINK_FORBIDDEN.
Proof.
  induction cuts as [|n0 rest IH]; intros e k name Hk Hlink Hbefore.
  - destruct k; discriminate Hk.
  - cbn [verify_segments]. unfold call_stat.
    set (e0 := log (EvStat (opaque h) n0) e).
    destruct k as [|k].
    + cbn in Hk. inversion Hk; subst n0.
      destruct (Hlink e0) as [Hrc Hft].
      destruct (stat (funcs h) (opaque h) name e0) as [[rc sb] e1].
      cbn in Hrc, Hft. subst rc. rewrite Hft. cbn.
      split; reflexivity.
    + cbn in Hk.
      destruct (Hbefore 0 n0 ltac:(lia) eq_refl e0) as [Hrc Hft].
      destruct (stat (funcs h) (opaque h) n0 e0) as [[rc sb] e1].
      cbn in Hrc, Hft. subst rc.
      assert (Hne : filetype_eqb (filetype sb) PHYSFS_FILETYPE_SYMLINK = false).
      { destruct (filetype_eqb (filetype sb) PHYSFS_FILETYPE_SYMLINK) eqn:E; auto.
        apply filetype_eqb_eq in E. contradiction. }
      rewrite Hne. cbn.
      destruct rest as [|n1 rest']; [destruct k; discriminate Hk|].
      apply (IH e1 k name Hk Hlink).
      intros j n Hj Hn. apply (Hbefore (S j) n); [lia | exact Hn].
Qed.

(** C7 (as amended).  With symbolic links disallowed, verifyPath stats the
    elements of the mountpoint-relative path in turn and fails with
    SYMLINK_FORBIDDEN as soon as one of them, the last one included, stats as
    a symbolic link, every element before it having been found to be
    something else. *)
Theorem verifyPath_symlink_forbidden (h : @DirHandle T) (fname rel : string)
  (allowMissing : bool) (e : Env) (k : nat) (name : string) :
  fname <> "" ->
  skip_mountPoint h fname = Some rel ->
  nth_error (path_cuts "" rel) k = Some name ->
  stats_as_symlink h name ->
  (forall j n, j < k -> nth_error (path_cuts "" rel) j = Some n ->
               stats_as_other h n) ->
  fst (fst (verifyPath false h fname allowMissing e)) = false /\
  errcode (snd (verifyPath false h fname allowMissing e))
  = PHYSFS_ERR_SYMLINK_FORBIDDEN.
Proof.
  intros Hne Hmp Hk Hlink Hbefore.
  unfold verifyPath. destruct fname as [|c f]; [contradiction|].
  rewrite Hmp. cbn [negb].
  destruct (verify_segments_symlink h allowMissing (path_cuts "" rel) e k name
              Hk Hlink Hbefore) as [H1 H2].
  destruct (verify_segments h allowMissing (path_cuts "" rel) e) as [r e'].
  cbn in *. auto.
Qed.

(* --------------------------------------------------------------------- *)
(** ** A path that fails sanitization: PHYSFS_enumerate and PHYSFS_openRead *)
(* --------------------------------------------------------------------- *)

(** For a path that sanitizePlatformIndependentPath does reject,
    PHYSFS_enumerate returns 1 and hands back the callback data untouched,
    PHYSFS_openRead returns NULL, and both leave the drive as it was but for
    the error code BAD_FILENAME: no callback has been invoked and no archive
    has been consulted, as nothing was added to the record of calls. *)
Theorem enumerate_and_openRead_on_rejected_path {D : Type} (s : string)
  (c : PHYSFS_ErrorCode) (cb : EnumerateCallback D) (data : D) (d : @Drive T) :
  sanitizePlatformIndependentPath s = Err c ->
  PHYSFS_enumerate (Some s) (Some cb) data d
  = (true, data, bail PHYSFS_ERR_BAD_FILENAME d)
  /\ PHYSFS_openRead (Some s) d = (None, bail PHYSFS_ERR_BAD_FILENAME d)
  /\ trace (env (bail PHYSFS_ERR_BAD_FILENAME d)) = trace (env d)
  /\ errcode (env (bail PHYSFS_ERR_BAD_FILENAME d)) = PHYSFS_ERR_BAD_FILENAME.
Proof.
  intros Hs. pose proof (sanitize_err s c Hs) as Hc. subst c.
  unfold PHYSFS_enumerate, PHYSFS_openRead. rewrite Hs.
  repeat split.
Qed.

End VerifyPathProps.

(* --------------------------------------------------------------------- *)
(** ** PHYSFS_enumerateFiles *)
(* --------------------------------------------------------------------- *)

Lemma strcmp_values (a b : string) :
  strcmp a b = (-1)%Z \/ strcmp a b = 0%Z \/ strcmp a b = 1%Z.
Proof.
  revert b. induction a as [|c a IH]; intros [|d b]; simpl; auto.
  destruct (N.compare (N_of_ascii c) (N_of_ascii d)); auto.
Qed.

Lemma strcmp_antisym (a b : string) : strcmp b a = (- strcmp a b)%Z.
Proof.
  revert b. induction a as [|c a IH]; intros [|d b]; simpl; try reflexivity.
  rewrite (N.compare_antisym (N_of_ascii c) (N_of_ascii d)).
  destruct (N.compare (N_of_ascii c) (N_of_ascii d)); simpl; auto.
Qed.

Lemma slt_trans (a b c : string) : slt a b -> slt b c -> slt a c.
Proof.
  unfold slt. revert b c.
  induction a as [|x a IH]; intros [|y b] [|z c]; simpl; try lia.
  destruct (N.compare (N_of_ascii x) (N_of_ascii y)) eqn:Exy;
    destruct (N.compare (N_of_ascii y) (N_of_ascii z)) eqn:Eyz; try lia.
  - apply N.compare_eq in Exy, Eyz.
    rewrite Exy, Eyz, N.compare_refl. apply IH.
  - apply N.compare_eq in Exy. rewrite Exy, Eyz. lia.
  - apply N.compare_eq in Eyz. rewrite <- Eyz, Exy. lia.
  - rewrite N.compare_lt_iff in Exy, Eyz.
    assert (H : (N_of_ascii x < N_of_ascii z)%N) by lia.
    rewrite <- N.compare_lt_iff in H. rewrite H. lia.
Qed.

Lemma slt_irrefl (a : string) : ~ slt a a.
Proof. unfold slt. rewrite strcmp_refl. lia. Qed.

Lemma slt_gt (a b : string) : (strcmp a b > 0)%Z -> slt b a.
Proof. unfold slt. rewrite (strcmp_antisym a b). lia. Qed.

Lemma skipn_nth_cons {A : Type} (n : nat) (l : list A) (d : A) :
  n < List.length l -> skipn n l = nth n l d :: skipn (S n) l.
Proof.
  revert l. induction n as [|n IH]; intros [|x l] Hn; simpl in *; try lia.
  - reflexivity.
  - apply IH. lia.
Qed.

Lemma firstn_S_nth {A : Type} (n : nat) (l : list A) (d : A) :
  n < List.length l -> firstn (S n) l = (firstn n l ++ [nth n l d])%list.
Proof.
  revert l. induction n as [|n IH]; intros [|x l] Hn; simpl in *; try lia.
  - reflexivity.
  - f_equal. apply IH. lia.
Qed.

Lemma sorted_app_inv (l1 l2 : list string) :
  StronglySorted slt (l1 ++ l2) ->
  StronglySorted slt l1 /\ StronglySorted slt l2 /\
  Forall (fun x => Forall (slt x) l2) l1.
Proof.
  induction l1 as [|x l1 IH]; simpl; intros H.
  - repeat split; [constructor | exact H | constructor].
  - inversion H as [|? ? Hs Hx]; subst.
    destruct (IH Hs) as [H1 [H2 H3]].
    apply Forall_app in Hx. destruct Hx as [Hx1 Hx2].
    repeat split; [constructor; assumption | assumption | constructor; assumption].
Qed.

Lemma sorted_insert (l1 l2 : list string) (x : string) :
  StronglySorted slt (l1 ++ l2) ->
  Forall (fun y => slt y x) l1 -> Forall (slt x) l2 ->
  StronglySorted slt (l1 ++ x :: l2).
Proof.
  induction l1 as [|y l1 IH]; simpl; intros Hs H1 H2.
  - constructor; assumption.
  - inversion Hs as [|? ? Hs' Hy]; subst.
    inversion H1 as [|? ? Hyx H1']; subst.
    constructor; [apply IH; assumption|].
    apply Forall_app in Hy. destruct Hy as [Hy1 Hy2].
    apply Forall_app. split; [assumption|]. constructor; assumption.
Qed.

Lemma locate_loop_spec (str : string) (l : list string) (len lo : Z) :
  StronglySorted slt l ->
  (0 <= lo)%Z -> (0 <= len)%Z ->
  (lo + len <= Z.of_nat (List.length l))%Z ->
  (Z.of_nat (List.length l) < 2 ^ 32)%Z ->
  Forall (fun y => slt y str) (firstn (Z.to_nat lo) l) ->
  Forall (slt str) (skipn (Z.to_nat (lo + len)) l) ->
  match locate_loop str l len lo with
  | None => In str l
  | Some p =>
      (0 <= p <= Z.of_nat (List.length l))%Z /\
      Forall (fun y => slt y str) (firstn (Z.to_nat p) l) /\
      Forall (slt str) (skipn (Z.to_nat p) l)
  end.
Proof.
  funelim (locate_loop str l len lo); intros Hs Hlo Hl0 Hb Hsz Hlt Hgt.
  - clear Heq Heqcall.
    assert (Hhalf : Z.shiftr len 1 = (len / 2)%Z).
    { rewrite Z.shiftr_div_pow2 by lia. reflexivity. }
    rewrite Hhalf in *.
    assert (Hh : (0 <= len / 2 < len)%Z).
    { split; [apply Z.div_pos; lia | apply Z.div_lt; lia]. }
    rewrite (u32_small (lo + len / 2)) in * by lia.
    set (mid := (lo + len / 2)%Z) in *.
    assert (Hmid : Z.to_nat mid < List.length l) by lia.
    pose proof (firstn_skipn (Z.to_nat mid) l) as Hsplit.
    rewrite (skipn_nth_cons (Z.to_nat mid) l "" Hmid) in Hsplit.
    set (x := nth (Z.to_nat mid) l "") in *.
    assert (Hparts : StronglySorted slt (firstn (Z.to_nat mid) l) /\
                     Forall (slt x) (skipn (S (Z.to_nat mid)) l) /\
                     Forall (fun y => slt y x) (firstn (Z.to_nat mid) l)).
    { rewrite <- Hsplit in Hs. apply sorted_app_inv in Hs.
      destruct Hs as [H1 [H2 H3]].
      inversion H2 as [|? ? H2a H2b]; subst.
      repeat split; [assumption | assumption |].
      eapply Forall_impl; [|exact H3].
      intros y Hy. now inversion Hy. }
    destruct Hparts as [_ [Hafter Hbefore]].
    destruct (strcmp x str =? 0)%Z eqn:E0.
    + apply Z.eqb_eq, strcmp_eq in E0. subst str.
      unfold x. now apply nth_In.
    + destruct (strcmp x str >? 0)%Z eqn:E1.
      * apply H; try assumption; try lia.
        fold mid. rewrite (skipn_nth_cons (Z.to_nat mid) l "" Hmid). fold x.
        assert (Hx : slt str x) by (apply slt_gt; lia).
        constructor; [exact Hx|].
        eapply Forall_impl; [|exact Hafter].
        intros y Hy. cbv beta in Hy. eapply slt_trans; eauto.
      * assert (Hx : slt x str).
        { unfold slt. apply Z.eqb_neq in E0.
          destruct (strcmp_values x str) as [Hv | [Hv | Hv]]; lia. }
        rewrite (u32_small (len / 2 + 1)) in * by lia.
        rewrite (u32_small (len - (len / 2 + 1))) in * by lia.
        rewrite (u32_small (mid + 1)) in * by lia.
        apply H0; try assumption; try lia.
        -- replace (Z.to_nat (mid + 1)) with (S (Z.to_nat mid)) by lia.
           rewrite (firstn_S_nth (Z.to_nat mid) l "" Hmid). fold x.
           apply Forall_app. split; [|constructor; [exact Hx | constructor]].
           eapply Forall_impl; [|exact Hbefore].
           intros y Hy. cbv beta in Hy. eapply slt_trans; eauto.
        -- replace (mid + 1 + (len - (len / 2 + 1)))%Z with (lo + len)%Z
             by (unfold mid; lia).
           exact Hgt.
  - assert (len = 0%Z) by lia. subst len.
    rewrite Z.add_0_r in Hgt.
    repeat split; try assumption; lia.
Qed.

Lemma locateInStringList_spec (str : string) (l : list string) :
  StronglySorted slt l ->
  (Z.of_nat (List.length l) < 2 ^ 32)%Z ->
  match locateInStringList str l (Z.of_nat (List.length l)) with
  | (true, _) => In str l
  | (false, p) =>
      (0 <= p <= Z.of_nat (List.length l))%Z /\
      Forall (fun y => slt y str) (firstn (Z.to_nat p) l) /\
      Forall (slt str) (skipn (Z.to_nat p) l)
  end.
Proof.
  intros Hs Hsz. unfold locateInStringList.
  pose proof (locate_loop_spec str l (Z.of_nat (List.length l)) 0 Hs) as H.
  destruct (locate_loop str l (Z.of_nat (List.length l)) 0).
  - apply H; try lia.
    + constructor.
    + rewrite skipn_all2 by lia. constructor.
  - apply H; try lia.
    + constructor.
    + rewrite skipn_all2 by lia. constructor.
Qed.

Section EnumerateProps.

Context {T : Type}.

Lemma enumFilesCallback_step (m : nat) (ecd : EnumStringListCallbackData)
  (origdir str : string) (e : @Env T) :
  (Z.of_nat m + 1 < 2 ^ 32)%Z ->
  ecd_ok m ecd ->
  ecd_ok (S m) (snd (fst (enumFilesCallback ecd origdir str e))).
Proof.
  intros Hm [Hs [Hsz Hlen]]. unfold enumFilesCallback.
  pose proof (locateInStringList_spec str (ecd_list ecd) Hs) as Hloc.
  rewrite <- Hsz in Hloc.
  destruct (locateInStringList str (ecd_list ecd) (ecd_size ecd)) as [found pos].
  destruct found.
  - cbn. repeat split; [assumption | assumption | lia].
  - destruct Hloc as [Hpos [Hlt Hgt]]; [lia|]. cbn.
    unfold ecd_ok, insert_at. cbn.
    assert (Hcut : firstn (Z.to_nat (ecd_size ecd - pos))
                          (skipn (Z.to_nat pos) (ecd_list ecd))
                   = skipn (Z.to_nat pos) (ecd_list ecd)).
    { apply firstn_all2. rewrite length_skipn. lia. }
    rewrite Hcut.
    assert (Hl : List.length (firstn (Z.to_nat pos) (ecd_list ecd)
                           ++ str :: skipn (Z.to_nat pos) (ecd_list ecd))
                 = S (List.length (ecd_list ecd))).
    { rewrite length_app, length_firstn.
      change (List.length (str :: skipn (Z.to_nat pos) (ecd_list ecd)))
        with (S (List.length (skipn (Z.to_nat pos) (ecd_list ecd)))).
      rewrite length_skipn. lia. }
    repeat split.
    + apply sorted_insert; [|assumption|assumption].
      now rewrite firstn_skipn.
    + rewrite Hl, Hsz. rewrite u32_small by lia. lia.
    + rewrite Hl. lia.
Qed.

(** Invariants of the callback data that every call of the callback
    advances by one step, up to a budget [B]. *)
Section Invariants.

Variable D : Type.
Variable Inv : nat -> D -> Prop.
Variable B : nat.
Variable cb : @EnumerateCallback T D.

Hypothesis Inv_mono : forall m n d, m <= n -> Inv m d -> Inv n d.
Hypothesis cb_step :
  forall m d o s e, m < B -> Inv m d -> Inv (S m) (snd (fst (cb d o s e))).

(** The step that leaves the data alone keeps the invariant. *)
Ltac keep_inv Hd := cbn; eapply Inv_mono; [|exact Hd]; lia.

Lemma invoke_step (m : nat) (d : D) (o s : string) (e : Env) :
  m < B -> Inv m d -> Inv (S m) (snd (fst (invoke cb d o s e))).
Proof. intros Hm Hd. unfold invoke. now apply cb_step. Qed.

Lemma deliver_entries_inv (D' : Type) (Inv' : nat -> D' -> Prop)
  (c : @EnumerateCallback T D') (origdir : string) :
  (forall m n d, m <= n -> Inv' m d -> Inv' n d) ->
  (forall m d o s e, m < B -> Inv' m d -> Inv' (S m) (snd (fst (c d o s e)))) ->
  forall (names : list string) (m : nat) (d : D') (e : Env),
    m + List.length names <= B ->
    Inv' m d ->
    Inv' (m + List.length names)
         (snd (fst (deliver_entries c origdir names d e))).
Proof.
  intros Hmono Hstep. induction names as [|n rest IH]; intros m d e Hb Hd.
  - cbn. eapply Hmono; [|exact Hd]. lia.
  - cbn [deliver_entries List.length] in *.
    pose proof (Hstep m d origdir n e ltac:(lia) Hd) as Hd1.
    destruct (c d origdir n e) as [[r d1] e1]. cbn [fst snd] in Hd1.
    destruct r; cbn [fst snd].
    + eapply Hmono; [|exact Hd1]. lia.
    + eapply Hmono; [|exact Hd1]. lia.
    + replace (m + S (List.length rest)) with (S m + List.length rest) by lia.
      apply IH; [lia | exact Hd1].
Qed.

Lemma enumerate_inv (D' : Type) (Inv' : nat -> D' -> Prop)
  (c : @EnumerateCallback T D') (f : PHYSFS_Archiver) (o : opaque_t)
  (dname origdir : string) (N m : nat) (d : D') (e : Env) :
  (forall m n d, m <= n -> Inv' m d -> Inv' n d) ->
  (forall m d o s e, m < B -> Inv' m d -> Inv' (S m) (snd (fst (c d o s e)))) ->
  (forall names, entries f o dname = Ok names -> List.length names <= N) ->
  m + N <= B ->
  Inv' m d ->
  Inv' (m + N) (snd (fst (enumerate f o dname c origdir d e))).
Proof.
  intros Hmono Hstep Hn Hb Hd. unfold enumerate.
  destruct (entries f o dname) as [names | c0] eqn:E.
  - specialize (Hn names eq_refl).
    apply (Hmono (m + List.length names)); [lia|].
    apply (deliver_entries_inv D' Inv' c origdir Hmono Hstep names m d);
      [lia | exact Hd].
  - cbn. eapply Hmono; [|exact Hd]. lia.
Qed.

Definition filter_inv (m : nat) (fd : @SymlinkFilterData T D) : Prop :=
  Inv m (callbackData fd) /\ callback fd = cb.

Lemma filter_step (m : nat) (fd : SymlinkFilterData D) (o s : string) (e : Env) :
  m < B -> filter_inv m fd ->
  filter_inv (S m) (snd (fst (enumCallbackFilterSymLinks fd o s e))).
Proof.
  intros Hm [Hd Hcb]. unfold enumCallbackFilterSymLinks.
  destruct (call_stat (dirhandle fd) _ e) as [[rc sb] e1].
  destruct rc.
  - destruct (negb (filetype_eqb (filetype sb) PHYSFS_FILETYPE_SYMLINK)).
    + rewrite Hcb.
      pose proof (invoke_step m (callbackData fd) o s e1 Hm Hd) as Hd1.
      destruct (invoke cb (callbackData fd) o s e1) as [[r d1] e2].
      cbn in *. split; [exact Hd1 | reflexivity].
    + cbn. split; [eapply Inv_mono; [|exact Hd]; lia | exact Hcb].
  - cbn. split; [eapply Inv_mono; [|exact Hd]; lia | exact Hcb].
Qed.

Lemma enumerate_one_inv (allow : bool) (fname _fn : string) (i : DirHandle)
  (N m : nat) (d : D) (e : Env) :
  1 <= N ->
  (forall name names,
      entries (funcs i) (opaque i) name = Ok names -> List.length names <= N) ->
  m + N <= B ->
  Inv m d ->
  Inv (m + N) (snd (fst (enumerate_one allow fname _fn cb i d e))).
Proof.
  intros HN Hn Hb Hd. unfold enumerate_one.
  destruct (partOfMountPoint i fname).
  - unfold enumerateFromMountPoint.
    pose proof (invoke_step m d _fn
                  (until_slash
                     (str_from (if (String.length fname =? 0)%nat then 0
                                else String.length fname + 1)
                               match mountPoint i with
                               | Some mp => mp
                               | None => ""
                               end)) e ltac:(lia) Hd) as Hd1.
    destruct (invoke cb d _fn _ e) as [[r d1] e1]. cbn [fst snd] in Hd1.
    destruct r; cbn [fst snd]; (eapply Inv_mono; [|exact Hd1]; lia).
  - destruct (verifyPath allow i fname false e) as [[ok arcname] e1].
    destruct ok; [|keep_inv Hd].
    destruct (call_stat i arcname e1) as [[sok sb] e2].
    destruct (negb sok && errcode_eqb (currentErrorCode e2) PHYSFS_ERR_NOT_FOUND);
      [keep_inv Hd|].
    destruct (negb (filetype_eqb (filetype sb) PHYSFS_FILETYPE_DIRECTORY));
      [keep_inv Hd|].
    destruct (negb allow && supportsSymlinks (funcs i)).
    + pose proof (enumerate_inv (SymlinkFilterData D) filter_inv
                    enumCallbackFilterSymLinks (funcs i) (opaque i) arcname _fn
                    N m (mkFilter cb d i arcname PHYSFS_ERR_OK) e2) as Hf.
      destruct (enumerate (funcs i) (opaque i) arcname
                          enumCallbackFilterSymLinks _fn
                          (mkFilter cb d i arcname PHYSFS_ERR_OK) e2)
        as [[r fd] e3].
      cbn [fst snd] in *.
      apply Hf; try assumption.
      * intros a b x Hab [H1 H2]. split; [eapply Inv_mono; eauto | exact H2].
      * intros a x o s e0 Ha Hx. now apply filter_step.
      * apply Hn.
      * split; [exact Hd | reflexivity].
    + apply enumerate_inv; try assumption.
      * intros a x o s e0 Ha Hx. now apply invoke_step.
      * apply Hn.
Qed.

Lemma enumerate_loop_inv (allow : bool) (fname _fn : string) (N : nat) :
  1 <= N ->
  forall (sp : list DirHandle) (r : PHYSFS_EnumerateCallbackResult) (m : nat)
         (d : D) (e : Env),
    (forall i name names,
        In i sp -> entries (funcs i) (opaque i) name = Ok names ->
        List.length names <= N) ->
    m + N * List.length sp <= B ->
    Inv m d ->
    Inv (m + N * List.length sp)
        (snd (fst (enumerate_loop allow fname _fn cb sp r d e))).
Proof.
  intros HN. induction sp as [|i rest IH]; intros r m d e Hn Hb Hd.
  - keep_inv Hd.
  - cbn [enumerate_loop List.length] in *.
    destruct r; try keep_inv Hd.
    pose proof (enumerate_one_inv allow fname _fn i N m d e HN
                  (fun name names => Hn i name names (or_introl eq_refl))
                  ltac:(lia) Hd) as H1.
    destruct (enumerate_one allow fname _fn cb i d e) as [[r1 d1] e1].
    cbn [fst snd] in H1.
    replace (m + N * S (List.length rest))
      with ((m + N) + N * List.length rest) by lia.
    apply IH; [|lia | exact H1].
    intros j name names Hj. apply Hn. now right.
Qed.

End Invariants.

End EnumerateProps.

Lemma ecd_ok_mono (m n : nat) (ecd : EnumStringListCallbackData) :
  m <= n -> ecd_ok m ecd -> ecd_ok n ecd.
Proof. intros Hmn [H1 [H2 H3]]. repeat split; try assumption. lia. Qed.

Lemma sorted_NoDup (l : list string) : StronglySorted slt l -> NoDup l.
Proof.
  induction 1 as [|x l Hs IH Hx]; constructor; [|exact IH].
  intros Hin. rewrite Forall_forall in Hx.
  apply (slt_irrefl x). now apply Hx.
Qed.

Lemma enumerate_collects_sorted {T : Type} (path : option string)
  (d : @Drive T) (N : nat) :
  1 <= N ->
  (forall i name names,
      In i (searchPath d) -> entries (funcs i) (opaque i) name = Ok names ->
      List.length names <= N) ->
  (Z.of_nat (N * List.length (searchPath d)) < 2 ^ 32)%Z ->
  ecd_ok (N * List.length (searchPath d))
         (snd (fst (PHYSFS_enumerate path (Some enumFilesCallback)
                                     (mkEcd [] 0 PHYSFS_ERR_OK) d))).
Proof.
  intros HN Hn Hb.
  assert (H0 : ecd_ok 0 (mkEcd [] 0 PHYSFS_ERR_OK)).
  { repeat split; [constructor | cbn; lia]. }
  unfold PHYSFS_enumerate. destruct path as [_fn|].
  - destruct (sanitizePlatformIndependentPath _fn) as [fname | c].
    + pose proof (enumerate_loop_inv EnumStringListCallbackData ecd_ok
                    (N * List.length (searchPath d)) enumFilesCallback
                    ecd_ok_mono
                    (fun m x o s e Hm Hx =>
                       enumFilesCallback_step m x o s e ltac:(lia) Hx)
                    (allowSymLinks d) fname _fn N HN (searchPath d)
                    PHYSFS_ENUM_OK 0 (mkEcd [] 0 PHYSFS_ERR_OK) (env d)
                    Hn ltac:(lia) H0) as Hl.
      destruct (enumerate_loop (allowSymLinks d) fname _fn enumFilesCallback
                  (searchPath d) PHYSFS_ENUM_OK (mkEcd [] 0 PHYSFS_ERR_OK)
                  (env d)) as [[r ecd] e].
      cbn [fst snd] in *. exact Hl.
    + cbn. eapply ecd_ok_mono; [|exact H0]. lia.
  - cbn. eapply ecd_ok_mono; [|exact H0]. lia.
Qed.

(** C9.  Whenever PHYSFS_enumerateFiles succeeds, and the mounted archives
    report fewer names than the 32-bit counter of the list can count, the
    array it returns is the collected names followed by NULL, and the names
    are in strictly ascending strcmp order, hence without duplicates; each
    name was placed at the position found by locateInStringList.  A
    directory with the entries foo, bar and baz, delivered in that order,
    gives bar, baz, foo, NULL. *)
Theorem enumerateFiles_sorted :
  (forall (T : Type) (path : option string) (d d' : @Drive T) (N : nat)
          (res : list (option string)),
      1 <= N ->
      (forall i name names,
          In i (searchPath d) -> entries (funcs i) (opaque i) name = Ok names ->
          List.length names <= N) ->
      (Z.of_nat (N * List.length (searchPath d)) < 2 ^ 32)%Z ->
      PHYSFS_enumerateFiles path d = (Some res, d') ->
      exists names,
        res = (map Some names ++ [None])%list /\
        StronglySorted slt names /\ NoDup names)
  /\
  fst (PHYSFS_enumerateFiles (Some "/") tree_drive)
  = Some [Some "bar"; Some "baz"; Some "foo"; None].
Proof.
  split; [|reflexivity].
  intros T path d d' N res HN Hn Hb Hrun.
  pose proof (enumerate_collects_sorted path d N HN Hn Hb) as Hok.
  unfold PHYSFS_enumerateFiles in Hrun.
  destruct (PHYSFS_enumerate path (Some enumFilesCallback)
              (mkEcd [] 0 PHYSFS_ERR_OK) d) as [[ok ecd] d1].
  cbn [fst snd] in Hok. destruct Hok as [Hs [Hsz Hlen]].
  destruct ok; cbn [negb] in Hrun; [|discriminate Hrun].
  inversion Hrun; subst. exists (ecd_list ecd).
  rewrite Hsz, Nat2Z.id, firstn_all.
  repeat split; [exact Hs | now apply sorted_NoDup].
Qed.

(* --------------------------------------------------------------------- *)
(** ** The claims at concrete inputs *)
(* --------------------------------------------------------------------- *)

Example read_through_buffer :
  PHYSFS_readBytes memIo fresh_reader 2
  = Ok (2%Z, [Byte.x00; Byte.x01], buffered_reader).
Proof. reflexivity. Qed.

Lemma tell_invariant_witness :
  handle_wf fresh_reader /\
  after_op memIo (OpReadBytes 2) fresh_reader = Some buffered_reader /\
  handle_wf buffered_reader /\
  PHYSFS_tell memIo buffered_reader = (4 - 4 + 2)%Z.
Proof.
  assert (Hwf : handle_wf fresh_reader) by (unfold handle_wf; simpl; lia).
  assert (Hop : after_op memIo (OpReadBytes 2) fresh_reader = Some buffered_reader)
    by reflexivity.
  split; [exact Hwf|]. split; [exact Hop|].
  apply (tell_invariant memIo (OpReadBytes 2) fresh_reader buffered_reader Hwf Hop).
  - simpl. lia.
  - simpl. discriminate.
Defined.

(** C3 (the code departs from the claim).  Three bytes are pending and the
    stream takes one byte per write: PHYSFS_flush returns success and zeroes
    buffill and bufpos although only the first byte reached the stream; the
    other two are gone. *)
Theorem flush_short_write_succeeds :
  PHYSFS_flush shortIo pending_writer
  = (true,
     mkFileHandle 9 ([Byte.x61], 1%Z) false 7 (buffer pending_writer) 8 0 0).
Proof. reflexivity. Qed.

Example flush_full_write :
  PHYSFS_flush memIo pending_writer
  = (true,
     mkFileHandle 9 ([Byte.x61; Byte.x62; Byte.x63], 3%Z) false 7
                  (buffer pending_writer) 8 0 0).
Proof. reflexivity. Qed.

(** Four writes of five bytes through a buffer of seven, then a flush: the
    file holds the twenty bytes and tell reports twenty. *)
Example twenty_bytes_through_buffer :
  let fh := snd (PHYSFS_flush memIo (write_times 4 fresh_writer)) in
  fst (io fh)
  = (five_bytes ++ five_bytes ++ five_bytes ++ five_bytes)%list
  /\ PHYSFS_tell memIo fh = 20%Z
  /\ PHYSFS_tell memIo (write_times 3 fresh_writer) = 15%Z.
Proof. repeat split. Qed.

Lemma seek_within_buffer_witness :
  PHYSFS_tell memIo buffered_reader = 2%Z /\
  PHYSFS_seek memIo buffered_reader 3 = (true, set_bufpos buffered_reader 3) /\
  PHYSFS_seek memIo buffered_reader 9
  = (true, mkFileHandle 9 (ten_bytes, 9%Z) true 7 (buffer buffered_reader) 4 0 0).
Proof.
  assert (Hwf : handle_wf buffered_reader) by (unfold handle_wf; simpl; lia).
  assert (Hio : (buffill buffered_reader <= io_tell memIo (io buffered_reader)
                 < 2 ^ 63)%Z) by (simpl; lia).
  split; [reflexivity|]. split.
  - apply (proj1 (seek_within_buffer memIo buffered_reader
                    [Byte.x00; Byte.x01; Byte.x02; Byte.x03] 3
                    eq_refl eq_refl Hwf Hio ltac:(lia))).
    change (PHYSFS_tell memIo buffered_reader) with 2%Z. simpl. lia.
  - rewrite (proj2 (seek_within_buffer memIo buffered_reader
                      [Byte.x00; Byte.x01; Byte.x02; Byte.x03] 9
                      eq_refl eq_refl Hwf Hio ltac:(lia))).
    + reflexivity.
    + change (PHYSFS_tell memIo buffered_reader) with 2%Z. simpl. lia.
Defined.


Lemma unmount_refuses_open_handles_witness :
  PHYSFS_unmount (Some "/data") busy_drive
  = (false, bail PHYSFS_ERR_FILES_STILL_OPEN busy_drive) /\
  searchPath (snd (PHYSFS_unmount (Some "/data") busy_drive)) = [demo_dir] /\
  fst (PHYSFS_unmount (Some "/data")
                      (close_handles memIo (referencing demo_dir busy_drive)
                                     busy_drive)) = true /\
  searchPath (snd (PHYSFS_unmount (Some "/data")
                      (close_handles memIo (referencing demo_dir busy_drive)
                                     busy_drive))) = [].
Proof.
  assert (Hnd : NoDup (map (@fh_addr MemStream) (openReadList busy_drive))).
  { simpl. constructor; [intros [] | constructor]. }
  assert (Hall : Forall (fun fh => forReading fh = true) (openReadList busy_drive)).
  { simpl. constructor; [reflexivity | constructor]. }
  pose proof (unmount_refuses_open_handles memIo "/data" [] [] demo_dir busy_drive
                eq_refl eq_refl (fun x (H : In x []) => match H with end)
                Hnd Hall) as [Hbusy Hfree].
  assert (H1 : PHYSFS_unmount (Some "/data") busy_drive
               = (false, bail PHYSFS_ERR_FILES_STILL_OPEN busy_drive)).
  { apply Hbusy. eexists. split; [left; reflexivity | reflexivity]. }
  split; [exact H1|]. split; [rewrite H1; reflexivity|].
  cbv zeta in Hfree. rewrite Hfree. split; reflexivity.
Defined.

(** The claim as it stands lets a path through whose only symbolic link is
    its last element: link is the only element of the path and a symbolic
    link, and verifyPath fails with SYMLINK_FORBIDDEN. *)
Lemma verifyPath_rejects_final_symlink :
  path_cuts "" "link" = ["link"] /\
  stats_as_symlink demo_dir "link" /\
  fst (fst (verifyPath false demo_dir "link" false demo_env)) = false /\
  errcode (snd (verifyPath false demo_dir "link" false demo_env))
  = PHYSFS_ERR_SYMLINK_FORBIDDEN.
Proof.
  split; [reflexivity|]. split; [intros e; split; reflexivity|].
  split; reflexivity.
Qed.

Lemma verifyPath_symlink_forbidden_witness :
  (fst (fst (verifyPath false demo_dir "link/x" false demo_env)) = false /\
   errcode (snd (verifyPath false demo_dir "link/x" false demo_env))
   = PHYSFS_ERR_SYMLINK_FORBIDDEN) /\
  (fst (fst (verifyPath false demo_dir "sub/ln" true demo_env)) = false /\
   errcode (snd (verifyPath false demo_dir "sub/ln" true demo_env))
   = PHYSFS_ERR_SYMLINK_FORBIDDEN).
Proof.
  split.
  - apply (verifyPath_symlink_forbidden demo_dir "link/x" "link/x" false
             demo_env 0 "link").
    + discriminate.
    + reflexivity.
    + reflexivity.
    + intros e. split; reflexivity.
    + intros j n Hj. lia.
  - apply (verifyPath_symlink_forbidden demo_dir "sub/ln" "sub/ln" true
             demo_env 1 "sub/ln").
    + discriminate.
    + reflexivity.
    + reflexivity.
    + intros e. split; reflexivity.
    + intros j n Hj Hn. destruct j as [|j]; [|lia].
      inversion Hn; subst n. intros e. split; [reflexivity | discriminate].
Defined.

Lemma mount_duplicate_and_placement_witness :
  doMount memIo demoPlatform None (Some "/data") (Some "/elsewhere") true
          busy_drive = (true, busy_drive) /\
  (exists dh,
      dirName dh = Some "/tree" /\
      searchPath (snd (doMount memIo demoPlatform None (Some "/tree") None true
                               busy_drive)) = [demo_dir; dh]) /\
  (exists dh,
      dirName dh = Some "/tree" /\
      searchPath (snd (doMount memIo demoPlatform None (Some "/tree") None false
                               busy_drive)) = [dh; demo_dir]).
Proof.
  split; [|split].
  - apply (proj1 (mount_duplicate_and_placement memIo demoPlatform None "/data"
                    busy_drive) demo_dir (Some "/elsewhere") true).
    + left. reflexivity.
    + reflexivity.
  - apply (proj2 (mount_duplicate_and_placement memIo demoPlatform None "/tree"
                    busy_drive) None true
                 (snd (doMount memIo demoPlatform None (Some "/tree") None true
                               busy_drive))).
    + intros dh [<- | []]. discriminate.
    + reflexivity.
  - apply (proj2 (mount_duplicate_and_placement memIo demoPlatform None "/tree"
                    busy_drive) None false
                 (snd (doMount memIo demoPlatform None (Some "/tree") None false
                               busy_drive))).
    + intros dh [<- | []]. discriminate.
    + reflexivity.
Defined.

Lemma enumerateFiles_sorted_witness :
  exists names,
    [Some "bar"; Some "baz"; Some "foo"; None] = (map Some names ++ [None])%list
    /\ StronglySorted slt names /\ NoDup names.
Proof.
  apply (proj1 enumerateFiles_sorted MemStream (Some "/") tree_drive
               (snd (PHYSFS_enumerateFiles (Some "/") tree_drive)) 3).
  - lia.
  - intros i name names [<- | []] H.
    cbn in H. unfold DIR_entries, demo_enumerate in H. cbn in H.
    repeat match type of H with
           | (if ?c then _ else _) = _ => destruct c
           end; inversion H; subst; simpl; lia.
  - simpl. lia.
  - reflexivity.
Defined.

Lemma enumerate_and_openRead_on_rejected_path_witness :
  sanitizePlatformIndependentPath "../etc/passwd" = Err PHYSFS_ERR_BAD_FILENAME /\
  PHYSFS_enumerate (Some "../etc/passwd") (Some count_callback) 0 tree_drive
  = (true, 0, bail PHYSFS_ERR_BAD_FILENAME tree_drive) /\
  PHYSFS_openRead (Some "../etc/passwd") tree_drive
  = (None, bail PHYSFS_ERR_BAD_FILENAME tree_drive).
Proof.
  split; [reflexivity|].
  destruct (enumerate_and_openRead_on_rejected_path "../etc/passwd"
              PHYSFS_ERR_BAD_FILENAME count_callback 0 tree_drive eq_refl)
    as [H1 [H2 _]].
  split; assumption.
Defined.

(** C10 (the code departs from the claim).  The path a/.. has a segment
    equal to .., so it is one of the inputs the claim speaks of; with /tree
    mounted, PHYSFS_openRead fails on it with NOT_FOUND, not BAD_FILENAME,
    and both PHYSFS_openRead and PHYSFS_enumerate consult the mounted
    archive (the record of calls shows the stat of a).
    sanitizePlatformIndependentPath, which checks no last segment, lets the
    path through. *)
Theorem openRead_and_enumerate_accept_final_dotdot :
  spec_rejects "a/.." = true /\
  sanitizePlatformIndependentPath "a/.." = Ok "a/.." /\
  fst (PHYSFS_openRead (Some "a/..") tree_drive) = None /\
  errcode (env (snd (PHYSFS_openRead (Some "a/..") tree_drive)))
  = PHYSFS_ERR_NOT_FOUND /\
  trace (env (snd (PHYSFS_openRead (Some "a/..") tree_drive)))
  = [EvStat "/tree/" "a"; EvPlatformStat "/tree/a" false] /\
  fst (PHYSFS_enumerate (Some "a/..") (Some count_callback) 0 tree_drive)
  = (true, 0) /\
  errcode (env (snd (PHYSFS_enumerate (Some "a/..") (Some count_callback) 0
                                      tree_drive)))
  = PHYSFS_ERR_NOT_FOUND /\
  trace (env (snd (PHYSFS_enumerate (Some "a/..") (Some count_callback) 0
                                    tree_drive)))
  = [EvStat "/tree/" "a"; EvPlatformStat "/tree/a" false].
Proof. repeat split. Qed.

(* ===================================================================== *)
(** * Part III: properties of the rest of the code *)
(* ===================================================================== *)

(* ===================================================================== *)
(** * String helpers and the Linux platform file *)
(* ===================================================================== *)

Lemma str_take_from (n : nat) (s : string) : str_take n s ++ str_from n s = s.
Proof.
  revert s. induction n as [|n IH]; intros [|c s]; simpl; auto.
  rewrite IH. reflexivity.
Qed.

Lemma str_take_all (n : nat) (s : string) :
  String.length s <= n -> str_take n s = s.
Proof.
  revert s. induction n as [|n IH]; intros [|c s] H; simpl in *; auto.
  - lia.
  - rewrite IH by lia. reflexivity.
Qed.

Lemma str_take_append (s t : string) : str_take (String.length s) (s ++ t) = s.
Proof. induction s as [|c s IH]; simpl; [destruct t|rewrite IH]; reflexivity. Qed.

Lemma str_take_append_more (s t : string) (k : nat) :
  str_take (String.length s + k) (s ++ t) = s ++ str_take k t.
Proof. induction s as [|c s IH]; simpl; [|rewrite IH]; reflexivity. Qed.

Lemma strchr_from_hit (start : nat) (c : ascii) (s : string) (i : nat) :
  strchr_from start c s = Some i ->
  str_from i s = String c (str_from (S i) s).
Proof.
  revert start i. induction s as [|d s IH]; intros start i H; simpl in H.
  - discriminate.
  - destruct start as [|start].
    + destruct (Ascii.eqb d c) eqn:E.
      * inversion H; subst. apply Ascii.eqb_eq in E. subst. reflexivity.
      * destruct (strchr_from 0 c s) as [j|] eqn:E'; simpl in H; [|discriminate].
        inversion H; subst. simpl. apply (IH _ _ E').
    + destruct (strchr_from start c s) as [j|] eqn:E'; simpl in H; [|discriminate].
      inversion H; subst. simpl. apply (IH _ _ E').
Qed.

Lemma strchr_from_miss (start : nat) (c : ascii) (s : string) :
  strchr_from start c s = None -> contains_char c (str_from start s) = false.
Proof.
  revert start. induction s as [|d s IH]; intros start H; simpl in H.
  - destruct start; reflexivity.
  - destruct start as [|start].
    + destruct (Ascii.eqb d c) eqn:E; [discriminate|].
      destruct (strchr_from 0 c s) as [j|] eqn:E'; simpl in H; [discriminate|].
      simpl. rewrite E. simpl. apply (IH 0 E').
    + destruct (strchr_from start c s) as [j|] eqn:E'; simpl in H; [discriminate|].
      simpl. apply (IH _ E').
Qed.

Lemma str_from_0 (s : string) : str_from 0 s = s.
Proof. destruct s; reflexivity. Qed.

(** The loop of [find_filename_extension] ends on the last ['.']. *)
Lemma last_dot_spec (fname : string) (p : nat) :
  str_from p fname = String "." (str_from (S p) fname) ->
  str_from (last_dot fname p) fname
  = String "." (str_from (S (last_dot fname p)) fname)
  /\ contains_char "." (str_from (S (last_dot fname p)) fname) = false.
Proof.
  funelim (last_dot fname p); intros Hp.
  - apply H. apply (strchr_from_hit _ _ _ _ Heq).
  - split; [exact Hp|]. apply strchr_from_miss. assumption.
Qed.

(** X1.  [find_filename_extension] returns what follows the last ['.'] of
    the name: the name is some prefix, a dot and the result, and the result
    holds no dot; it returns NULL exactly for a name without a dot. *)
Theorem find_filename_extension_spec (fname : string) :
  match find_filename_extension (Some fname) with
  | Some ext =>
      (exists pre, fname = pre ++ "." ++ ext)
      /\ contains_char "." ext = false
  | None => contains_char "." fname = false
  end.
Proof.
  unfold find_filename_extension.
  destruct (strchr_from 0 "." fname) as [p|] eqn:E.
  - destruct (last_dot_spec fname p (strchr_from_hit _ _ _ _ E)) as [Hq Hno].
    split; [|exact Hno].
    exists (str_take (last_dot fname p) fname).
    rewrite <- (str_take_from (last_dot fname p) fname) at 1.
    rewrite Hq. reflexivity.
  - rewrite <- (str_from_0 fname). apply strchr_from_miss. exact E.
Qed.

(** [readlink] filled less than the buffer: it stored the whole target. *)
Lemma str_take_short (n : nat) (s : string) :
  String.length (str_take n s) < n -> str_take n s = s.
Proof.
  intros H. apply str_take_all. rewrite str_take_length in H. lia.
Qed.

Lemma readlink_inv (os : Posix) (path : string) (len : positive) :
  match readlink os path len with
  | None => readlink_target os path = None
  | Some (rc, got) =>
      exists t, readlink_target os path = Some t
                /\ got = str_take (Pos.to_nat len) t
                /\ rc = Z.of_nat (String.length got)
  end.
Proof.
  unfold readlink. destruct (readlink_target os path) as [t|]; [|reflexivity].
  exists t. auto.
Qed.

Lemma readSymLink_loop_spec (os : Posix) (path : string) (len : positive) :
  readSymLink_loop os path len = readlink_target os path.
Proof.
  funelim (readSymLink_loop os path len).
  - pose proof (readlink_inv os path len) as Hi.
    match goal with E : readlink _ _ _ = None |- _ => rewrite E in Hi end.
    symmetry. exact Hi.
  - pose proof (readlink_inv os path len) as Hi. rewrite Heq in Hi.
    destruct Hi as (t & Ht & Hg & Hrc). rewrite Ht. f_equal.
    subst got. apply str_take_short. lia.
  - assumption.
Qed.

(** X2.  [readSymLink] returns the whole contents of the link, however long
    they are, and NULL exactly when [readlink] fails. *)
Theorem readSymLink_whole_target (os : Posix) (path : string) :
  readSymLink os path = readlink_target os path.
Proof. apply readSymLink_loop_spec. Qed.

Lemma ends_with_slash_app_slash (s : string) : ends_with_slash (s ++ "/") = true.
Proof.
  induction s as [|c s IH]; [reflexivity|].
  simpl. destruct (s ++ "/") eqn:E.
  - destruct s; discriminate.
  - exact IH.
Qed.

Lemma ends_with_slash_nonempty (s : string) :
  ends_with_slash s = true -> s <> "".
Proof. destruct s; [discriminate|congruence]. Qed.

(** One turn of the loop of [findBinaryInPath]. *)
Lemma try_path_element_spec (os : Posix) (bin el : string) :
  try_path_element os bin el
  = if access_X_OK os ((if ends_with_slash el then el else el ++ "/") ++ bin)
    then Some (if ends_with_slash el then el ++ str_take 1 bin else el ++ "/")
    else None.
Proof.
  unfold try_path_element.
  replace (String.length el + String.length bin + 2 - String.length bin - 1)
    with (String.length el + 1) by lia.
  destruct (ends_with_slash el) eqn:E.
  - destruct el as [|c el]; [discriminate|]. cbn [orb negb].
    destruct (access_X_OK os (String c el ++ bin)); [|reflexivity].
    rewrite str_take_append_more. reflexivity.
  - replace (match el with
             | EmptyString => true
             | String _ _ => false
             end || negb false) with true by (destruct el; reflexivity).
    destruct (access_X_OK os ((el ++ "/") ++ bin)); [|reflexivity].
    rewrite append_assoc, str_take_append_more. reflexivity.
Qed.

Lemma findBinaryInPath_from_spec (os : Posix) (bin : string) (rest start : string) :
  findBinaryInPath_from os bin start rest
  = option_map
      (fun el => if ends_with_slash el then el ++ str_take 1 bin else el ++ "/")
      (find (fun el =>
               access_X_OK os
                 ((if ends_with_slash el then el else el ++ "/") ++ bin))
            (path_elements_aux start rest)).
Proof.
  revert start. induction rest as [|c rest IH]; intros start; simpl.
  - rewrite try_path_element_spec.
    destruct (access_X_OK os _); reflexivity.
  - destruct (Ascii.eqb c ":").
    + simpl. rewrite try_path_element_spec.
      destruct (access_X_OK os _); [reflexivity|]. apply IH.
    + apply IH.
Qed.

(** X3.  [findBinaryInPath] takes the first element of the search path
    under which [bin] passes the [access] test (the element, a ['/'] unless
    it ends in one, then [bin]).  For an element that does not end in ['/']
    it returns the element followed by ['/']; for one that does, the NUL
    lands one character late and it returns the element followed by the
    first character of [bin].  It returns NULL when no element passes. *)
Theorem findBinaryInPath_first_hit (os : Posix) (bin envr : string) :
  findBinaryInPath os bin envr
  = option_map
      (fun el => if ends_with_slash el then el ++ str_take 1 bin else el ++ "/")
      (find (fun el =>
               access_X_OK os
                 ((if ends_with_slash el then el else el ++ "/") ++ bin))
            (path_elements envr)).
Proof. apply findBinaryInPath_from_spec. Qed.

Lemma strrchr_split (c : ascii) (s : string) (i : nat) :
  strrchr c s = Some i ->
  str_from i s = String c (str_from (S i) s)
  /\ contains_char c (str_from (S i) s) = false.
Proof.
  revert i. induction s as [|d s IH]; intros i H; simpl in H; [discriminate|].
  destruct (strrchr c s) as [j|] eqn:E.
  - inversion H; subst. simpl. apply IH. reflexivity.
  - destruct (Ascii.eqb d c) eqn:Ed; [|discriminate].
    inversion H; subst. apply Ascii.eqb_eq in Ed. subst d. simpl.
    split; [reflexivity|].
    clear -E. induction s as [|d s IH]; [reflexivity|].
    simpl in E. destruct (strrchr c s); [discriminate|].
    destruct (Ascii.eqb d c) eqn:Ed; [discriminate|].
    simpl. rewrite Ed. simpl. apply IH. reflexivity.
Qed.

Lemma strrchr_none (c : ascii) (s : string) :
  strrchr c s = None -> contains_char c s = false.
Proof.
  induction s as [|d s IH]; [reflexivity|]. simpl.
  destruct (strrchr c s); [discriminate|].
  destruct (Ascii.eqb d c); [discriminate|]. intros _. simpl. apply IH.
  reflexivity.
Qed.

Lemma str_take_S (i : nat) (s : string) (c : ascii) (t : string) :
  str_from i s = String c t -> str_take (S i) s = str_take i s ++ String c "".
Proof.
  revert s. induction i as [|i IH]; intros s H.
  - rewrite str_from_0 in H. subst. reflexivity.
  - destruct s as [|d s]; [discriminate|]. simpl in H.
    change (str_take (S (S i)) (String d s)) with (String d (str_take (S i) s)).
    rewrite (IH _ H). reflexivity.
Qed.

(** What is left when everything after the last separator is cut off. *)
Lemma cut_after_last (c : ascii) (s : string) (i : nat) :
  strrchr c s = Some i ->
  s = str_take (S i) s ++ str_from (S i) s
  /\ (exists pre, str_take (S i) s = pre ++ String c "")
  /\ contains_char c (str_from (S i) s) = false.
Proof.
  intros H. destruct (strrchr_split _ _ _ H) as [Hh Hn].
  split; [symmetry; apply str_take_from|]. split; [|exact Hn].
  exists (str_take i s). apply (str_take_S _ _ _ _ Hh).
Qed.

(** X4.  When the platform layer has no answer, [calculateBaseDir] parses
    [argv0]: without one it fails with [PHYSFS_ERR_ARGV0_IS_NULL]; with one
    that holds no separator it fails with [PHYSFS_ERR_INVALID_ARGUMENT];
    else it returns [argv0] up to and including its last separator. *)
Theorem calculateBaseDir_parses_argv0 {T : Type} (os : Posix)
  (argv0 : option string) (e : @Env T) :
  __PHYSFS_platformCalcBaseDir os argv0 = None ->
  match argv0 with
  | None =>
      calculateBaseDir os argv0 e
      = (None, PHYSFS_setErrorCode PHYSFS_ERR_ARGV0_IS_NULL e)
  | Some a =>
      if contains_char "/" a then
        exists dir file,
          calculateBaseDir os argv0 e = (Some dir, e)
          /\ a = dir ++ file
          /\ ends_with_slash dir = true
          /\ contains_char "/" file = false
      else
        calculateBaseDir os argv0 e
        = (None, PHYSFS_setErrorCode PHYSFS_ERR_INVALID_ARGUMENT e)
  end.
Proof.
  intros Hp. unfold calculateBaseDir. rewrite Hp.
  destruct argv0 as [a|]; [|reflexivity].
  unfold __PHYSFS_platformDirSeparator.
  destruct (strrchr "/" a) as [i|] eqn:E.
  - destruct (cut_after_last _ _ _ E) as (Hs & (pre & Hpre) & Hn).
    assert (Hc : contains_char "/" a = true).
    { destruct (strrchr_split _ _ _ E) as [Hh _].
      rewrite <- (str_take_from i a), Hh.
      generalize (str_from (S i) a). clear.
      induction (str_take i a) as [|d s IH]; intros t; simpl.
      - reflexivity.
      - rewrite IH. apply orb_true_r. }
    rewrite Hc. exists (str_take (S i) a), (str_from (S i) a).
    replace (i + 1) with (S i) by lia.
    repeat split; auto.
    rewrite Hpre. apply ends_with_slash_app_slash.
  - rewrite (strrchr_none _ _ E). reflexivity.
Qed.

Lemma chop_file_name_slash (r dir : string) :
  chop_file_name r = Some dir -> ends_with_slash dir = true.
Proof.
  unfold chop_file_name. destruct (strrchr "/" r) as [i|] eqn:E; [|discriminate].
  intros H. replace dir with (str_take (S i) r) by congruence.
  destruct (cut_after_last _ _ _ E) as (_ & (pre & Hpre) & _).
  rewrite Hpre. apply ends_with_slash_app_slash.
Qed.

Lemma platformCalcBaseDir_slash (os : Posix) (argv0 : option string) (dir : string) :
  (forall envr, getenv os "PATH" = Some envr ->
                Forall (fun el => ends_with_slash el = false) (path_elements envr)) ->
  __PHYSFS_platformCalcBaseDir os argv0 = Some dir ->
  ends_with_slash dir = true.
Proof.
  intros Hpath. unfold __PHYSFS_platformCalcBaseDir.
  destruct (if access_F_OK os "/proc" then _ else None) as [r0|].
  - destruct (chop_file_name r0) as [r1|] eqn:E.
    + intros H. injection H as <-. apply (chop_file_name_slash _ _ E).
    + destruct argv0 as [a|]; [|discriminate].
      destruct (contains_char "/" a); [discriminate|].
      destruct (getenv os "PATH") as [envr|] eqn:Ep; [|discriminate].
      rewrite findBinaryInPath_first_hit.
      destruct (find _ (path_elements envr)) as [el|] eqn:Ef; [|discriminate].
      simpl. intros H. injection H as <-.
      apply find_some in Ef. destruct Ef as [Hin _].
      specialize (Hpath envr eq_refl). rewrite Forall_forall in Hpath.
      rewrite (Hpath el Hin). apply ends_with_slash_app_slash.
  - destruct argv0 as [a|]; [|discriminate].
    destruct (contains_char "/" a); [discriminate|].
    destruct (getenv os "PATH") as [envr|] eqn:Ep; [|discriminate].
    rewrite findBinaryInPath_first_hit.
    destruct (find _ (path_elements envr)) as [el|] eqn:Ef; [|discriminate].
    simpl. intros H. injection H as <-.
    apply find_some in Ef. destruct Ef as [Hin _].
    specialize (Hpath envr eq_refl). rewrite Forall_forall in Hpath.
    rewrite (Hpath el Hin). apply ends_with_slash_app_slash.
Qed.

(** X5.  The base directory that [calculateBaseDir] returns ends with the
    directory separator, as [PHYSFS_init] asserts, provided that no element
    of the search path in the environment ends in ['/'] (for such an
    element [findBinaryInPath] returns a name without the separator). *)
Theorem baseDir_ends_with_separator {T : Type} (os : Posix)
  (argv0 : option string) (e e' : @Env T) (dir : string) :
  (forall envr, getenv os "PATH" = Some envr ->
                Forall (fun el => ends_with_slash el = false) (path_elements envr)) ->
  calculateBaseDir os argv0 e = (Some dir, e') ->
  ends_with_slash dir = true.
Proof.
  intros Hpath. unfold calculateBaseDir.
  destruct (__PHYSFS_platformCalcBaseDir os argv0) as [r|] eqn:E.
  - intros H. injection H as <- <-. apply (platformCalcBaseDir_slash _ _ _ Hpath E).
  - destruct argv0 as [a|]; [|discriminate].
    unfold __PHYSFS_platformDirSeparator.
    destruct (strrchr "/" a) as [i|] eqn:Es; [|discriminate].
    replace (i + 1) with (S i) by lia.
    intros H. replace dir with (str_take (S i) a) by congruence.
    destruct (cut_after_last _ _ _ Es) as (_ & (pre & Hpre) & _).
    rewrite Hpre. apply ends_with_slash_app_slash.
Qed.

(* ===================================================================== *)
(** * Buffered handles: end of file, transparency of the buffer *)
(* ===================================================================== *)

Section BufferProps.

Context {T : Type}.
Variable IO : PHYSFS_Io T.

Local Open Scope Z_scope.

(** X6.  For a handle opened for reading whose counters are in order and
    whose stream stands between the bytes it has buffered and the end of the
    file, [PHYSFS_eof] tells whether [PHYSFS_tell] has reached
    [PHYSFS_fileLength]: unread bytes in the buffer mean no end of file. *)
Theorem eof_iff_tell_reaches_length (fh : FileHandle T) :
  forReading fh = true ->
  handle_wf fh ->
  buffill fh <= io_tell IO (io fh) <= io_length IO (io fh) ->
  io_length IO (io fh) < 2 ^ 63 ->
  PHYSFS_eof IO fh = (PHYSFS_tell IO fh >=? PHYSFS_fileLength IO fh).
Proof.
  intros Hr Hwf Hpos Hlen.
  pose proof Hwf as Hwf0. unfold handle_wf in Hwf0.
  rewrite (tell_exact IO fh Hwf) by (try lia; rewrite Hr; discriminate).
  unfold logical_pos, PHYSFS_eof, PHYSFS_fileLength, call_tell.
  rewrite Hr. cbn [negb].
  rewrite (s64_small (io_tell IO (io fh))) by lia.
  rewrite (s64_small (io_length IO (io fh))) by lia.
  destruct (bufpos fh =? buffill fh) eqn:E.
  - apply Z.eqb_eq in E.
    replace (io_tell IO (io fh) <? 0) with false by (symmetry; apply Z.ltb_ge; lia).
    replace (io_length IO (io fh) <? 0) with false by (symmetry; apply Z.ltb_ge; lia).
    cbn [orb]. f_equal. lia.
  - apply Z.eqb_neq in E. symmetry. rewrite Z.geb_leb. apply Z.leb_gt. lia.
Qed.

(** ** Reading through the buffer *)

Lemma buf_slice_length (fh : FileHandle T) (b : list byte) (off len : Z) :
  buffer fh = Some b -> 0 <= off -> 0 <= len ->
  off + len <= Z.of_nat (List.length b) ->
  Z.of_nat (List.length (buf_slice fh off len)) = len.
Proof.
  intros Hb Ho Hl Hfit. unfold buf_slice, buffer_bytes. rewrite Hb.
  rewrite length_firstn, length_skipn. lia.
Qed.

Lemma firstn_add_split {A : Type} (a c : nat) (l : list A) :
  firstn (a + c) l = (firstn a l ++ firstn c (skipn a l))%list.
Proof.
  revert l. induction a as [|a IH]; intros [|x l]; simpl; auto.
  - now rewrite firstn_nil.
  - now rewrite IH.
Qed.

Lemma buf_slice_split (fh : FileHandle T) (off n m : Z) :
  0 <= off -> 0 <= n -> 0 <= m ->
  buf_slice fh off (n + m)
  = (buf_slice fh off n ++ buf_slice fh (off + n) m)%list.
Proof.
  intros Ho Hn Hm. unfold buf_slice.
  rewrite Z2Nat.inj_add by lia.
  rewrite (Z2Nat.inj_add off n) by lia.
  rewrite firstn_add_split, skipn_skipn.
  now rewrite (Nat.add_comm (Z.to_nat n)).
Qed.

Lemma firstn_app_exact {A : Type} (l1 l2 : list A) (n : nat) :
  (List.length l1 <= n)%nat ->
  firstn n (l1 ++ l2) = (l1 ++ firstn (n - List.length l1) l2)%list.
Proof.
  intros H. rewrite firstn_app. rewrite firstn_all2 by lia. reflexivity.
Qed.

Lemma skipn_app_exact {A : Type} (l1 l2 : list A) (n : nat) :
  (List.length l1 <= n)%nat ->
  skipn n (l1 ++ l2) = skipn (n - List.length l1) l2.
Proof.
  intros H. rewrite skipn_app. rewrite skipn_all2 by lia. reflexivity.
Qed.

Lemma store_at_0 (data b : list byte) :
  (List.length data <= List.length b)%nat ->
  store_at 0 data b = (data ++ skipn (List.length data) b)%list.
Proof.
  intros H. unfold store_at. simpl.
  apply firstn_all2. rewrite length_app, length_skipn. lia.
Qed.

Lemma store_at_length (off : Z) (data b : list byte) :
  0 <= off -> (Z.to_nat off + List.length data <= List.length b)%nat ->
  List.length (store_at off data b) = List.length b.
Proof.
  intros Ho H. unfold store_at.
  rewrite length_firstn, !length_app, length_firstn, length_skipn. lia.
Qed.

Section Reading.

Variable rest : T -> list byte.
Hypothesis Hrest : reads_like_file IO rest.

(** What [io->read] does on a stream that reads like a file. *)
Lemma call_read_file (s : T) (len rc : Z) (data : list byte) (s' : T) :
  0 < len < 2 ^ 63 ->
  call_read IO s len = (rc, data, s') ->
  data = firstn (Z.to_nat len) (rest s)
  /\ rc = Z.of_nat (List.length data)
  /\ rest s' = skipn (Z.to_nat len) (rest s).
Proof.
  intros Hlen Hc.
  destruct (call_read_inv IO _ _ _ _ _ Hc) as [rc0 [Er Hrc]].
  destruct (Hrest _ _ _ _ _ Hlen Er) as (Hd & Hn & Hs).
  repeat split; auto.
  subst rc rc0. apply s64_small.
  rewrite Hd, length_firstn. lia.
Qed.

(** The loop of [doBufferedRead] on a handle with a buffer. *)
Lemma doBufferedRead_loop_transparent (fh : FileHandle T) (out : list byte)
  (len retval : Z) :
  handle_wf fh -> buffer_ok fh -> buffer fh <> None ->
  0 <= len -> retval = Z.of_nat (List.length out) -> retval + len < 2 ^ 63 ->
  let '(rc, data, fh') := doBufferedRead_loop IO fh out len retval in
  data = (out ++ firstn (Z.to_nat len) (unread rest fh))%list
  /\ rc = Z.of_nat (List.length data)
  /\ unread rest fh' = skipn (Z.to_nat len) (unread rest fh)
  /\ handle_wf fh' /\ buffer_ok fh' /\ buffer fh' <> None
  /\ forReading fh' = forReading fh.
Proof.
  funelim (doBufferedRead_loop IO fh out len retval);
    intros Hwf Hok Hbuf Hlen0 Hret Hsum.
  - (* nothing left to read *)
    replace len with 0 by lia. simpl. rewrite app_nil_r. tauto.
  - (* bytes are taken from the buffer *)
    clear Heqcall.
    destruct (buffer fh) as [b|] eqn:Eb; [|congruence].
    pose proof Hwf as Hwf0. unfold handle_wf in Hwf0.
    pose proof Hok as Hok0. unfold buffer_ok in Hok0. rewrite Eb in Hok0.
    pose proof Hav as Hav'. unfold fh_avail in Hav', H |- *.
    rewrite (u64_small (buffill fh - bufpos fh)) in Hav', H |- * by lia.
    set (cpy := Z.min len (buffill fh - bufpos fh)) in *.
    assert (Hcpy : 1 <= cpy <= len /\ cpy <= buffill fh - bufpos fh) by (unfold cpy; lia).
    rewrite (u64_small (bufpos fh + cpy)) in H |- * by lia.
    rewrite (u64_small (len - cpy)) in H |- * by lia.
    assert (Hsl : Z.of_nat (List.length (buf_slice fh (bufpos fh) cpy)) = cpy).
    { apply (buf_slice_length fh b); auto; lia. }
    rewrite (s64_small (retval + cpy)) in H |- * by lia.
    set (fh2 := set_bufpos fh (bufpos fh + cpy)) in *.
    assert (Hwf2 : handle_wf fh2) by (unfold handle_wf, fh2; simpl; lia).
    assert (Hok2 : buffer_ok fh2) by (unfold buffer_ok, fh2; simpl; rewrite Eb; lia).
    assert (Hbuf2 : buffer fh2 <> None) by (unfold fh2; simpl; congruence).
    specialize (H Hwf2 Hok2 Hbuf2 ltac:(lia)
                  ltac:(rewrite length_app; lia) ltac:(lia)).
    destruct (doBufferedRead_loop IO fh2 _ _ _) as [[rc data] fh'].
    destruct H as (Hd & Hrc & Hun & Hwf' & Hok' & Hbuf' & Hfr).
    assert (Hsplit : unread rest fh
                     = (buf_slice fh (bufpos fh) cpy ++ unread rest fh2)%list).
    { unfold unread. rewrite app_assoc. f_equal.
      replace (buffill fh - bufpos fh) with (cpy + (buffill fh - bufpos fh - cpy)) at 1 by lia.
      rewrite buf_slice_split by lia.
      unfold fh2. simpl. f_equal.
      replace (buffill fh - (bufpos fh + cpy)) with (buffill fh - bufpos fh - cpy) by lia.
      reflexivity. }
    assert (Hn : (Z.to_nat len - List.length (buf_slice fh (bufpos fh) cpy)
                  = Z.to_nat (len - cpy))%nat) by lia.
    split; [|split; [|split; [|tauto]]].
    + rewrite Hd, Hsplit, <- app_assoc. f_equal.
      rewrite firstn_app_exact by lia. rewrite Hn. reflexivity.
    + exact Hrc.
    + rewrite Hun, Hsplit. rewrite skipn_app_exact by lia. rewrite Hn. reflexivity.
  - (* the buffer is refilled *)
    clear Heqcall.
    destruct (buffer fh) as [b|] eqn:Eb; [|congruence].
    pose proof Hwf as Hwf0. unfold handle_wf in Hwf0.
    pose proof Hok as Hok0. unfold buffer_ok in Hok0. rewrite Eb in Hok0.
    destruct (call_read_file (io fh) (bufsize fh) rc data s' ltac:(lia) Heq)
      as (Hd & Hn & Hs).
    assert (Hdl : Z.of_nat (List.length data) <= bufsize fh).
    { rewrite Hd, length_firstn. lia. }
    rewrite (u64_small rc) in H |- * by lia.
    set (fh3 := refilled fh s' data rc) in *.
    assert (Hwf3 : handle_wf fh3) by (unfold handle_wf, fh3; simpl; lia).
    assert (Hok3 : buffer_ok fh3).
    { unfold buffer_ok, fh3. simpl. rewrite Eb. simpl.
      rewrite store_at_length by (simpl; lia). lia. }
    assert (Hbuf3 : buffer fh3 <> None) by (unfold fh3; simpl; rewrite Eb; discriminate).
    assert (Hsame : unread rest fh3 = unread rest fh).
    { pose proof Hav as Hav'. unfold fh_avail in Hav'.
      rewrite (u64_small (buffill fh - bufpos fh)) in Hav' by lia.
      unfold unread.
      replace (buffill fh - bufpos fh) with 0 by lia.
      unfold buf_slice at 2. simpl.
      unfold fh3, buf_slice, buffer_bytes. simpl. rewrite Eb. simpl.
      rewrite store_at_0 by lia.
      rewrite Z.sub_0_r, Hn, Nat2Z.id.
      rewrite firstn_app_exact by lia. rewrite Nat.sub_diag, firstn_O, app_nil_r.
      rewrite Hs, Hd. apply firstn_skipn. }
    specialize (H Hwf3 Hok3 Hbuf3 Hlen0 Hret Hsum).
    destruct (doBufferedRead_loop IO fh3 _ _ _) as [[rc' data'] fh'].
    rewrite Hsame in H. exact H.
  - (* the stream has nothing more *)
    clear Heqcall.
    destruct (buffer fh) as [b|] eqn:Eb; [|congruence].
    pose proof Hwf as Hwf0. unfold handle_wf in Hwf0.
    pose proof Hok as Hok0. unfold buffer_ok in Hok0. rewrite Eb in Hok0.
    destruct (call_read_file (io fh) (bufsize fh) rc data s' ltac:(lia) Heq)
      as (Hd & Hn & Hs).
    assert (Hrc : rc = 0) by lia.
    assert (Hnil : data = []) by (destruct data; [reflexivity | simpl in Hn; lia]).
    assert (Hrest0 : rest (io fh) = []).
    { rewrite Hnil in Hd. destruct (rest (io fh)); [reflexivity|].
      replace (Z.to_nat (bufsize fh)) with (S (Z.to_nat (bufsize fh - 1))) in Hd by lia.
      discriminate. }
    assert (Hun : unread rest fh = []).
    { pose proof Hav as Hav'. unfold fh_avail in Hav'.
      rewrite (u64_small (buffill fh - bufpos fh)) in Hav' by lia.
      unfold unread.
      replace (buffill fh - bufpos fh) with 0 by lia.
      unfold buf_slice. simpl. exact Hrest0. }
    rewrite Hun, firstn_nil, skipn_nil, app_nil_r.
    split; [reflexivity|]. split; [|split; [|split; [|split; [|split]]]].
    + destruct (retval =? 0) eqn:E; lia.
    + unfold unread, buf_slice. simpl. rewrite Hs, Hrest0. apply skipn_nil.
    + unfold handle_wf. simpl. lia.
    + unfold buffer_ok. simpl. rewrite Eb. simpl. subst data.
      rewrite store_at_length by (simpl; lia). lia.
    + simpl. rewrite Eb. discriminate.
    + reflexivity.
Qed.

(** X7.  On a stream that reads like a file, a handle opened for reading
    delivers the same bytes with or without a buffer: [PHYSFS_readBytes]
    returns the next [len] bytes that the handle has still to deliver (what
    is left of them at the end of the file), reports their number, and
    leaves the bytes after them to be read next. *)
Theorem readBytes_delivers_next_bytes (fh : FileHandle T) (len : Z) :
  forReading fh = true ->
  handle_wf fh -> buffer_ok fh ->
  0 <= len < 2 ^ 63 ->
  exists fh',
    PHYSFS_readBytes IO fh len
    = Ok (Z.of_nat (List.length (firstn (Z.to_nat len) (unread rest fh))),
          firstn (Z.to_nat len) (unread rest fh), fh')
    /\ unread rest fh' = skipn (Z.to_nat len) (unread rest fh)
    /\ forReading fh' = true /\ handle_wf fh' /\ buffer_ok fh'.
Proof.
  intros Hr Hwf Hok Hlen. unfold PHYSFS_readBytes.
  rewrite u64_idem, (u64_small len) by lia.
  cbn [__PHYSFS_ui64FitsAddressSpace negb]. rewrite Hr. cbn [negb].
  replace (len >? maxlen) with false
    by (symmetry; rewrite Z.gtb_ltb; apply Z.ltb_ge; unfold maxlen; lia).
  destruct (len =? 0) eqn:E0.
  - apply Z.eqb_eq in E0. subst len. exists fh. simpl. auto.
  - apply Z.eqb_neq in E0.
    destruct (buffer fh) as [b|] eqn:Eb.
    + pose proof (doBufferedRead_loop_transparent fh [] len 0 Hwf Hok
                    ltac:(congruence) ltac:(lia) eq_refl ltac:(lia)) as H.
      unfold doBufferedRead.
      destruct (doBufferedRead_loop IO fh [] len 0) as [[rc data] fh'].
      destruct H as (Hd & Hrc & Hun & Hwf' & Hok' & _ & Hfr).
      simpl in Hd. subst data rc. exists fh'.
      split; [reflexivity|]. split; [exact Hun|]. split; [congruence|]. tauto.
    + destruct (call_read IO (io fh) len) as [[rc data] s'] eqn:Ec.
      destruct (call_read_file (io fh) len rc data s' ltac:(lia) Ec)
        as (Hd & Hn & Hs).
      pose proof Hwf as Hwf0. unfold handle_wf in Hwf0.
      pose proof Hok as Hok0. unfold buffer_ok in Hok0. rewrite Eb in Hok0.
      assert (Hun : unread rest fh = rest (io fh)).
      { unfold unread, buf_slice, buffer_bytes. rewrite Eb.
        rewrite skipn_nil, firstn_nil. reflexivity. }
      exists (set_io fh s'). rewrite Hun. subst rc data.
      split; [reflexivity|]. split; [|split; [exact Hr|split; [exact Hwf|]]].
      * unfold unread, buf_slice, buffer_bytes. simpl. rewrite Eb.
        rewrite skipn_nil, firstn_nil. simpl. exact Hs.
      * unfold buffer_ok. simpl. rewrite Eb. exact Hok0.
Qed.

End Reading.

(** ** Writing through the buffer *)

Lemma store_at_prefix (off : Z) (data b : list byte) :
  0 <= off -> (Z.to_nat off + List.length data <= List.length b)%nat ->
  firstn (Z.to_nat off + List.length data) (store_at off data b)
  = (firstn (Z.to_nat off) b ++ data)%list.
Proof.
  intros Ho H. unfold store_at.
  rewrite firstn_firstn, Nat.min_l by lia.
  rewrite app_assoc, firstn_app_exact
    by (rewrite length_app, length_firstn; lia).
  rewrite length_app, length_firstn.
  replace (Z.to_nat off + List.length data
           - (Nat.min (Z.to_nat off) (List.length b) + List.length data))%nat
    with 0%nat by lia.
  now rewrite firstn_O, app_nil_r.
Qed.

Section Writing.

Variable written : T -> list byte.
Hypothesis Hwritten : writes_like_file IO written.

Lemma call_write_file (s : T) (buf : list byte) (len rc : Z) (s' : T) :
  0 < len < 2 ^ 63 -> Z.of_nat (List.length buf) = len ->
  call_write IO s buf len = (rc, s') ->
  rc = len /\ written s' = (written s ++ buf)%list.
Proof.
  intros Hlen Hbuf. unfold call_write.
  destruct (io_write IO s buf len) as [rc0 s0] eqn:E.
  intros H. injection H as <- <-.
  destruct (Hwritten _ _ _ _ _ Hlen Hbuf E) as [Hrc Hw].
  split; [|exact Hw]. rewrite Hrc. apply s64_small. lia.
Qed.

Lemma flush_taken (fh : FileHandle T) :
  writer_ok fh ->
  exists fh',
    PHYSFS_flush IO fh = (true, fh')
    /\ written (io fh') = taken written fh
    /\ buffill fh' = 0 /\ writer_ok fh'.
Proof.
  intros (Hr & Hwf & Hok & Hp).
  pose proof Hwf as Hwf0. unfold handle_wf in Hwf0.
  destruct (Z.eq_dec (buffill fh) 0) as [Hz | Hnz].
  - exists fh. rewrite flush_noop by (right; lia).
    unfold taken. rewrite Hz. unfold buf_slice. simpl. rewrite app_nil_r.
    split; [reflexivity|]. split; [reflexivity|]. split; [reflexivity|].
    unfold writer_ok. tauto.
  - rewrite flush_writes_pending by (auto; lia). cbv zeta.
    rewrite Hp, Z.sub_0_r, u64_small by lia.
    pose proof Hok as Hok0. unfold buffer_ok in Hok0.
    destruct (buffer fh) as [b|] eqn:Eb; [|lia].
    destruct (call_write IO (io fh) (buf_slice fh 0 (buffill fh)) (buffill fh))
      as [rc s'] eqn:Ec.
    assert (Hsl : Z.of_nat (List.length (buf_slice fh 0 (buffill fh))) = buffill fh)
      by (apply (buf_slice_length fh b); auto; lia).
    assert (Hfill : 0 < buffill fh < 2 ^ 63) by lia.
    destruct (call_write_file _ _ _ _ _ Hfill Hsl Ec) as [Hrc Hw].
    replace (rc <=? 0) with false by (symmetry; apply Z.leb_gt; lia).
    eexists. split; [reflexivity|]. simpl.
    split; [exact Hw|]. split; [reflexivity|].
    unfold writer_ok, handle_wf, buffer_ok. simpl. rewrite Eb.
    repeat split; auto; lia.
Qed.

Lemma writeBytes_taken (fh : FileHandle T) (data : list byte) :
  writer_ok fh ->
  Z.of_nat (List.length data) < 2 ^ 63 ->
  exists fh',
    PHYSFS_writeBytes IO fh data (Z.of_nat (List.length data))
    = Ok (Z.of_nat (List.length data), fh')
    /\ taken written fh' = (taken written fh ++ data)%list
    /\ writer_ok fh'.
Proof.
  intros Hw Hn. pose proof Hw as (Hr & Hwf & Hok & Hp).
  pose proof Hwf as Hwf0. unfold handle_wf in Hwf0.
  set (n := Z.of_nat (List.length data)) in *.
  unfold PHYSFS_writeBytes. rewrite u64_idem, (u64_small n) by lia.
  cbn [__PHYSFS_ui64FitsAddressSpace negb]. rewrite Hr.
  replace (n >? maxlen) with false
    by (symmetry; rewrite Z.gtb_ltb; apply Z.ltb_ge; unfold maxlen; lia).
  destruct (n =? 0) eqn:E0.
  - apply Z.eqb_eq in E0. exists fh.
    assert (data = []) by (destruct data; [reflexivity | simpl in n; lia]).
    subst data. rewrite E0, app_nil_r. auto.
  - apply Z.eqb_neq in E0.
    pose proof Hok as Hok0. unfold buffer_ok in Hok0.
    destruct (buffer fh) as [b|] eqn:Eb.
    + unfold doBufferedWrite. rewrite (u64_small (buffill fh + n)) by lia.
      destruct (buffill fh + n <? bufsize fh) eqn:Efit.
      * apply Z.ltb_lt in Efit. rewrite (s64_small n) by lia.
        eexists. split; [reflexivity|]. split.
        -- unfold taken, buf_slice, buffer_bytes. simpl. rewrite Eb. simpl.
           rewrite <- app_assoc. f_equal.
           rewrite Z2Nat.inj_add by lia. unfold n at 1. rewrite Nat2Z.id.
           apply store_at_prefix; lia.
        -- unfold writer_ok, handle_wf, buffer_ok. simpl. rewrite Eb. simpl.
           rewrite store_at_length by lia. repeat split; auto; lia.
      * destruct (flush_taken fh Hw) as (fh1 & Hf & Hw1 & Hfill1 & Hok1).
        rewrite Hf. cbn [negb].
        destruct (call_write IO (io fh1) data n) as [rc s'] eqn:Ec.
        assert (Hn0 : 0 < n < 2 ^ 63) by lia.
        destruct (call_write_file _ _ _ _ _ Hn0 eq_refl Ec) as [Hrc Hws].
        subst rc. exists (set_io fh1 s'). split; [reflexivity|].
        destruct Hok1 as (Hr1 & Hwf1 & Hbo1 & Hp1).
        split.
        -- unfold taken. simpl. rewrite Hfill1. unfold buf_slice. simpl.
           rewrite app_nil_r, Hws, Hw1. reflexivity.
        -- unfold writer_ok, handle_wf, buffer_ok in *. simpl. auto.
    + destruct (call_write IO (io fh) data n) as [rc s'] eqn:Ec.
      assert (Hn0 : 0 < n < 2 ^ 63) by lia.
      destruct (call_write_file _ _ _ _ _ Hn0 eq_refl Ec) as [Hrc Hws].
      subst rc. exists (set_io fh s'). split; [reflexivity|]. split.
      * unfold taken, buf_slice, buffer_bytes. simpl. rewrite Eb.
        rewrite firstn_nil, !app_nil_r. exact Hws.
      * unfold writer_ok, handle_wf, buffer_ok in *. simpl. rewrite Eb. auto.
Qed.

(** X8.  On a stream that writes like a file, what is written through a
    handle reaches the stream complete and in order, whatever the size of
    the buffer and of the pieces: after [PHYSFS_writeBytes] for each of
    [chunks], every call reporting the full length, and a [PHYSFS_flush],
    the stream has taken what the handle held before, followed by the
    chunks one after the other. *)
Theorem buffered_writes_reach_stream (fh : FileHandle T)
  (chunks : list (list byte)) :
  forReading fh = false -> handle_wf fh -> buffer_ok fh -> bufpos fh = 0 ->
  Forall (fun c => Z.of_nat (List.length c) < 2 ^ 63) chunks ->
  exists fh1 fh2,
    write_chunks IO chunks fh = Some fh1
    /\ PHYSFS_flush IO fh1 = (true, fh2)
    /\ written (io fh2) = (taken written fh ++ List.concat chunks)%list
    /\ buffill fh2 = 0.
Proof.
  intros Hr Hwf Hok Hp Hall.
  assert (Hw : writer_ok fh) by (unfold writer_ok; auto).
  clear Hr Hwf Hok Hp. revert fh Hw.
  induction Hall as [|c chunks Hc Hall IH]; intros fh Hw.
  - destruct (flush_taken fh Hw) as (fh2 & Hf & Hwr & Hz & _).
    exists fh, fh2. simpl. rewrite app_nil_r. auto.
  - destruct (writeBytes_taken fh c Hw Hc) as (fh' & Hwb & Ht & Hw').
    destruct (IH fh' Hw') as (fh1 & fh2 & Hch & Hf & Hwr & Hz).
    exists fh1, fh2. simpl. rewrite Hwb, Z.eqb_refl.
    split; [exact Hch|]. split; [exact Hf|]. split; [|exact Hz].
    rewrite Hwr, Ht, <- app_assoc. reflexivity.
Qed.

End Writing.

(** ** Positions *)

(** X9.  On a stream whose [seek] moves it to the position asked for, a
    successful [PHYSFS_seek] is seen by [PHYSFS_tell]: the handle then
    reports the position that was sought, whether the seek stayed inside the
    buffer, went to the stream, or flushed pending output first. *)
Theorem seek_then_tell (fh fh' : FileHandle T) (pos : Z) :
  seek_contract IO ->
  handle_wf fh ->
  (forReading fh = true -> buffill fh <= io_tell IO (io fh) < 2 ^ 63) ->
  0 <= pos < 2 ^ 63 ->
  PHYSFS_seek IO fh pos = (true, fh') ->
  PHYSFS_tell IO fh' = pos.
Proof.
  intros Hseek Hwf Hio Hpos. unfold PHYSFS_seek.
  destruct (PHYSFS_flush IO fh) as [ok fh1] eqn:Hf.
  pose proof (flush_wf IO fh Hwf) as Hwf1. rewrite Hf in Hwf1. cbn [snd] in Hwf1.
  destruct ok; cbn [negb]; [|discriminate].
  assert (Hraw : (let fh0 := set_bufpos (set_buffill fh1 0) 0 in
                  let '(r, s') := io_seek IO (io fh0) pos in
                  (r, set_io fh0 s')) = (true, fh') ->
                 PHYSFS_tell IO fh' = pos).
  { cbv zeta. simpl. destruct (io_seek IO (io fh1) pos) as [r s'] eqn:Es.
    intros H. inversion H; subst.
    pose proof (Hseek _ _ _ Hpos Es) as Ht.
    unfold PHYSFS_tell, call_tell. simpl. rewrite Ht.
    rewrite (s64_small pos) by lia.
    destruct (forReading fh1).
    - rewrite Z.sub_0_r, Z.add_0_r, u64_idem, s64_u64. apply s64_small. lia.
    - rewrite Z.add_0_r, s64_u64. apply s64_small. lia. }
  destruct (buffer fh1) as [b|] eqn:Eb; [|exact Hraw].
  destruct (forReading fh1) eqn:Er1; [|exact Hraw].
  assert (Hr : forReading fh = true).
  { pose proof (flush_forReading IO fh) as Hfr. rewrite Hf in Hfr.
    cbn [snd] in Hfr. congruence. }
  rewrite (flush_reading IO fh Hr) in Hf. inversion Hf; subst fh1. clear Hf.
  specialize (Hio Hr).
  pose proof Hwf as Hwf0. unfold handle_wf in Hwf0.
  assert (Ht : PHYSFS_tell IO fh = io_tell IO (io fh) - buffill fh + bufpos fh).
  { rewrite tell_exact; [unfold logical_pos; now rewrite Hr | exact Hwf | lia |].
    rewrite Hr. discriminate. }
  rewrite Ht. set (t := io_tell IO (io fh) - buffill fh + bufpos fh) in *.
  rewrite s64_u64, (s64_small (pos - t)) by lia.
  destruct ((pos - t >=? 0) && (u64 (pos - t) <=? u64 (buffill fh - bufpos fh))
            || (pos - t <? 0) && (u64 (- (pos - t)) <=? bufpos fh)) eqn:Hin;
    [|exact Hraw].
  intros H. inversion H; subst fh'. clear H.
  rewrite (u64_small (buffill fh - bufpos fh)) in Hin by lia.
  assert (Hnew : 0 <= bufpos fh + (pos - t) <= buffill fh).
  { apply orb_true_iff in Hin.
    destruct Hin as [Hin | Hin]; apply andb_true_iff in Hin; destruct Hin as [H1 H2].
    - rewrite (u64_small (pos - t)) in H2 by lia. lia.
    - rewrite (u64_small (- (pos - t))) in H2 by lia. lia. }
  rewrite (u64_small (bufpos fh + (pos - t))) by lia.
  rewrite tell_exact.
  - unfold logical_pos. simpl. rewrite Hr. unfold t. lia.
  - unfold handle_wf. simpl. lia.
  - simpl. lia.
  - simpl. rewrite Hr. discriminate.
Qed.

(** X10.  [PHYSFS_setBuffer] does not lose the place of a handle opened for
    reading: on a stream whose [seek] moves it to the position asked for,
    after a successful call [PHYSFS_tell] reports the same position as
    before, the new buffer is empty and has the size that was asked for. *)
Theorem setBuffer_keeps_position (fh fh' : FileHandle T) (n : Z) :
  seek_contract IO ->
  forReading fh = true ->
  handle_wf fh ->
  buffill fh <= io_tell IO (io fh) < 2 ^ 63 ->
  0 <= n < 2 ^ 63 ->
  PHYSFS_setBuffer IO fh n = Ok (true, fh') ->
  PHYSFS_tell IO fh' = PHYSFS_tell IO fh
  /\ bufsize fh' = n /\ buffill fh' = 0 /\ bufpos fh' = 0
  /\ buffer_ok fh' /\ handle_wf fh'.
Proof.
  intros Hseek Hr Hwf Hio Hn.
  pose proof Hwf as Hwf0. unfold handle_wf in Hwf0.
  assert (Ht : PHYSFS_tell IO fh = io_tell IO (io fh) - buffill fh + bufpos fh).
  { rewrite tell_exact; [unfold logical_pos; now rewrite Hr | exact Hwf | lia |].
    rewrite Hr. discriminate. }
  unfold PHYSFS_setBuffer. rewrite (u64_small n) by lia.
  cbn [__PHYSFS_ui64FitsAddressSpace negb].
  rewrite (flush_reading IO fh Hr). cbn [negb]. rewrite Hr. cbn [andb].
  assert (Hfin : forall (f : FileHandle T) (b : option (list byte)),
             forReading f = true ->
             0 <= io_tell IO (io f) < 2 ^ 63 ->
             b = (if n =? 0 then None
                  else Some (firstn (Z.to_nat n)
                               (buffer_bytes f ++ repeat Byte.x00 (Z.to_nat n))%list)) ->
             let f' := set_bufpos (set_buffill (set_bufsize (set_buffer f b) n) 0) 0 in
             PHYSFS_tell IO f' = io_tell IO (io f)
             /\ bufsize f' = n /\ buffill f' = 0 /\ bufpos f' = 0
             /\ buffer_ok f' /\ handle_wf f').
  { intros f b Hrf Htf Hb. cbv zeta.
    split; [|split; [reflexivity|split; [reflexivity|split; [reflexivity|split]]]].
    - unfold PHYSFS_tell, call_tell. simpl. rewrite Hrf.
      rewrite (s64_small (io_tell IO (io f))) by lia.
      rewrite Z.sub_0_r, Z.add_0_r, u64_idem, s64_u64. apply s64_small. lia.
    - unfold buffer_ok. simpl. subst b. destruct (n =? 0) eqn:E0; [reflexivity|].
      apply Z.eqb_neq in E0.
      rewrite length_firstn, length_app, repeat_length. lia.
    - unfold handle_wf. simpl. lia. }
  destruct (negb (buffill fh =? bufpos fh)) eqn:Eq.
  - destruct (call_tell IO (io fh) =? -1); [discriminate|].
    unfold call_tell. rewrite (s64_small (io_tell IO (io fh))) by lia.
    rewrite (u64_small (io_tell IO (io fh) - buffill fh)) by lia.
    rewrite (u64_small (io_tell IO (io fh) - buffill fh + bufpos fh)) by lia.
    destruct (io_seek IO (io fh) _) as [r s'] eqn:Es.
    destruct r; cbn [negb]; [|discriminate].
    assert (Hrange : 0 <= io_tell IO (io fh) - buffill fh + bufpos fh < 2 ^ 63) by lia.
    pose proof (Hseek _ _ _ Hrange Es) as Hts.
    intros H. inversion H; subst fh'. clear H.
    rewrite Ht, <- Hts.
    apply (Hfin (set_io fh s')); simpl; auto. lia.
  - intros H. inversion H; subst fh'. clear H.
    apply negb_false_iff, Z.eqb_eq in Eq.
    rewrite Ht. replace (io_tell IO (io fh) - buffill fh + bufpos fh)
      with (io_tell IO (io fh)) by lia.
    apply (Hfin fh); auto. lia.
Qed.

End BufferProps.

(* ===================================================================== *)
(** * The mount stack: what can be mounted, and where *)
(* ===================================================================== *)

Section MoreMountProps.

Context {T : Type}.
Variable IO : PHYSFS_Io T.
Variable P : Platform T.

Lemma next_addr_set (c : PHYSFS_ErrorCode) (e : @Env T) :
  next_addr (PHYSFS_setErrorCode c e) = next_addr e.
Proof.
  unfold PHYSFS_setErrorCode. destruct (errcode_eqb c PHYSFS_ERR_OK); reflexivity.
Qed.

(** A handle that [openDirectory] returns was made by the DIR archiver for a
    path that the platform reports as a directory, with no Io given. *)
Lemma openDirectory_Some (io : option T) (d : string) (fw : bool)
  (e e' : @Env T) (dh : @DirHandle T) :
  openDirectory IO P io d fw e = (Some dh, e') ->
  io = None
  /\ (exists sb, __PHYSFS_platformStat P d true = (None, sb)
                 /\ filetype sb = PHYSFS_FILETYPE_DIRECTORY)
  /\ funcs dh = __PHYSFS_Archiver_DIR P
  /\ opaque dh = (if ends_with_slash d then d else d ++ "/")
  /\ dh_addr dh = next_addr e
  /\ next_addr e' = S (next_addr e).
Proof.
  unfold openDirectory. destruct io as [s|]; [discriminate|].
  unfold platformStat.
  destruct (__PHYSFS_platformStat P d true) as [[c|] sb] eqn:Es;
    cbn [negb]; [discriminate|].
  destruct (filetype_eqb (filetype sb) PHYSFS_FILETYPE_DIRECTORY) eqn:Ed.
  - unfold tryOpenDir. cbn [negb openArchive __PHYSFS_Archiver_DIR].
    unfold DIR_openArchive, platformStat. rewrite Es. cbn [negb]. rewrite Ed.
    cbn [negb]. unfold alloc. cbn.
    intros H. inversion H; subst. cbn.
    apply filetype_eqb_eq in Ed.
    split; [reflexivity|]. split; [exists sb; auto|].
    unfold __PHYSFS_platformDirSeparator.
    repeat split; reflexivity.
  - destruct (__PHYSFS_createNativeIo P d _ _) as [[s|] e1]; discriminate.
Qed.

Lemma createDirHandle_Some (io : option T) (newDir : string)
  (mp : option string) (fw : bool) (e e' : @Env T) (dh : @DirHandle T) :
  createDirHandle IO P io newDir mp fw e = (Some dh, e') ->
  exists dh0,
    openDirectory IO P io newDir fw e = (Some dh0, e')
    /\ dh_addr dh = dh_addr dh0 /\ opaque dh = opaque dh0
    /\ funcs dh = funcs dh0 /\ dirName dh = Some newDir
    /\ mountPoint dh
       = match mp with
         | Some m =>
             match sanitizePlatformIndependentPath m with
             | Ok (String c s) => Some (String c s ++ "/")
             | _ => None
             end
         | None => None
         end.
Proof.
  unfold createDirHandle.
  destruct mp as [m|].
  - destruct (sanitizePlatformIndependentPath m) as [m'|c]; [|discriminate].
    destruct (openDirectory IO P io newDir fw e) as [[h|] e1]; [|discriminate].
    intros H. inversion H; subst. exists h. cbn. auto 10.
  - destruct (openDirectory IO P io newDir fw e) as [[h|] e1]; [|discriminate].
    intros H. inversion H; subst. exists h. cbn. auto 10.
Qed.

Lemma not_mounted (fname : string) (sp : list (@DirHandle T)) :
  (forall dh, In dh sp -> dirName dh <> Some fname) ->
  existsb (dirName_is fname) sp = false.
Proof.
  intros Hnone. destruct (existsb (dirName_is fname) sp) eqn:E; auto.
  apply existsb_exists in E. destruct E as [dh [Hin Hn]].
  apply dirName_is_true in Hn. exfalso. eapply Hnone; eauto.
Qed.

(** What a mount of a new name leaves behind. *)
Lemma doMount_new (io : option T) (fname : string) (mp : option string)
  (app : bool) (d d' : @Drive T) :
  (forall dh, In dh (searchPath d) -> dirName dh <> Some fname) ->
  doMount IO P io (Some fname) mp app d = (true, d') ->
  exists dh e',
    createDirHandle IO P io fname
      (Some match mp with
            | Some m => m
            | None => "/"
            end) false (env d) = (Some dh, e')
    /\ d' = set_searchPath (set_env d e')
              (if app then (searchPath d ++ [dh])%list else dh :: searchPath d).
Proof.
  intros Hnone. unfold doMount. rewrite (not_mounted _ _ Hnone).
  destruct (createDirHandle IO P io fname _ false (env d)) as [[dh|] e1] eqn:E;
    [|discriminate].
  intros H. inversion H; subst. exists dh, e1. auto.
Qed.

(** X11.  In this build a mount adds a handle only for a directory: when
    [doMount] succeeds for a name that was not mounted, no Io was passed,
    the platform reports the name as a directory, and the new handle of the
    search path belongs to the DIR archiver and carries the name. *)
Theorem mount_adds_only_directories (io : option T) (fname : string)
  (mp : option string) (app : bool) (d d' : @Drive T) :
  (forall dh, In dh (searchPath d) -> dirName dh <> Some fname) ->
  doMount IO P io (Some fname) mp app d = (true, d') ->
  io = None
  /\ (exists sb, __PHYSFS_platformStat P fname true = (None, sb)
                 /\ filetype sb = PHYSFS_FILETYPE_DIRECTORY)
  /\ exists dh,
       In dh (searchPath d') /\ dirName dh = Some fname
       /\ funcs dh = __PHYSFS_Archiver_DIR P
       /\ opaque dh = (if ends_with_slash fname then fname else fname ++ "/").
Proof.
  intros Hnone Hm.
  destruct (doMount_new _ _ _ _ _ _ Hnone Hm) as (dh & e' & Hc & Hd).
  destruct (createDirHandle_Some _ _ _ _ _ _ _ Hc)
    as (dh0 & Ho & Ha & Hop & Hf & Hn & Hmp).
  destruct (openDirectory_Some _ _ _ _ _ _ Ho) as (Hio & Hst & Hf0 & Hop0 & _).
  split; [exact Hio|]. split; [exact Hst|].
  exists dh. subst d'. cbn.
  split; [destruct app; [apply in_or_app; right|]; now left|].
  split; [exact Hn|]. split; congruence.
Qed.

(** X12.  [PHYSFS_mountIo] cannot mount anything in this build: for a name
    that is not mounted it fails, whatever the stream and its version, and
    leaves the search path as it was; the stream is not touched and the
    platform is not asked (the record of outside calls does not grow). *)
Theorem mountIo_never_mounts (s : T) (version : Z) (fname : string)
  (mp : option string) (app : bool) (d : @Drive T) :
  (forall dh, In dh (searchPath d) -> dirName dh <> Some fname) ->
  exists c,
    PHYSFS_mountIo IO P (Some s) version (Some fname) mp app d
    = (false, bail c d)
    /\ (c = PHYSFS_ERR_UNSUPPORTED \/ c = PHYSFS_ERR_BAD_FILENAME).
Proof.
  intros Hnone. unfold PHYSFS_mountIo.
  destruct (negb (version =? 0)%Z); [exists PHYSFS_ERR_UNSUPPORTED; auto|].
  unfold doMount. rewrite (not_mounted _ _ Hnone).
  unfold createDirHandle.
  destruct (sanitizePlatformIndependentPath _) as [m|c] eqn:Es.
  - exists PHYSFS_ERR_UNSUPPORTED. cbn. auto.
  - exists c. split; [reflexivity|]. right. apply (sanitize_err _ _ Es).
Qed.

Lemma getMountPoint_loop_first (name : string) (pre post : list (@DirHandle T))
  (dh : @DirHandle T) :
  dirName dh = Some name ->
  (forall x, In x pre -> dirName x <> Some name) ->
  getMountPoint_loop name (pre ++ dh :: post)
  = Some match mountPoint dh with
         | Some m => m
         | None => "/"
         end.
Proof.
  intros Hname. induction pre as [|x pre IH]; intros Hpre.
  - cbn [app getMountPoint_loop]. rewrite Hname, strcmp_refl. reflexivity.
  - cbn [app getMountPoint_loop].
    assert (Hx : match dirName x with
                 | Some n => (strcmp n name =? 0)%Z
                 | None => false
                 end = false).
    { destruct (dirName x) as [n|] eqn:En; [|reflexivity].
      apply Z.eqb_neq. rewrite strcmp_eq. intros ->.
      apply (Hpre x); [now left | exact En]. }
    rewrite Hx. apply IH. intros y Hy. apply Hpre. now right.
Qed.

(** The search path after a mount of a new name, split at the new handle. *)
Lemma mounted_split (app : bool) (sp : list (@DirHandle T)) (dh : @DirHandle T) :
  exists pre post,
    (if app then (sp ++ [dh])%list else dh :: sp) = (pre ++ dh :: post)%list
    /\ (pre ++ post)%list = sp
    /\ (forall x, In x pre -> In x sp).
Proof.
  destruct app.
  - exists sp, []. rewrite app_nil_r. auto.
  - exists [], sp. split; [reflexivity|]. split; [reflexivity|]. intros x [].
Qed.

(** X13.  After [PHYSFS_mount] has mounted a new name, [PHYSFS_getMountPoint]
    for that name returns the mount point that was asked for, as it is
    kept: sanitized and with a ['/'] at its end; the root (also when no
    mount point was given) is reported as ["/"]. *)
Theorem mount_then_getMountPoint (dir : string) (mp : option string)
  (app : bool) (d d' : @Drive T) :
  (forall dh, In dh (searchPath d) -> dirName dh <> Some dir) ->
  PHYSFS_mount IO P (Some dir) mp app d = (true, d') ->
  PHYSFS_getMountPoint dir d'
  = (Some match sanitizePlatformIndependentPath
                  match mp with
                  | Some m => m
                  | None => "/"
                  end with
          | Ok (String c s) => String c s ++ "/"
          | _ => "/"
          end, d').
Proof.
  intros Hnone Hm. unfold PHYSFS_mount in Hm.
  destruct (doMount_new _ _ _ _ _ _ Hnone Hm) as (dh & e' & Hc & Hd).
  destruct (createDirHandle_Some _ _ _ _ _ _ _ Hc)
    as (dh0 & _ & _ & _ & _ & Hn & Hmp).
  destruct (mounted_split app (searchPath d) dh) as (pre & post & Hsp & _ & Hpre).
  unfold PHYSFS_getMountPoint.
  replace (searchPath d') with (pre ++ dh :: post)%list
    by (subst d'; cbn; now rewrite Hsp).
  rewrite (getMountPoint_loop_first dir pre post dh Hn)
    by (intros x Hx; apply Hnone; auto).
  rewrite Hmp.
  destruct (sanitizePlatformIndependentPath _) as [[|c s]|c]; reflexivity.
Qed.

(** X14.  A mount followed by an unmount of the same name gives the drive
    back: when [PHYSFS_mount] has mounted a new name and no file has been
    opened since, [PHYSFS_unmount] succeeds and the search path, the write
    directory and the open lists are those from before the mount.  The
    handles that are open refer to structures allocated before. *)
Theorem mount_then_unmount (dir : string) (mp : option string) (app : bool)
  (d d1 : @Drive T) :
  (forall dh, In dh (searchPath d) -> dirName dh <> Some dir) ->
  Forall (fun fh => dirHandle fh < next_addr (env d)) (openReadList d) ->
  PHYSFS_mount IO P (Some dir) mp app d = (true, d1) ->
  exists e2, PHYSFS_unmount (Some dir) d1 = (true, set_env d e2).
Proof.
  intros Hnone Hold Hm. unfold PHYSFS_mount in Hm.
  destruct (doMount_new _ _ _ _ _ _ Hnone Hm) as (dh & e' & Hc & Hd).
  destruct (createDirHandle_Some _ _ _ _ _ _ _ Hc)
    as (dh0 & Ho & Ha & _ & _ & Hn & _).
  destruct (openDirectory_Some _ _ _ _ _ _ Ho) as (_ & _ & _ & _ & Haddr & _).
  destruct (mounted_split app (searchPath d) dh) as (pre & post & Hsp & Hpp & Hpre).
  unfold PHYSFS_unmount.
  replace (searchPath d1) with (pre ++ dh :: post)%list
    by (subst d1; cbn; now rewrite Hsp).
  rewrite unmount_loop_first by (auto; intros x Hx; apply Hnone; auto).
  rewrite freeDirHandle_free.
  - eexists. subst d1. cbn. rewrite Hpp. unfold set_env, set_searchPath. cbn.
    reflexivity.
  - subst d1. cbn. intros fh Hin. rewrite Forall_forall in Hold.
    specialize (Hold fh Hin). lia.
Qed.

Lemma insert_at_end (str : string) (l : list string) :
  insert_at (Z.of_nat (List.length l)) (Z.of_nat (List.length l)) str l
  = (l ++ [str])%list.
Proof.
  unfold insert_at. rewrite Nat2Z.id, Z.sub_diag. cbn.
  now rewrite firstn_all.
Qed.

(** The loop of [PHYSFS_getSearchPathCallback] with the callback of
    [doEnumStringList]. *)
Lemma collect_dirNames (sp : list (@DirHandle T)) (names : list string) :
  Forall (fun i => dirName i <> None) sp ->
  (Z.of_nat (List.length names + List.length sp) < 2 ^ 32)%Z ->
  fold_left (fun data i =>
               match dirName i with
               | Some n => enumStringListCallback data n
               | None => data
               end) sp
            (mkEcd names (Z.of_nat (List.length names)) PHYSFS_ERR_OK)
  = mkEcd (names ++ flat_map (fun i => match dirName i with
                                       | Some n => [n]
                                       | None => []
                                       end) sp)%list
          (Z.of_nat (List.length names + List.length sp)) PHYSFS_ERR_OK.
Proof.
  revert names. induction sp as [|i sp IH]; intros names Hall Hlen.
  - cbn. rewrite app_nil_r, Nat.add_0_r. reflexivity.
  - inversion Hall as [|? ? Hi Hsp]; subst.
    cbn [fold_left flat_map].
    destruct (dirName i) as [n|] eqn:En; [|congruence].
    unfold enumStringListCallback at 2. cbn [ecd_errcode ecd_size ecd_list].
    cbn [errcode_eqb negb]. rewrite insert_at_end.
    cbn [List.length] in Hlen.
    rewrite u32_small by lia.
    replace (Z.of_nat (List.length names) + 1)%Z
      with (Z.of_nat (List.length (names ++ [n])))
      by (rewrite length_app; cbn; lia).
    rewrite IH by (auto; rewrite length_app; cbn; lia).
    rewrite length_app, <- app_assoc. cbn.
    f_equal. f_equal. lia.
Qed.

(** X15.  [PHYSFS_getSearchPath] returns the names of the handles of the
    search path in the order of the search path, then the NULL, and changes
    nothing: the first is the one that is searched first. *)
Theorem getSearchPath_lists_dirNames (d : @Drive T) :
  Forall (fun i => dirName i <> None) (searchPath d) ->
  (Z.of_nat (List.length (searchPath d)) < 2 ^ 32)%Z ->
  PHYSFS_getSearchPath d = (Some (map dirName (searchPath d) ++ [None])%list, d).
Proof.
  intros Hall Hlen. unfold PHYSFS_getSearchPath, doEnumStringList.
  unfold PHYSFS_getSearchPathCallback.
  change (mkEcd [] 0 PHYSFS_ERR_OK)
    with (mkEcd [] (Z.of_nat (@List.length string [])) PHYSFS_ERR_OK).
  rewrite collect_dirNames by (auto; cbn; lia).
  cbn [ecd_errcode ecd_size ecd_list errcode_eqb negb app List.length].
  rewrite Nat.add_0_l, Nat2Z.id.
  assert (Hmap : map Some (flat_map (fun i => match @dirName T i with
                                              | Some n => [n]
                                              | None => []
                                              end) (searchPath d))
                 = map dirName (searchPath d)).
  { clear Hlen. induction Hall as [|i sp Hi Hsp IH]; [reflexivity|].
    cbn. destruct (dirName i) as [n|] eqn:En; [|congruence].
    cbn. now rewrite IH. }
  assert (Hl : List.length (flat_map (fun i => match @dirName T i with
                                              | Some n => [n]
                                              | None => []
                                              end) (searchPath d))
               = List.length (searchPath d)).
  { rewrite <- (length_map Some), Hmap, length_map. reflexivity. }
  rewrite <- Hl, firstn_all, Hmap.
  unfold set_env. destruct d; reflexivity.
Qed.

End MoreMountProps.

(* ===================================================================== *)
(** * The write directory, PHYSFS_stat and the paths an archive sees *)
(* ===================================================================== *)

Section WriteProps.

Context {T : Type}.
Variable IO : PHYSFS_Io T.
Variable P : Platform T.
Variable w : @PHYSFS_ArchiverWrite T.

(** X16.  A file that is open for writing holds the write directory: the
    handle that [doOpenWrite] returns is opened for writing and is on the
    list of open write handles, and while it is there every
    [PHYSFS_setWriteDir], to another directory or to none, fails with
    [PHYSFS_ERR_FILES_STILL_OPEN] and leaves the write directory in place. *)
Theorem writeDir_held_while_file_open (fname newDir : option string)
  (appending : bool) (d d1 : @Drive T) (fh : FileHandle T) :
  doOpenWrite w fname appending d = (Some fh, d1) ->
  forReading fh = false /\ In fh (openWriteList d1)
  /\ PHYSFS_getWriteDir d1 = PHYSFS_getWriteDir d
  /\ PHYSFS_setWriteDir IO P newDir d1
     = (false, bail PHYSFS_ERR_FILES_STILL_OPEN d1).
Proof.
  unfold doOpenWrite. destruct fname as [n|]; [|discriminate].
  destruct (sanitizePlatformIndependentPath n) as [f|c]; [|discriminate].
  destruct (writeDir d) as [h|] eqn:Ew; [|discriminate].
  destruct (verifyPath (allowSymLinks d) h f false (env d)) as [[ok f1] e1].
  destruct ok; cbn [negb]; [|discriminate].
  destruct (if appending then openAppend w (opaque h) f1 e1
            else openWrite w (opaque h) f1 e1) as [[s|] e2]; [|discriminate].
  cbn. intros H. inversion H; subst. clear H. cbn.
  split; [reflexivity|]. split; [now left|].
  unfold PHYSFS_getWriteDir, PHYSFS_setWriteDir. cbn. rewrite Ew.
  split; [reflexivity|].
  cbn. rewrite Nat.eqb_refl. cbn. reflexivity.
Qed.

(** X17.  Without a write directory nothing is written: [PHYSFS_openWrite],
    [PHYSFS_openAppend], [PHYSFS_mkdir] and [PHYSFS_delete] all fail, with
    [PHYSFS_ERR_NO_WRITE_DIR] for a name that passes sanitization and
    [PHYSFS_ERR_BAD_FILENAME] for one that does not, and the drive changes
    in its error code only: no archiver and no platform call is made. *)
Theorem nothing_written_without_writeDir (name : string) (d : @Drive T) :
  writeDir d = None ->
  let c := match sanitizePlatformIndependentPath name with
           | Ok _ => PHYSFS_ERR_NO_WRITE_DIR
           | Err _ => PHYSFS_ERR_BAD_FILENAME
           end in
  PHYSFS_openWrite w (Some name) d = (None, bail c d)
  /\ PHYSFS_openAppend w (Some name) d = (None, bail c d)
  /\ PHYSFS_mkdir w (Some name) d = (false, bail c d)
  /\ PHYSFS_delete w (Some name) d = (false, bail c d).
Proof.
  intros Hw. cbv zeta.
  unfold PHYSFS_openWrite, PHYSFS_openAppend, PHYSFS_mkdir, PHYSFS_delete,
    doOpenWrite, doMkdir, doDelete.
  destruct (sanitizePlatformIndependentPath name) as [f|c] eqn:Es.
  - rewrite Hw. auto.
  - rewrite (sanitize_err _ _ Es). auto.
Qed.

End WriteProps.

Section StatProps.

Context {T : Type}.

(** The loops of [PHYSFS_stat] and of [getRealDirHandle] make the same
    calls as long as neither has found the path. *)
Lemma stat_loop_found (allow : bool) (fname : string) (sp : list (@DirHandle T))
  (st st' : PHYSFS_Stat) (e e' : @Env T) :
  stat_loop allow fname sp st e = (true, st', e') ->
  exists i, In i sp
            /\ getRealDirHandle_loop allow fname sp e = (Some i, e').
Proof.
  revert st e. induction sp as [|i sp IH]; intros st e; cbn; [discriminate|].
  destruct (partOfMountPoint i fname).
  - intros H. inversion H; subst. exists i. auto.
  - destruct (verifyPath allow i fname false e) as [[ok arc] e1].
    destruct ok.
    + destruct (call_stat i arc e1) as [[found st1] e2].
      destruct found; cbn [orb].
      * intros H. inversion H; subst. exists i. auto.
      * destruct (negb (errcode_eqb (currentErrorCode e2) PHYSFS_ERR_NOT_FOUND));
          [discriminate|].
        intros H. destruct (IH _ _ H) as (j & Hj & Hg). exists j. auto.
    + intros H. destruct (IH _ _ H) as (j & Hj & Hg). exists j. auto.
Qed.

(** X18.  What [PHYSFS_stat] finds, [PHYSFS_exists] finds too: when
    [PHYSFS_stat] succeeds for a name other than the root of the tree,
    [PHYSFS_exists] returns 1 for it and [PHYSFS_getRealDir] names a handle
    of the search path, after the same calls to the archivers. *)
Theorem stat_implies_exists (name fname : string) (d d' : @Drive T)
  (st : option PHYSFS_Stat) :
  sanitizePlatformIndependentPath name = Ok fname -> fname <> "" ->
  PHYSFS_stat (Some name) true d = (true, st, d') ->
  PHYSFS_exists (Some name) d = (true, d')
  /\ exists i, In i (searchPath d)
               /\ PHYSFS_getRealDir (Some name) d = (dirName i, d').
Proof.
  intros Hs Hne. unfold PHYSFS_stat, PHYSFS_exists, PHYSFS_getRealDir,
    getRealDirHandle. rewrite Hs.
  destruct fname as [|c f]; [congruence|].
  destruct (stat_loop _ _ _ _ _) as [[r st1] e1] eqn:El.
  intros H. inversion H; subst. clear H.
  destruct (stat_loop_found _ _ _ _ _ _ _ El) as (i & Hi & Hg).
  rewrite Hg. split; [reflexivity|]. exists i. auto.
Qed.

(** ** The mount point block of verifyPath *)

Lemma strncmp_take (a b : string) (n : nat) :
  strncmp a b n = 0%Z <-> str_take n a = str_take n b.
Proof.
  revert a b. induction n as [|n IH]; intros a b;
    [destruct a, b; cbn; split; reflexivity|].
  destruct a as [|c a], b as [|x b]; cbn.
  - split; reflexivity.
  - split; discriminate.
  - split; discriminate.
  - destruct (N.compare (N_of_ascii c) (N_of_ascii x)) eqn:E.
    + apply N.compare_eq in E. apply N_of_ascii_inj in E. subst x.
      rewrite IH. split; [now intros -> | now intros [= ->]].
    + split; [discriminate|]. intros [= -> _].
      rewrite N.compare_refl in E. discriminate.
    + split; [discriminate|]. intros [= -> _].
      rewrite N.compare_refl in E. discriminate.
Qed.

Lemma str_take_prefix (m s : string) :
  String.length m <= String.length s ->
  str_take (String.length m) s = m -> s = m ++ str_from (String.length m) s.
Proof.
  intros _ H. rewrite <- (str_take_from (String.length m) s) at 1.
  now rewrite H.
Qed.

Lemma get_str_from (n : nat) (s : string) :
  String.get n s = match str_from n s with
                   | String c _ => Some c
                   | EmptyString => None
                   end.
Proof.
  revert s. induction n as [|n IH]; intros [|c s]; cbn; auto.
Qed.

Lemma length_minus_slash (m : string) :
  String.length (m ++ "/") - 1 = String.length m.
Proof. rewrite length_append. cbn. lia. Qed.

(** X19.  A handle mounted at [m] sees exactly the paths under [m], with
    the mount point taken off: the mount point block of [verifyPath] lets a
    name through if and only if it is [m] itself, which becomes the empty
    path, or [m], a ['/'] and a remainder, which becomes the remainder.
    ([mountPoint] holds [m] with a ['/'] at its end, as [createDirHandle]
    stores it.) *)
Theorem skip_mountPoint_spec (h : @DirHandle T) (m fname rest : string) :
  mountPoint h = Some (m ++ "/") ->
  skip_mountPoint h fname = Some rest
  <-> (fname = m /\ rest = "") \/ fname = m ++ "/" ++ rest.
Proof.
  intros Hmp. unfold skip_mountPoint. rewrite Hmp, length_minus_slash.
  split.
  - destruct (String.length fname <? String.length m)%nat eqn:El; [discriminate|].
    apply Nat.ltb_ge in El.
    destruct (strncmp (m ++ "/") fname (String.length m) =? 0)%Z eqn:Ec;
      cbn [negb]; [|discriminate].
    apply Z.eqb_eq, strncmp_take in Ec. rewrite str_take_append in Ec.
    symmetry in Ec. pose proof (str_take_prefix m fname El Ec) as Hf.
    rewrite get_str_from.
    destruct (str_from (String.length m) fname) as [|c tail] eqn:Et.
    + rewrite append_empty_r in Hf.
      destruct (String.length m <? String.length fname)%nat eqn:E2.
      * apply Nat.ltb_lt in E2. rewrite Hf in E2. lia.
      * cbn. intros H. injection H as <-. auto.
    + assert (E2 : (String.length m <? String.length fname)%nat = true).
      { apply Nat.ltb_lt. rewrite Hf, length_append. cbn. lia. }
      rewrite E2. cbn [andb].
      destruct (is_slash c) eqn:Ecs; cbn [negb]; [|discriminate].
      cbn [starts_with_slash]. rewrite Ecs. cbn.
      intros H. injection H as <-. right.
      apply is_slash_true in Ecs. subst c. exact Hf.
  - intros [[-> ->] | ->].
    + rewrite Nat.ltb_irrefl.
      replace (strncmp (m ++ "/") m (String.length m) =? 0)%Z with true.
      2:{ symmetry. apply Z.eqb_eq, strncmp_take.
          rewrite str_take_append. symmetry. apply str_take_all. lia. }
      cbn [negb andb]. rewrite str_from_all. reflexivity.
    + replace (String.length (m ++ "/" ++ rest) <? String.length m)%nat with false.
      2:{ symmetry. apply Nat.ltb_ge. rewrite length_append. lia. }
      replace (strncmp (m ++ "/") (m ++ "/" ++ rest) (String.length m) =? 0)%Z
        with true.
      2:{ symmetry. apply Z.eqb_eq, strncmp_take.
          now rewrite !str_take_append. }
      rewrite get_str_from, str_from_length.
      replace (String.length m <? String.length (m ++ "/" ++ rest))%nat with true.
      2:{ symmetry. apply Nat.ltb_lt. rewrite length_append. cbn. lia. }
      reflexivity.
Qed.

End StatProps.

Section TranslationProps.

Context {T : Type}.
Variable P : Platform T.

(** X20.  A file under a mounted directory is the file of that name under
    the directory on the platform: with symbolic links permitted, when the
    first handle of the search path belongs to the DIR archiver and the
    sanitized name lies under its mount point, [PHYSFS_openRead] asks the
    platform for the directory's path followed by the rest of the name
    and, if the platform opens it, returns a read handle on that stream,
    whatever else is mounted. *)
Theorem openRead_opens_under_directory (name fname rest : string)
  (i : @DirHandle T) (others : list (@DirHandle T)) (d : @Drive T) (s : T) :
  allowSymLinks d = true ->
  searchPath d = i :: others ->
  funcs i = __PHYSFS_Archiver_DIR P ->
  sanitizePlatformIndependentPath name = Ok fname -> fname <> "" ->
  skip_mountPoint i fname = Some rest ->
  __PHYSFS_platformOpenRead P (opaque i ++ rest) = Ok s ->
  exists fh d',
    PHYSFS_openRead (Some name) d = (Some fh, d')
    /\ io fh = s /\ dirHandle fh = dh_addr i /\ forReading fh = true
    /\ openReadList d' = fh :: openReadList d
    /\ trace (env d')
       = (trace (env d) ++ [EvOpenRead (opaque i) rest;
                            EvCreateNativeIo (opaque i ++ rest) "r"])%list.
Proof.
  intros Hallow Hsp Hf Hs Hne Hskip Hopen.
  unfold PHYSFS_openRead. rewrite Hs, Hsp, Hallow.
  cbn [openRead_loop]. unfold verifyPath.
  destruct fname as [|c f]; [congruence|].
  rewrite Hskip. cbn [negb].
  unfold call_openRead. rewrite Hf. cbn [openRead __PHYSFS_Archiver_DIR].
  unfold DIR_openRead, doOpen, __PHYSFS_createNativeIo, cvtToDependent.
  cbn [Ascii.eqb Bool.eqb]. rewrite Hopen. cbn.
  eexists. eexists. split; [reflexivity|]. cbn.
  rewrite <- app_assoc. auto 10.
Qed.

End TranslationProps.

(* ===================================================================== *)
(** * The life cycle of a drive *)
(* ===================================================================== *)

Section LifeCycleProps.

Context {T : Type}.
Variable IO : PHYSFS_Io T.
Variable P : Platform T.
Variable os : Posix.
Variable calcUserDir : result string.

Lemma closeFileHandleList_all (l : list (FileHandle T)) (e : @Env T) :
  flush_succeeds IO ->
  closeFileHandleList IO l e
  = (true, [],
     mkEnv (errcode e)
           (trace e ++ map (fun i => EvIoDestroy (flushed IO i)) l)%list
           (next_addr e)).
Proof.
  intros Hfl. revert e. induction l as [|i l IH]; intros e.
  - cbn. rewrite app_nil_r. destruct e; reflexivity.
  - cbn [closeFileHandleList map]. unfold flush_succeeds in Hfl.
    unfold flushed at 1.
    destruct (io_flush IO) as [fl|] eqn:Ef.
    + specialize (Hfl (io i)). destruct (fl (io i)) as [ok s'].
      cbn in Hfl. subst ok. cbn [negb snd].
      rewrite IH. cbn. rewrite <- app_assoc. reflexivity.
    + cbn [negb]. rewrite IH. cbn. rewrite <- app_assoc. reflexivity.
Qed.

Lemma free_all_DIR (sp : list (@DirHandle T)) (e : @Env T) :
  Forall (fun h => funcs h = __PHYSFS_Archiver_DIR P) sp ->
  fold_left (fun e i => snd (freeDirHandle (Some i) [] e)) sp e
  = mkEnv (errcode e)
          (trace e ++ map (fun h => EvCloseArchive (opaque h)) sp)%list
          (next_addr e).
Proof.
  intros Hall. revert e. induction Hall as [|h sp Hh Hsp IH]; intros e.
  - cbn. rewrite app_nil_r. destruct e; reflexivity.
  - cbn [fold_left map]. unfold freeDirHandle at 2. cbn [existsb snd].
    rewrite Hh. cbn [closeArchive __PHYSFS_Archiver_DIR]. unfold DIR_closeArchive.
    rewrite IH. cbn. rewrite <- app_assoc. reflexivity.
Qed.

(** X21.  [PHYSFS_deinit] releases everything, once and in order: on an
    initialized drive whose handles belong to the DIR archiver and whose
    streams flush without error, it succeeds; it destroys the stream of
    every open write handle, closes the write directory, destroys the
    stream of every open read handle and closes every handle of the search
    path; and it leaves the drive with no mount, no write directory, no
    open handle, symbolic links forbidden, no error code and not
    initialized. *)
Theorem deinit_releases_everything (g : @Globals T) :
  initialized g = true ->
  flush_succeeds IO ->
  Forall (fun h => funcs h = __PHYSFS_Archiver_DIR P) (searchPath (drive g)) ->
  (forall h, writeDir (drive g) = Some h -> funcs h = __PHYSFS_Archiver_DIR P) ->
  PHYSFS_deinit IO P g
  = (true,
     mkGlobals
       (mkDrive [] None [] [] false
          (mkEnv PHYSFS_ERR_OK
             (trace (env (drive g))
                ++ map (fun i => EvIoDestroy (flushed IO i))
                       (openWriteList (drive g))
                ++ match writeDir (drive g) with
                   | Some h => [EvCloseArchive (opaque h)]
                   | None => []
                   end
                ++ map (fun i => EvIoDestroy (flushed IO i))
                       (openReadList (drive g))
                ++ map (fun h => EvCloseArchive (opaque h))
                       (searchPath (drive g)))%list
             (next_addr (env (drive g)))))
       false None None None).
Proof.
  intros Hinit Hfl Hsp Hw. unfold PHYSFS_deinit. rewrite Hinit. cbn [negb].
  unfold doDeinit. rewrite (closeFileHandleList_all _ _ Hfl).
  unfold PHYSFS_setWriteDir. cbn.
  destruct (writeDir (drive g)) as [h|] eqn:Ew.
  - cbn. rewrite (Hw h eq_refl). cbn. unfold DIR_closeArchive.
    unfold freeSearchPath. cbn. rewrite (closeFileHandleList_all _ _ Hfl).
    cbn. rewrite (free_all_DIR _ _ Hsp). cbn.
    rewrite <- !app_assoc. reflexivity.
  - cbn. unfold freeSearchPath. cbn. rewrite (closeFileHandleList_all _ _ Hfl).
    cbn. rewrite (free_all_DIR _ _ Hsp).
    unfold PHYSFS_permitSymbolicLinks, freeErrorStates, set_env,
      set_searchPath, set_openReadList, set_openWriteList. cbn.
    rewrite Ew, <- !app_assoc. reflexivity.
Qed.





End LifeCycleProps.

(* --------------------------------------------------------------------- *)
(** ** The directory tree *)
(* --------------------------------------------------------------------- *)

Lemma set_nth_length {A : Type} (n : nat) (x : A) (l : list A) :
  List.length (set_nth n x l) = List.length l.
Proof.
  revert n. induction l as [|h t IH]; intros [|n]; simpl; auto.
Qed.

Lemma nth_set_nth {A : Type} (k n : nat) (x d : A) (l : list A) :
  nth k (set_nth n x l) d
  = if Nat.eqb k n && Nat.ltb n (List.length l) then x else nth k l d.
Proof.
  revert k n. induction l as [|h t IH]; intros k n.
  - destruct n, k; simpl; rewrite ?Bool.andb_false_r; reflexivity.
  - destruct n as [|n], k as [|k]; simpl; try reflexivity.
    rewrite IH. reflexivity.
Qed.

Section DirTreeProps.

Context {T : Type}.

(** [__PHYSFS_DirTreeAdd] in the shape of the source, with the call of
    [addAncestors]. *)
Lemma DirTreeAdd_unfold (dt : __PHYSFS_DirTree) (nm : string) (isdir_ : bool)
  (e : @Env T) :
  __PHYSFS_DirTreeAdd dt nm isdir_ e
  = match __PHYSFS_DirTreeFind dt nm e with
    | (Some retval, dt1, e1) => (Some retval, dt1, e1)
    | (None, dt1, e1) =>
        match addAncestors dt1 nm e1 with
        | (Some parent, dt2, e2) =>
            let '(retval, dt3) := new_entry dt2 parent nm isdir_ in
            (Some retval, dt3, e2)
        | (None, dt2, e2) => (None, dt2, e2)
        end
    end.
Proof.
  funelim (__PHYSFS_DirTreeAdd dt nm isdir_ e).
  - rewrite Heq. reflexivity.
  - rewrite Heq. unfold addAncestors. rewrite e0. reflexivity.
  - rewrite Heq0. unfold addAncestors. rewrite Hsep, Heq.
    destruct (isdir (entry_at dt2 parent)); reflexivity.
  - rewrite Heq1. unfold addAncestors. rewrite Hsep, Heq0, Heq. reflexivity.
  - rewrite Heq1. unfold addAncestors. rewrite Hsep, Heq0, Heq. reflexivity.
Qed.

Lemma chain_find_some (dt : __PHYSFS_DirTree) (path : string)
  (prev rest : list nat) (a : nat) (moved : list nat) :
  chain_find dt path prev rest = Some (a, moved) ->
  In a rest /\ name (entry_at dt a) = path
  /\ forall b, In b moved <-> In b (prev ++ rest)%list.
Proof.
  revert prev. induction rest as [|r next IH]; intros prev H; simpl in H.
  - discriminate.
  - destruct (strcmp (name (entry_at dt r)) path =? 0)%Z eqn:E.
    + inversion H; subst. apply Z.eqb_eq, strcmp_eq in E.
      split; [left; reflexivity|]. split; [exact E|].
      intros b. simpl. rewrite !in_app_iff. simpl. tauto.
    + apply IH in H. destruct H as (Hin & Hn & Hm).
      split; [right; exact Hin|]. split; [exact Hn|].
      intros b. rewrite Hm, <- app_assoc. reflexivity.
Qed.

Lemma chain_find_none (dt : __PHYSFS_DirTree) (path : string)
  (prev rest : list nat) :
  chain_find dt path prev rest = None ->
  forall b, In b rest -> name (entry_at dt b) <> path.
Proof.
  revert prev. induction rest as [|r next IH]; intros prev H b Hb; simpl in H.
  - destruct Hb.
  - destruct (strcmp (name (entry_at dt r)) path =? 0)%Z eqn:E; [discriminate|].
    destruct Hb as [<- | Hb].
    + intros Hn. apply strcmp_eq in Hn. rewrite Hn in E. discriminate.
    + exact (IH _ H b Hb).
Qed.

Lemma bucket_range (dt : __PHYSFS_DirTree) (nm : string) :
  dt_wf dt -> bucket dt nm < List.length (hash dt).
Proof.
  intros Hwf. destruct (wf_buckets dt Hwf) as [Hb Hl].
  unfold bucket, hashPathName. rewrite Hb.
  pose proof (Z.mod_pos_bound (__PHYSFS_hashString nm (String.length nm))
                (Z.of_nat (List.length (hash dt))) ltac:(lia)) as Hm.
  pose proof (u32_le _ (proj1 Hm)). lia.
Qed.

(** *** Trees with the same entries *)

Lemma same_entries_refl (dt : __PHYSFS_DirTree) : same_entries dt dt.
Proof. repeat split; auto. Qed.

Lemma same_entries_trans (a b c : __PHYSFS_DirTree) :
  same_entries a b -> same_entries b c -> same_entries a c.
Proof.
  intros (H1 & H2 & H3 & H4 & H5) (G1 & G2 & G3 & G4 & G5).
  repeat split; try congruence.
  - intros H. apply H5, G5, H.
  - intros H. apply G5, H5, H.
Qed.

Lemma same_entries_entry_at (dt dt' : __PHYSFS_DirTree) (a : nat) :
  same_entries dt dt' -> entry_at dt' a = entry_at dt a.
Proof. intros (H & _). unfold entry_at. rewrite H. reflexivity. Qed.

Lemma same_entries_bucket (dt dt' : __PHYSFS_DirTree) (nm : string) :
  same_entries dt dt' -> bucket dt' nm = bucket dt nm.
Proof.
  intros (_ & H & _). unfold bucket, hashPathName. rewrite H. reflexivity.
Qed.

Lemma same_entries_finds (dt dt' : __PHYSFS_DirTree) (path : string) (a : nat) :
  same_entries dt dt' -> finds dt' path a <-> finds dt path a.
Proof.
  intros H. pose proof (same_entries_entry_at dt dt' a H) as He.
  destruct H as (Hs & _).
  destruct path; simpl; [tauto|]. unfold named. rewrite He, Hs. tauto.
Qed.

Lemma same_entries_wf (dt dt' : __PHYSFS_DirTree) :
  same_entries dt dt' -> dt_wf dt -> dt_wf dt'.
Proof.
  intros Hse Hwf.
  pose proof (same_entries_entry_at dt dt') as He.
  pose proof (same_entries_bucket dt dt') as Hb.
  pose proof (same_entries_finds dt dt') as Hf.
  destruct Hse as (Hs & Hh & Hl & Hn & Hc).
  assert (Hse : same_entries dt dt') by (repeat split; auto; apply Hc).
  destruct Hwf as [W1 W2 W3 W4 W5 W6 W7 W8 W9].
  constructor; rewrite ?Hs, ?Hh, ?Hn; auto.
  - rewrite He; auto.
  - intros k a Ha. rewrite He, Hb by exact Hse. apply W3, Hc, Ha.
  - intros a Ha. rewrite He, Hb by exact Hse. apply Hc, W4, Ha.
  - intros a b Ha Hb'. rewrite !He by exact Hse. auto.
  - intros a Ha. rewrite He by exact Hse. auto.
  - intros a Ha. destruct (W7 a Ha) as (p & H1 & H2 & H3).
    exists p. rewrite !He by exact Hse. split; [|auto]. apply Hf; auto.
  - intros p a Hp Ha. rewrite He in Ha by exact Hse.
    destruct (W8 p a Hp Ha) as [H1 H2]. split; [exact H1|].
    rewrite He by exact Hse. apply Hf; auto.
  - intros p Hp. rewrite He by exact Hse. auto.
Qed.

Lemma same_entries_grown (dt dt' : __PHYSFS_DirTree) :
  same_entries dt dt' -> grown dt dt'.
Proof.
  intros H. pose proof (same_entries_entry_at dt dt') as He.
  destruct H as (Hs & Hh & Hrest).
  assert (Hse : same_entries dt dt') by (repeat split; auto; apply Hrest).
  split; [rewrite Hs; lia|]. split; [exact Hh|].
  intros b _. rewrite He by exact Hse. auto.
Qed.

Lemma grown_trans (a b c : __PHYSFS_DirTree) :
  grown a b -> grown b c -> grown a c.
Proof.
  intros (H1 & H2 & H3) (G1 & G2 & G3). split; [lia|]. split; [congruence|].
  intros x Hx. destruct (H3 x Hx) as [A B].
  destruct (G3 x ltac:(lia)) as [C D]. split; congruence.
Qed.

Lemma grown_finds (dt dt' : __PHYSFS_DirTree) (path : string) (a : nat) :
  grown dt dt' -> finds dt path a -> finds dt' path a.
Proof.
  intros (H1 & _ & H3). destruct path; simpl; [auto|].
  intros [Ha Hn]. split; [lia|]. destruct (H3 a ltac:(lia)) as [A _]. congruence.
Qed.

Lemma finds_unique (dt : __PHYSFS_DirTree) (path : string) (a b : nat) :
  dt_wf dt -> finds dt path a -> finds dt path b -> a = b.
Proof.
  intros Hwf. destruct path; simpl; [congruence|].
  intros [Ha Hna] [Hb Hnb]. apply (wf_unique dt Hwf); auto. congruence.
Qed.

Lemma finds_range (dt : __PHYSFS_DirTree) (path : string) (a : nat) :
  dt_wf dt -> finds dt path a -> a < List.length (store dt).
Proof.
  intros Hwf. destruct path; simpl.
  - intros ->. apply (wf_root dt Hwf).
  - intros [Ha _]. lia.
Qed.

(** *** What [__PHYSFS_DirTreeFind] returns *)
Lemma Find_cases (dt : __PHYSFS_DirTree) (path : string) (e : @Env T) :
  dt_wf dt ->
  (exists a dt',
      __PHYSFS_DirTreeFind dt path e = (Some a, dt', e)
      /\ finds dt path a /\ same_entries dt dt')
  \/ (__PHYSFS_DirTreeFind dt path e
      = (None, dt, PHYSFS_setErrorCode PHYSFS_ERR_NOT_FOUND e)
      /\ forall a, ~ finds dt path a).
Proof.
  intros Hwf. destruct path as [|c path'].
  - left. exists 0, dt. repeat split; auto.
  - remember (String c path') as path eqn:Ep.
    assert (HF : __PHYSFS_DirTreeFind dt path e
                 = match chain_find dt path [] (chain dt (bucket dt path)) with
                   | Some (retval, moved) =>
                       (Some retval,
                        mkDirTree (store dt)
                                  (set_nth (bucket dt path) moved (hash dt))
                                  (hashBuckets dt) (entrylen dt), e)
                   | None =>
                       (None, dt, PHYSFS_setErrorCode PHYSFS_ERR_NOT_FOUND e)
                   end) by (subst path; reflexivity).
    assert (Hfn : forall a, finds dt path a <-> named dt path a)
      by (subst path; reflexivity).
    rewrite HF. clear HF.
    destruct (chain_find dt path [] (chain dt (bucket dt path)))
      as [[a moved]|] eqn:E.
    + left. eexists. eexists. split; [reflexivity|].
      apply chain_find_some in E. destruct E as (Hin & Hn & Hm).
      split.
      * apply Hfn. split; [|exact Hn]. apply (wf_chain dt Hwf _ _ Hin).
      * split; [reflexivity|]. split; [reflexivity|]. split; [reflexivity|].
        split; [apply set_nth_length|].
        intros k b. unfold chain at 1. cbn [hash].
        rewrite nth_set_nth.
        destruct (Nat.eqb k (bucket dt path)) eqn:Ek; simpl; [|reflexivity].
        apply Nat.eqb_eq in Ek. subst k.
        pose proof (bucket_range dt path Hwf) as Hr.
        apply Nat.ltb_lt in Hr. rewrite Hr. rewrite Hm. reflexivity.
    + right. split; [reflexivity|]. intros a Ha. apply Hfn in Ha.
      destruct Ha as [Hr Hn].
      apply (chain_find_none _ _ _ _ E a); [|exact Hn].
      rewrite <- Hn. apply (wf_hashed dt Hwf). exact Hr.
Qed.

(** *** The tree after [new_entry] *)

Lemma new_entry_len (dt : __PHYSFS_DirTree) (p : nat) (nm : string)
  (isd : bool) :
  List.length (store (snd (new_entry dt p nm isd))) = S (List.length (store dt)).
Proof.
  unfold new_entry. cbn [snd store]. rewrite set_nth_length, length_app.
  simpl. lia.
Qed.

Lemma new_entry_at (dt : __PHYSFS_DirTree) (p : nat) (nm : string)
  (isd : bool) (b : nat) :
  p < List.length (store dt) ->
  entry_at (snd (new_entry dt p nm isd)) b
  = if Nat.eqb b p then
      mkDirTreeEntry (name (entry_at dt p)) (isdir (entry_at dt p))
                     (List.length (store dt) :: children (entry_at dt p))
    else if Nat.eqb b (List.length (store dt)) then mkDirTreeEntry nm isd []
    else entry_at dt b.
Proof.
  intros Hp. unfold new_entry, entry_at at 1. cbn [snd store].
  rewrite nth_set_nth, length_app. simpl List.length.
  assert (Hlt : Nat.ltb p (List.length (store dt) + 1) = true)
    by (apply Nat.ltb_lt; lia).
  rewrite Hlt, Bool.andb_true_r.
  destruct (Nat.eqb b p) eqn:E1; [reflexivity|].
  destruct (Nat.eqb b (List.length (store dt))) eqn:E2.
  - apply Nat.eqb_eq in E2. subst b.
    rewrite app_nth2 by lia. rewrite Nat.sub_diag. reflexivity.
  - apply Nat.eqb_neq in E2.
    destruct (Nat.lt_ge_cases b (List.length (store dt))) as [Hb | Hb].
    + rewrite app_nth1 by lia. reflexivity.
    + rewrite app_nth2 by lia. unfold entry_at.
      rewrite (nth_overflow (store dt)) by lia.
      destruct (b - List.length (store dt)) as [|[|k]] eqn:Ek; try reflexivity.
      lia.
Qed.

Lemma new_entry_old (dt : __PHYSFS_DirTree) (p : nat) (nm : string)
  (isd : bool) (b : nat) :
  p < List.length (store dt) -> b < List.length (store dt) ->
  name (entry_at (snd (new_entry dt p nm isd)) b) = name (entry_at dt b)
  /\ isdir (entry_at (snd (new_entry dt p nm isd)) b) = isdir (entry_at dt b)
  /\ forall c, In c (children (entry_at (snd (new_entry dt p nm isd)) b))
               <-> (b = p /\ c = List.length (store dt))
                   \/ In c (children (entry_at dt b)).
Proof.
  intros Hp Hb. rewrite new_entry_at by exact Hp.
  destruct (Nat.eqb b p) eqn:E1.
  - apply Nat.eqb_eq in E1. subst b. simpl. repeat split; auto.
    + intros [H | H]; auto.
    + intros [[_ H] | H]; auto.
  - apply Nat.eqb_neq in E1.
    assert (E2 : Nat.eqb b (List.length (store dt)) = false)
      by (apply Nat.eqb_neq; lia).
    rewrite E2. repeat split; auto. intros [[H _] | H]; [contradiction | auto].
Qed.

Lemma new_entry_new (dt : __PHYSFS_DirTree) (p : nat) (nm : string)
  (isd : bool) :
  p < List.length (store dt) ->
  entry_at (snd (new_entry dt p nm isd)) (List.length (store dt))
  = mkDirTreeEntry nm isd [].
Proof.
  intros Hp. rewrite new_entry_at by exact Hp.
  assert (E1 : Nat.eqb (List.length (store dt)) p = false)
    by (apply Nat.eqb_neq; lia).
  rewrite E1, Nat.eqb_refl. reflexivity.
Qed.

Lemma new_entry_chain (dt : __PHYSFS_DirTree) (p : nat) (nm : string)
  (isd : bool) (k a : nat) :
  dt_wf dt ->
  In a (chain (snd (new_entry dt p nm isd)) k)
  <-> (k = bucket dt nm /\ a = List.length (store dt)) \/ In a (chain dt k).
Proof.
  intros Hwf. unfold new_entry, chain at 1. cbn [snd hash].
  rewrite nth_set_nth.
  pose proof (bucket_range dt nm Hwf) as Hr. apply Nat.ltb_lt in Hr.
  rewrite Hr, Bool.andb_true_r.
  destruct (Nat.eqb k (bucket dt nm)) eqn:E.
  - apply Nat.eqb_eq in E. subst k. simpl. unfold chain. intuition.
  - apply Nat.eqb_neq in E. unfold chain. intuition.
Qed.

Lemma new_entry_grown (dt : __PHYSFS_DirTree) (p : nat) (nm : string)
  (isd : bool) :
  p < List.length (store dt) -> grown dt (snd (new_entry dt p nm isd)).
Proof.
  intros Hp. split; [rewrite new_entry_len; lia|]. split; [reflexivity|].
  intros b Hb. destruct (new_entry_old dt p nm isd b Hp Hb) as (A & B & _).
  auto.
Qed.

Lemma new_entry_wf (dt : __PHYSFS_DirTree) (p : nat) (nm : string)
  (isd : bool) :
  dt_wf dt ->
  (forall a, ~ finds dt nm a) ->
  finds dt (parent_name nm) p ->
  isdir (entry_at dt p) = true ->
  dt_wf (snd (new_entry dt p nm isd)).
Proof.
  intros Hwf Hnew Hpar Hdir.
  pose proof (finds_range dt _ _ Hwf Hpar) as Hp.
  pose proof (new_entry_len dt p nm isd) as Hlen.
  pose proof (new_entry_old dt p nm isd) as Hold.
  pose proof (new_entry_new dt p nm isd Hp) as Hnw.
  pose proof (new_entry_chain dt p nm isd) as Hch.
  pose proof (new_entry_grown dt p nm isd Hp) as Hgr.
  assert (Hbk : forall s, bucket (snd (new_entry dt p nm isd)) s = bucket dt s)
    by reflexivity.
  assert (Hnm : nm <> "").
  { intros ->. apply (Hnew 0). reflexivity. }
  assert (Hnn : forall b, 0 < b < List.length (store dt) ->
                          name (entry_at dt b) <> nm).
  { intros b Hb Hn. apply (Hnew b). destruct nm; [congruence|].
    split; assumption. }
  destruct (wf_root dt Hwf) as [Hr0 Hr1].
  set (dt' := snd (new_entry dt p nm isd)) in *.
  assert (Hcases : forall b, b < List.length (store dt') ->
                     b < List.length (store dt) \/ b = List.length (store dt))
    by (intros b; rewrite Hlen; lia).
  constructor.
  - unfold dt', new_entry. cbn [snd hash hashBuckets].
    rewrite set_nth_length. apply (wf_buckets dt Hwf).
  - split; [rewrite Hlen; lia|].
    destruct (Hold 0 Hp Hr0) as (_ & B & _). rewrite B. exact Hr1.
  - intros k a Ha. apply Hch in Ha; [|exact Hwf].
    destruct Ha as [[-> ->] | Ha].
    + split; [rewrite Hlen; lia|]. rewrite Hnw, Hbk. reflexivity.
    + destruct (wf_chain dt Hwf k a Ha) as [Hr Hb].
      split; [rewrite Hlen; lia|].
      destruct (Hold a Hp ltac:(lia)) as (A & _). rewrite A, Hbk. exact Hb.
  - intros a Ha. apply Hch; [exact Hwf|]. rewrite Hbk.
    destruct (Hcases a ltac:(lia)) as [Hlt | ->].
    + right. destruct (Hold a Hp Hlt) as (A & _). rewrite A.
      apply (wf_hashed dt Hwf). lia.
    + left. rewrite Hnw. split; reflexivity.
  - intros a b Ha Hb Hab.
    destruct (Hcases a ltac:(lia)) as [Hla | ->];
      destruct (Hcases b ltac:(lia)) as [Hlb | ->]; auto.
    + destruct (Hold a Hp Hla) as (A & _). destruct (Hold b Hp Hlb) as (B & _).
      apply (wf_unique dt Hwf); try lia. congruence.
    + destruct (Hold a Hp Hla) as (A & _). rewrite A, Hnw in Hab.
      exfalso. apply (Hnn a); [lia | exact Hab].
    + destruct (Hold b Hp Hlb) as (B & _). rewrite B, Hnw in Hab.
      exfalso. apply (Hnn b); [lia | symmetry; exact Hab].
  - intros a Ha.
    destruct (Hcases a ltac:(lia)) as [Hla | ->].
    + destruct (Hold a Hp Hla) as (A & _). rewrite A.
      apply (wf_names dt Hwf). lia.
    + rewrite Hnw. exact Hnm.
  - intros a Ha.
    destruct (Hcases a ltac:(lia)) as [Hla | ->].
    + destruct (Hold a Hp Hla) as (A & _). rewrite A.
      destruct (wf_parent dt Hwf a ltac:(lia)) as (q & H1 & H2 & H3).
      pose proof (finds_range dt _ _ Hwf H1) as Hq.
      destruct (Hold q Hp Hq) as (_ & B & C).
      exists q. split; [apply (grown_finds dt dt' _ _ Hgr H1)|].
      split; [congruence|]. apply C. right. exact H3.
    + rewrite Hnw. cbn [name].
      destruct (Hold p Hp Hp) as (_ & B & C).
      exists p. split; [apply (grown_finds dt dt' _ _ Hgr Hpar)|].
      split; [congruence|]. apply C. left. split; reflexivity.
  - intros q a Hq Ha.
    destruct (Hcases q Hq) as [Hlq | ->].
    + destruct (Hold q Hp Hlq) as (_ & _ & C). apply C in Ha.
      destruct Ha as [[-> ->] | Ha].
      * split; [rewrite Hlen; lia|]. rewrite Hnw. cbn [name].
        apply (grown_finds dt dt' _ _ Hgr Hpar).
      * destruct (wf_children dt Hwf q a Hlq Ha) as [H1 H2].
        split; [rewrite Hlen; lia|].
        destruct (Hold a Hp ltac:(lia)) as (A & _). rewrite A.
        apply (grown_finds dt dt' _ _ Hgr H2).
    + rewrite Hnw in Ha. destruct Ha.
  - intros q Hq.
    destruct (Hcases q Hq) as [Hlq | ->].
    + unfold dt'. rewrite new_entry_at by exact Hp.
      destruct (Nat.eqb q p) eqn:E1.
      * apply Nat.eqb_eq in E1. subst q. cbn [children].
        constructor; [apply (wf_sorted dt Hwf p Hp)|].
        apply Forall_forall. intros c Hc.
        apply (wf_children dt Hwf p c Hp Hc).
      * assert (E2 : Nat.eqb q (List.length (store dt)) = false)
          by (apply Nat.eqb_neq; lia).
        rewrite E2. apply (wf_sorted dt Hwf q Hlq).
    + rewrite Hnw. constructor.
Qed.

(** *** The directories above a name *)

Lemma ancestors_from_unfold (pre rest : string) :
  ancestors_from pre rest
  = match strrchr "/" rest with
    | Some sep =>
        (ancestors_from pre (str_take sep rest)
           ++ [(pre ++ str_take sep rest)%string])%list
    | None => []
    end.
Proof.
  revert pre. induction rest as [|c rest IH]; intros pre; [reflexivity|].
  simpl. rewrite (IH (pre ++ String c "")).
  destruct (strrchr "/" rest) as [i|].
  - simpl. rewrite append_assoc. simpl.
    destruct (Ascii.eqb c "/"); reflexivity.
  - destruct (Ascii.eqb c "/"); simpl; [|reflexivity].
    rewrite append_empty_r. reflexivity.
Qed.

Lemma ancestors_unfold (nm : string) :
  ancestors nm
  = match strrchr "/" nm with
    | Some sep => (ancestors (str_take sep nm) ++ [str_take sep nm])%list
    | None => []
    end.
Proof. unfold ancestors. rewrite ancestors_from_unfold at 1. reflexivity. Qed.

Lemma ancestors_parent (nm : string) :
  ancestors nm = []
  \/ (ancestors nm = (ancestors (parent_name nm) ++ [parent_name nm])%list
      /\ String.length (parent_name nm) < String.length nm).
Proof.
  rewrite ancestors_unfold at 1 2. unfold parent_name.
  destruct (strrchr "/" nm) as [sep|] eqn:E; [right | left; reflexivity].
  split; [reflexivity|]. rewrite str_take_length.
  apply strrchr_range in E. lia.
Qed.

Lemma ancestors_shorter (n : nat) :
  forall nm anc, String.length nm < n -> In anc (ancestors nm) ->
                 String.length anc < String.length nm.
Proof.
  induction n as [|n IH]; intros nm anc Hn Hin; [lia|].
  destruct (ancestors_parent nm) as [E | [E Hl]]; rewrite E in Hin.
  - destruct Hin.
  - apply in_app_iff in Hin. destruct Hin as [Hin | [<- | []]]; [|exact Hl].
    specialize (IH (parent_name nm) anc ltac:(lia) Hin). lia.
Qed.

(** In a tree in order, the directories above an entry are in the tree, as
    directories. *)
Lemma ancestors_are_dirs (dt : __PHYSFS_DirTree) (n : nat) :
  dt_wf dt ->
  forall nm a anc, String.length nm < n -> finds dt nm a ->
                   In anc (ancestors nm) ->
                   exists p, finds dt anc p /\ isdir (entry_at dt p) = true.
Proof.
  intros Hwf. induction n as [|n IH]; intros nm a anc Hn Hf Hin; [lia|].
  destruct (ancestors_parent nm) as [E | [E Hl]]; rewrite E in Hin.
  - destruct Hin.
  - assert (Hpar : exists p, finds dt (parent_name nm) p
                             /\ isdir (entry_at dt p) = true).
    { destruct nm as [|c nm']; [simpl in Hl; lia|].
      destruct Hf as [Ha Hname].
      destruct (wf_parent dt Hwf a Ha) as (p & H1 & H2 & _).
      rewrite Hname in H1. exists p. auto. }
    destruct Hpar as (p & Hp1 & Hp2).
    apply in_app_iff in Hin. destruct Hin as [Hin | [<- | []]].
    + apply (IH (parent_name nm) p anc); auto. lia.
    + exists p. auto.
Qed.

Lemma new_entry_step (dt : __PHYSFS_DirTree) (p : nat) (nm : string)
  (isd : bool) (rv : nat) (dt' : __PHYSFS_DirTree) :
  dt_wf dt ->
  (forall a, ~ finds dt nm a) ->
  finds dt (parent_name nm) p ->
  isdir (entry_at dt p) = true ->
  new_entry dt p nm isd = (rv, dt') ->
  dt_wf dt' /\ grown dt dt'
  /\ List.length (store dt') = S (List.length (store dt))
  /\ rv = List.length (store dt)
  /\ finds dt' nm rv
  /\ name (entry_at dt' rv) = nm /\ isdir (entry_at dt' rv) = isd.
Proof.
  intros Hwf Hnew Hpar Hdir En.
  pose proof (finds_range dt _ _ Hwf Hpar) as Hp.
  assert (Hd : dt' = snd (new_entry dt p nm isd)) by (rewrite En; reflexivity).
  assert (Hr : rv = List.length (store dt))
    by (unfold new_entry in En; inversion En; reflexivity).
  subst dt' rv.
  pose proof (new_entry_new dt p nm isd Hp) as Hnw.
  pose proof (new_entry_len dt p nm isd) as Hlen.
  split; [apply new_entry_wf; assumption|].
  split; [apply new_entry_grown; assumption|].
  split; [exact Hlen|]. split; [reflexivity|].
  rewrite Hnw. cbn [name isdir]. split; [|split; reflexivity].
  destruct nm as [|c nm'].
  - exfalso. apply (Hnew 0). reflexivity.
  - split; [|rewrite Hnw; reflexivity]. rewrite Hlen.
    destruct (wf_root dt Hwf). lia.
Qed.

Lemma parent_name_ancestor (nm : string) (sep : nat) :
  strrchr "/" nm = Some sep ->
  parent_name nm = str_take sep nm
  /\ ancestors nm = (ancestors (str_take sep nm) ++ [str_take sep nm])%list
  /\ String.length (str_take sep nm) < String.length nm.
Proof.
  intros E. unfold parent_name. rewrite ancestors_unfold at 1. rewrite E.
  split; [reflexivity|]. split; [reflexivity|].
  rewrite str_take_length. apply strrchr_range in E. lia.
Qed.

(** *** What [__PHYSFS_DirTreeAdd] does *)
Lemma Add_spec (n : nat) :
  forall (nm : string) (dt : __PHYSFS_DirTree) (isd : bool) (e : @Env T)
         (r : option nat) (dt' : __PHYSFS_DirTree) (e' : @Env T),
    String.length nm < n -> dt_wf dt ->
    __PHYSFS_DirTreeAdd dt nm isd e = (r, dt', e') ->
    dt_wf dt' /\ grown dt dt'
    /\ (forall b, List.length (store dt) <= b < List.length (store dt') ->
                  In (name (entry_at dt' b)) (nm :: ancestors nm))
    /\ match r with
       | Some a =>
           finds dt' nm a
           /\ ((forall b, ~ finds dt nm b) ->
               isdir (entry_at dt' a) = isd
               /\ e' = PHYSFS_setErrorCode PHYSFS_ERR_NOT_FOUND e)
           /\ (forall b, finds dt nm b ->
                         a = b /\ same_entries dt dt' /\ e' = e)
       | None =>
           same_entries dt dt'
           /\ e' = PHYSFS_setErrorCode PHYSFS_ERR_CORRUPT e
           /\ (forall b, ~ finds dt nm b)
           /\ exists anc p, In anc (ancestors nm) /\ finds dt anc p
                            /\ isdir (entry_at dt p) = false
       end.
Proof.
  induction n as [|n IH]; intros nm dt isd e r dt' e' Hn Hwf H; [lia|].
  rewrite DirTreeAdd_unfold in H.
  destruct (Find_cases dt nm e Hwf) as [(a & dt1 & HF & Hf & Hse) | (HF & Hnf)];
    rewrite HF in H.
  - (* the name is in the tree *)
    inversion H; subst r dt' e'. clear H.
    split; [exact (same_entries_wf _ _ Hse Hwf)|].
    split; [exact (same_entries_grown _ _ Hse)|].
    split.
    { intros b Hb. destruct Hse as (Hs & _). rewrite Hs in Hb. lia. }
    split; [apply (same_entries_finds _ _ _ _ Hse); exact Hf|].
    split.
    + intros Hno. exfalso. exact (Hno a Hf).
    + intros b Hb. split; [exact (finds_unique _ _ _ _ Hwf Hf Hb)|].
      split; [exact Hse | reflexivity].
  - (* a new name *)
    unfold addAncestors in H.
    destruct (strrchr "/" nm) as [sep|] eqn:Es.
    + destruct (parent_name_ancestor nm sep Es) as (Hpn & Han & Hlen).
      set (q := str_take sep nm) in *.
      destruct (Find_cases dt q (PHYSFS_setErrorCode PHYSFS_ERR_NOT_FOUND e) Hwf)
        as [(p & dt2 & HF2 & Hf2 & Hse2) | (HF2 & Hnf2)]; rewrite HF2 in H.
      * (* the directory above is in the tree *)
        pose proof (same_entries_wf _ _ Hse2 Hwf) as Hwf2.
        pose proof (same_entries_entry_at dt dt2 p Hse2) as Hep.
        destruct (isdir (entry_at dt2 p)) eqn:Ed; cbn [negb] in H.
        -- destruct (new_entry dt2 p nm isd) as [rv dt3] eqn:En.
           inversion H; subst r dt' e'. clear H.
           assert (Hnf' : forall a, ~ finds dt2 nm a).
           { intros a Ha. apply (Hnf a).
             apply (same_entries_finds _ _ _ _ Hse2). exact Ha. }
           assert (Hpar : finds dt2 (parent_name nm) p).
           { rewrite Hpn. apply (same_entries_finds _ _ _ _ Hse2). exact Hf2. }
           destruct (new_entry_step dt2 p nm isd rv dt3 Hwf2 Hnf' Hpar Ed En)
             as (W & G & L & R & F & N & D).
           split; [exact W|].
           split; [exact (grown_trans _ _ _ (same_entries_grown _ _ Hse2) G)|].
           split.
           { intros b Hb. destruct Hse2 as (Hs & _). rewrite <- Hs, L in Hb.
             assert (b = rv) by lia. subst b. rewrite N. left. reflexivity. }
           split; [exact F|]. split.
           ++ intros _. split; [exact D | reflexivity].
           ++ intros b Hb. exfalso. exact (Hnf b Hb).
        -- inversion H; subst r dt' e'. clear H.
           split; [exact Hwf2|].
           split; [exact (same_entries_grown _ _ Hse2)|].
           split.
           { intros b Hb. destruct Hse2 as (Hs & _). rewrite Hs in Hb. lia. }
           split; [exact Hse2|]. split; [reflexivity|]. split; [exact Hnf|].
           exists q, p. split; [rewrite Han; apply in_app_iff; right; left;
                                reflexivity|].
           split; [exact Hf2|]. rewrite <- Hep. exact Ed.
      * (* the directory above is new as well *)
        destruct (__PHYSFS_DirTreeAdd dt q true
                    (PHYSFS_setErrorCode PHYSFS_ERR_NOT_FOUND
                       (PHYSFS_setErrorCode PHYSFS_ERR_NOT_FOUND e)))
          as [[r3 dt3] e3] eqn:EA.
        destruct (IH q dt true _ r3 dt3 e3 ltac:(lia) Hwf EA)
          as (W3 & G3 & N3 & R3).
        destruct r3 as [p|].
        -- destruct R3 as (F3 & New3 & _).
           destruct (New3 Hnf2) as [D3 E3].
           destruct (new_entry dt3 p nm isd) as [rv dt4] eqn:En.
           inversion H; subst r dt' e'. clear H.
           assert (Hnf' : forall a, ~ finds dt3 nm a).
           { intros a Ha.
             destruct nm as [|c nm']; [simpl in Hlen; lia|].
             destruct Ha as [Ha Hname].
             destruct (Nat.lt_ge_cases a (List.length (store dt))) as [Hl | Hl].
             - apply (Hnf a). split; [lia|].
               destruct G3 as (_ & _ & G3). destruct (G3 a Hl) as [A _].
               congruence.
             - specialize (N3 a ltac:(lia)). rewrite Hname in N3.
               destruct N3 as [N3 | N3].
               + rewrite <- N3 in Hlen. lia.
               + pose proof (ancestors_shorter _ q _ (Nat.lt_succ_diag_r _) N3).
                 lia. }
           assert (Hpar : finds dt3 (parent_name nm) p) by (rewrite Hpn; exact F3).
           destruct (new_entry_step dt3 p nm isd rv dt4 W3 Hnf' Hpar D3 En)
             as (W & G & L & R & F & N & D).
           split; [exact W|].
           split; [exact (grown_trans _ _ _ G3 G)|].
           split.
           { intros b Hb. rewrite L in Hb.
             destruct (Nat.eq_dec b rv) as [-> | Hne].
             - rewrite N. left. reflexivity.
             - right. rewrite Han. apply in_app_iff.
               destruct G as (_ & _ & G). destruct (G b ltac:(lia)) as [A _].
               rewrite A. specialize (N3 b ltac:(lia)).
               destruct N3 as [N3 | N3]; [right; left; exact N3 | left; exact N3]. }
           split; [exact F|]. split.
           ++ intros _. split; [exact D|]. rewrite E3. reflexivity.
           ++ intros b Hb. exfalso. exact (Hnf b Hb).
        -- destruct R3 as (S3 & E3 & _ & anc & p & A1 & A2 & A3).
           inversion H; subst r dt' e'. clear H.
           split; [exact W3|]. split; [exact G3|].
           split.
           { intros b Hb. destruct S3 as (Hs & _). rewrite Hs in Hb. lia. }
           split; [exact S3|]. split; [rewrite E3; reflexivity|].
           split; [exact Hnf|].
           exists anc, p. split; [rewrite Han; apply in_app_iff; left; exact A1|].
           auto.
    + (* no separator: the parent is the root *)
      destruct (new_entry dt (root dt) nm isd) as [rv dt3] eqn:En.
      inversion H; subst r dt' e'. clear H.
      assert (Hpar : finds dt (parent_name nm) (root dt)).
      { unfold parent_name. rewrite Es. reflexivity. }
      destruct (new_entry_step dt (root dt) nm isd rv dt3 Hwf Hnf Hpar
                               (proj2 (wf_root dt Hwf)) En)
        as (W & G & L & R & F & N & D).
      split; [exact W|]. split; [exact G|].
      split.
      { intros b Hb. rewrite L in Hb. assert (b = rv) by lia. subst b.
        rewrite N. left. reflexivity. }
      split; [exact F|]. split.
      * intros _. split; [exact D | reflexivity].
      * intros b Hb. exfalso. exact (Hnf b Hb).
Qed.

Lemma Add_wf (dt : __PHYSFS_DirTree) (nm : string) (isd : bool) (e : @Env T) :
  dt_wf dt -> dt_wf (snd (fst (__PHYSFS_DirTreeAdd dt nm isd e))).
Proof.
  intros Hwf.
  destruct (__PHYSFS_DirTreeAdd dt nm isd e) as [[r dt'] e'] eqn:E.
  exact (proj1 (Add_spec _ nm dt isd e r dt' e' (Nat.lt_succ_diag_r _) Hwf E)).
Qed.

Lemma Find_wf (dt : __PHYSFS_DirTree) (path : string) (e : @Env T) :
  dt_wf dt -> dt_wf (snd (fst (__PHYSFS_DirTreeFind dt path e))).
Proof.
  intros Hwf.
  destruct (Find_cases dt path e Hwf) as [(a & dt' & HF & _ & Hse) | (HF & _)];
    rewrite HF; cbn [fst snd]; [exact (same_entries_wf _ _ Hse Hwf) | exact Hwf].
Qed.

Lemma Init_wf (entrylen : Z) : dt_wf (snd (__PHYSFS_DirTreeInit entrylen)).
Proof.
  assert (Hc : forall k, chain (snd (__PHYSFS_DirTreeInit entrylen)) k = []).
  { intros k. unfold chain. cbn [snd __PHYSFS_DirTreeInit hash].
    apply nth_repeat. }
  constructor; cbn [snd __PHYSFS_DirTreeInit store List.length];
    try (intros; lia).
  - split; [reflexivity | simpl; lia].
  - split; [lia | reflexivity].
  - intros k a Ha. rewrite Hc in Ha. destruct Ha.
  - intros p a Hp Ha. assert (p = 0) by lia. subst p. destruct Ha.
  - intros p Hp. assert (p = 0) by lia. subst p. constructor.
Qed.

(** The converse for failures: below a file nothing can be added. *)
Lemma Add_fails_below_file (dt : __PHYSFS_DirTree) (n : nat) :
  dt_wf dt ->
  forall (nm : string) (isd : bool) (e : @Env T) (anc : string) (p : nat),
    String.length nm < n ->
    (forall b, ~ finds dt nm b) ->
    In anc (ancestors nm) -> finds dt anc p ->
    isdir (entry_at dt p) = false ->
    fst (fst (__PHYSFS_DirTreeAdd dt nm isd e)) = None.
Proof.
  intros Hwf. induction n as [|n IH]; intros nm isd e anc p Hn Hnf Hin Hf Hd;
    [lia|].
  rewrite DirTreeAdd_unfold.
  destruct (Find_cases dt nm e Hwf) as [(a & dt1 & HF & Hfa & _) | (HF & _)];
    [exfalso; exact (Hnf a Hfa)|].
  rewrite HF. unfold addAncestors.
  destruct (strrchr "/" nm) as [sep|] eqn:Es.
  - destruct (parent_name_ancestor nm sep Es) as (Hpn & Han & Hlen).
    set (q := str_take sep nm) in *.
    rewrite Han in Hin. apply in_app_iff in Hin.
    destruct (Find_cases dt q (PHYSFS_setErrorCode PHYSFS_ERR_NOT_FOUND e) Hwf)
      as [(p' & dt2 & HF2 & Hf2 & Hse2) | (HF2 & Hnf2)]; rewrite HF2.
    + assert (Hpp : p' = p /\ anc = q).
      { destruct Hin as [Hin | [<- | []]].
        - destruct (ancestors_are_dirs dt _ Hwf q p' anc
                      (Nat.lt_succ_diag_r _) Hf2 Hin) as (p2 & H1 & H2).
          rewrite (finds_unique _ _ _ _ Hwf H1 Hf) in H2. congruence.
        - split; [exact (finds_unique _ _ _ _ Hwf Hf2 Hf) | reflexivity]. }
      destruct Hpp as [-> _].
      rewrite (same_entries_entry_at dt dt2 p Hse2), Hd. reflexivity.
    + destruct Hin as [Hin | [<- | []]]; [|exfalso; exact (Hnf2 p Hf)].
      specialize (IH q true
                     (PHYSFS_setErrorCode PHYSFS_ERR_NOT_FOUND
                        (PHYSFS_setErrorCode PHYSFS_ERR_NOT_FOUND e))
                     anc p ltac:(lia) Hnf2 Hin Hf Hd).
      destruct (__PHYSFS_DirTreeAdd dt q true _) as [[r3 dt3] e3].
      cbn [fst] in IH. subst r3. reflexivity.
  - rewrite ancestors_unfold, Es in Hin. destruct Hin.
Qed.

Lemma DirTreeEnumerate_loop_notes (dt : __PHYSFS_DirTree) (origdir : string)
  (l : list nat) (acc : list string) (e : @Env T) :
  DirTreeEnumerate_loop dt note_names origdir l acc e
  = (PHYSFS_ENUM_OK,
     (acc ++ map (fun a => base_name (name (entry_at dt a))) l)%list, e).
Proof.
  revert acc. induction l as [|a l IH]; intros acc; simpl.
  - rewrite app_nil_r. reflexivity.
  - rewrite IH, <- app_assoc. reflexivity.
Qed.

(** X23.  The trees that the code makes are in order: after
    [__PHYSFS_DirTreeInit] and any calls of [__PHYSFS_DirTreeAdd] and
    [__PHYSFS_DirTreeFind], failed ones too, every entry but the root is in
    the chain of its name and nowhere else, no two entries other than the
    root have the same name, and every entry but the root is among the
    children of the directory above it. *)
Theorem built_trees_in_order (dt : __PHYSFS_DirTree) :
  @built T dt -> dt_wf dt.
Proof.
  induction 1 as [entrylen | dt nm isd e Hb IH | dt path e Hb IH].
  - apply Init_wf.
  - apply Add_wf. exact IH.
  - apply Find_wf. exact IH.
Qed.

(** X24.  What [__PHYSFS_DirTreeAdd] returns, [__PHYSFS_DirTreeFind] finds:
    after a successful call every search for the name returns the same
    entry, which bears the name.  A name that was not in the tree gets the
    kind that was asked for (and the call leaves
    [PHYSFS_ERR_NOT_FOUND] behind, from its own search); for a name that
    was in the tree the entry that was there is returned, its kind
    unchanged. *)
Theorem DirTreeAdd_then_Find (dt dt' : __PHYSFS_DirTree) (nm : string)
  (isd : bool) (e e' : @Env T) (a : nat) :
  dt_wf dt ->
  __PHYSFS_DirTreeAdd dt nm isd e = (Some a, dt', e') ->
  (forall e2 : @Env T, exists dt'',
       __PHYSFS_DirTreeFind dt' nm e2 = (Some a, dt'', e2))
  /\ (nm <> "" -> name (entry_at dt' a) = nm)
  /\ ((forall b, ~ finds dt nm b) ->
      isdir (entry_at dt' a) = isd
      /\ e' = PHYSFS_setErrorCode PHYSFS_ERR_NOT_FOUND e)
  /\ (forall b, finds dt nm b ->
                a = b /\ isdir (entry_at dt' a) = isdir (entry_at dt b)
                /\ e' = e).
Proof.
  intros Hwf H.
  destruct (Add_spec _ nm dt isd e _ dt' e' (Nat.lt_succ_diag_r _) Hwf H)
    as (W & G & _ & F & New & Old).
  split; [|split; [|split]].
  - intros e2.
    destruct (Find_cases dt' nm e2 W) as [(a2 & dt2 & HF & Hf & _) | (_ & Hno)].
    + rewrite (finds_unique _ _ _ _ W F Hf). exists dt2. exact HF.
    + exfalso. exact (Hno a F).
  - intros Hne. destruct nm; [contradiction|]. apply F.
  - exact New.
  - intros b Hb. destruct (Old b Hb) as (-> & Hse & ->).
    split; [reflexivity|]. split; [|reflexivity].
    rewrite (same_entries_entry_at dt dt' b Hse). reflexivity.
Qed.

(** X25.  [__PHYSFS_DirTreeAdd] fills in the directories above a name:
    after a successful call every proper prefix of the name that ends
    before a ['/'] is in the tree, as a directory; and the call has added
    no entry but for the name and for such prefixes. *)
Theorem DirTreeAdd_makes_directories_above (dt dt' : __PHYSFS_DirTree)
  (nm : string) (isd : bool) (e e' : @Env T) (a : nat) :
  dt_wf dt ->
  __PHYSFS_DirTreeAdd dt nm isd e = (Some a, dt', e') ->
  (forall anc, In anc (ancestors nm) ->
               exists p dt'' e2,
                 __PHYSFS_DirTreeFind dt' anc e' = (Some p, dt'', e2)
                 /\ isdir (entry_at dt' p) = true)
  /\ (forall b, List.length (store dt) <= b < List.length (store dt') ->
                In (name (entry_at dt' b)) (nm :: ancestors nm)).
Proof.
  intros Hwf H.
  destruct (Add_spec _ nm dt isd e _ dt' e' (Nat.lt_succ_diag_r _) Hwf H)
    as (W & G & N & F & _).
  split; [|exact N].
  intros anc Hin.
  destruct (ancestors_are_dirs dt' _ W nm a anc (Nat.lt_succ_diag_r _) F Hin)
    as (p & Hp & Hd).
  destruct (Find_cases dt' anc e' W) as [(p2 & dt2 & HF & Hf & _) | (_ & Hno)].
  - rewrite (finds_unique _ _ _ _ W Hf Hp) in HF.
    exists p, dt2, e'. split; [exact HF | exact Hd].
  - exfalso. exact (Hno p Hp).
Qed.

(** X26.  [__PHYSFS_DirTreeAdd] fails exactly below a file: it returns
    NULL if and only if the name is not in the tree and one of the
    directories above it is in the tree as a file.  It then sets
    [PHYSFS_ERR_CORRUPT] and adds nothing: the tree holds the entries it
    held. *)
Theorem DirTreeAdd_fails_below_a_file (dt : __PHYSFS_DirTree) (nm : string)
  (isd : bool) (e : @Env T) :
  dt_wf dt ->
  (fst (fst (__PHYSFS_DirTreeAdd dt nm isd e)) = None
   <-> (forall b, ~ finds dt nm b)
       /\ exists anc p, In anc (ancestors nm) /\ finds dt anc p
                        /\ isdir (entry_at dt p) = false)
  /\ (fst (fst (__PHYSFS_DirTreeAdd dt nm isd e)) = None ->
      same_entries dt (snd (fst (__PHYSFS_DirTreeAdd dt nm isd e)))
      /\ snd (__PHYSFS_DirTreeAdd dt nm isd e)
         = PHYSFS_setErrorCode PHYSFS_ERR_CORRUPT e).
Proof.
  intros Hwf.
  destruct (__PHYSFS_DirTreeAdd dt nm isd e) as [[r dt'] e'] eqn:E.
  pose proof (Add_spec _ nm dt isd e r dt' e' (Nat.lt_succ_diag_r _) Hwf E)
    as (_ & _ & _ & R).
  cbn [fst snd]. split; [split|].
  - intros ->. destruct R as (_ & _ & Hno & Hex). auto.
  - intros (Hno & anc & p & H1 & H2 & H3).
    pose proof (Add_fails_below_file dt _ Hwf nm isd e anc p
                  (Nat.lt_succ_diag_r _) Hno H1 H2 H3) as Hf.
    rewrite E in Hf. exact Hf.
  - intros ->. destruct R as (Hse & He & _). auto.
Qed.

(** X27.  [__PHYSFS_DirTreeFind] returns the entry that bears the name,
    the root for the empty name, and fails with [PHYSFS_ERR_NOT_FOUND]
    exactly when no entry bears it.  That it moves the entry to the front
    of its chain changes no answer: the tree holds the same entries, and
    every later search returns what it would have returned before. *)
Theorem DirTreeFind_answers (dt dt' : __PHYSFS_DirTree) (path : string)
  (e e' : @Env T) (r : option nat) :
  dt_wf dt ->
  __PHYSFS_DirTreeFind dt path e = (r, dt', e') ->
  match r with
  | Some a => finds dt path a /\ e' = e
  | None => (forall a, ~ finds dt path a)
            /\ e' = PHYSFS_setErrorCode PHYSFS_ERR_NOT_FOUND e
  end
  /\ same_entries dt dt'
  /\ forall (path2 : string) (e2 : @Env T),
       fst (fst (__PHYSFS_DirTreeFind dt' path2 e2))
       = fst (fst (__PHYSFS_DirTreeFind dt path2 e2)).
Proof.
  intros Hwf H.
  assert (Hse : same_entries dt dt').
  { destruct (Find_cases dt path e Hwf) as [(a & d1 & HF & _ & Hse) | (HF & _)];
      rewrite HF in H; inversion H; subst; [exact Hse | apply same_entries_refl]. }
  pose proof (same_entries_wf _ _ Hse Hwf) as W.
  split; [|split; [exact Hse|]].
  - destruct (Find_cases dt path e Hwf) as [(a & d1 & HF & Hf & _) | (HF & Hno)];
      rewrite HF in H; inversion H; subst; auto.
  - intros path2 e2.
    destruct (Find_cases dt path2 e2 Hwf)
      as [(a & d1 & HF & Hf & _) | (HF & Hno)];
      destruct (Find_cases dt' path2 e2 W)
        as [(a' & d1' & HF' & Hf' & _) | (HF' & Hno')];
      rewrite HF, HF'; cbn [fst]; try reflexivity.
    + apply (same_entries_finds _ _ _ _ Hse) in Hf'.
      rewrite (finds_unique _ _ _ _ Hwf Hf Hf'). reflexivity.
    + exfalso. apply (Hno' a). apply (same_entries_finds _ _ _ _ Hse). exact Hf.
    + exfalso. apply (Hno a'). apply (same_entries_finds _ _ _ _ Hse). exact Hf'.
Qed.

(** X28.  [__PHYSFS_DirTreeEnumerate] hands the callback the last element
    of the name of each entry directly under the directory, once each and
    the entry allocated last first (the entries that it walks are the
    entries whose name up to the last ['/'] is the name of the directory, in
    falling order of address).  For a name that is not in the tree it
    returns [PHYSFS_ENUM_ERROR] with [PHYSFS_ERR_NOT_FOUND] and does not
    call the callback. *)
Theorem DirTreeEnumerate_lists_directory (dt : __PHYSFS_DirTree)
  (dname origdir : string) (acc : list string) (e : @Env T) :
  dt_wf dt ->
  (forall p, finds dt dname p ->
     let l := children (entry_at dt p) in
     (exists dt',
         __PHYSFS_DirTreeEnumerate dt dname note_names origdir acc e
         = (PHYSFS_ENUM_OK,
            (acc ++ map (fun a => base_name (name (entry_at dt a))) l)%list,
            dt', e)
         /\ same_entries dt dt')
     /\ StronglySorted (fun x y => y < x) l
     /\ forall a, In a l
                  <-> 0 < a < List.length (store dt)
                      /\ parent_name (name (entry_at dt a)) = dname)
  /\ ((forall p, ~ finds dt dname p) ->
      __PHYSFS_DirTreeEnumerate dt dname note_names origdir acc e
      = (PHYSFS_ENUM_ERROR, acc, dt,
         PHYSFS_setErrorCode PHYSFS_ERR_NOT_FOUND e)).
Proof.
  intros Hwf. split.
  - intros p Hp l. subst l.
    pose proof (finds_range dt _ _ Hwf Hp) as Hr.
    split; [|split].
    + unfold __PHYSFS_DirTreeEnumerate.
      destruct (Find_cases dt dname e Hwf)
        as [(p2 & dt2 & HF & Hf & Hse) | (_ & Hno)];
        [|exfalso; exact (Hno p Hp)].
      rewrite HF, (finds_unique _ _ _ _ Hwf Hf Hp).
      rewrite DirTreeEnumerate_loop_notes.
      rewrite (same_entries_entry_at dt dt2 p Hse).
      exists dt2. split; [|exact Hse].
      f_equal. f_equal. f_equal. f_equal. apply map_ext. intros a.
      rewrite (same_entries_entry_at dt dt2 a Hse). reflexivity.
    + apply (wf_sorted dt Hwf p Hr).
    + intros a. split.
      * intros Ha. destruct (wf_children dt Hwf p a Hr Ha) as [H1 H2].
        split; [exact H1|].
        destruct dname as [|c dn]; simpl in Hp.
        -- subst p. destruct (parent_name (name (entry_at dt a))); [reflexivity|].
           destruct H2 as [H2 _]. lia.
        -- destruct Hp as [Hp0 Hpn].
           destruct (parent_name (name (entry_at dt a))) eqn:Epn.
           ++ simpl in H2. lia.
           ++ destruct H2 as [_ H2]. congruence.
      * intros [Ha Hn].
        destruct (wf_parent dt Hwf a Ha) as (p' & H1 & _ & H3).
        rewrite Hn in H1. rewrite (finds_unique _ _ _ _ Hwf Hp H1). exact H3.
  - intros Hno. unfold __PHYSFS_DirTreeEnumerate.
    destruct (Find_cases dt dname e Hwf)
      as [(p2 & dt2 & HF & Hf & Hse) | (HF & _)];
      [exfalso; exact (Hno p2 Hf)|].
    rewrite HF. reflexivity.
Qed.

End DirTreeProps.

(* --------------------------------------------------------------------- *)
(** ** The write directory *)
(* --------------------------------------------------------------------- *)

Section WriteDirProps.

Context {T : Type}.
Variable IO : PHYSFS_Io T.
Variable P : Platform T.

(** X29.  While no file of the write directory is open,
    [PHYSFS_setWriteDir] closes the write directory that was set and then
    opens the new one: after a successful call [PHYSFS_getWriteDir] returns
    the name that was passed (NULL when NULL was passed, which always
    succeeds); after a failed call it returns NULL, so a directory that
    cannot be opened costs the drive the write directory it had.  The
    search path and the open handles are not touched. *)
Theorem setWriteDir_then_getWriteDir (newDir : option string)
  (d d' : @Drive T) (ok : bool) :
  (forall w fh, writeDir d = Some w -> In fh (openWriteList d) ->
                dirHandle fh <> dh_addr w) ->
  PHYSFS_setWriteDir IO P newDir d = (ok, d') ->
  PHYSFS_getWriteDir d' = (if ok then newDir else None)
  /\ (newDir = None -> ok = true)
  /\ searchPath d' = searchPath d
  /\ openWriteList d' = openWriteList d
  /\ openReadList d' = openReadList d.
Proof.
  intros Hfree H. unfold PHYSFS_setWriteDir in H.
  assert (Hfr : forall w, writeDir d = Some w ->
            freeDirHandle (Some w) (openWriteList d) (env d)
            = (true, closeArchive (funcs w) (opaque w)
                                  (log (EvCloseArchive (opaque w)) (env d)))).
  { intros w Hw. unfold freeDirHandle.
    destruct (existsb (fun i => Nat.eqb (dirHandle i) (dh_addr w))
                      (openWriteList d)) eqn:Ex; [|reflexivity].
    apply existsb_exists in Ex. destruct Ex as (fh & Hin & Heq).
    apply Nat.eqb_eq in Heq. exfalso. exact (Hfree w fh Hw Hin Heq). }
  assert (Hnew : forall d0 : @Drive T,
            (let '(ok, d) := (true, d0) in
             if negb ok then (false, d)
             else
               match newDir with
               | Some newDir =>
                   let '(dh, e) :=
                     createDirHandle IO P None newDir None true (env d) in
                   (match dh with
                    | Some _ => true
                    | None => false
                    end, set_writeDir (set_env d e) dh)
               | None => (true, d)
               end) = (ok, d') ->
            writeDir d0 = None ->
            PHYSFS_getWriteDir d' = (if ok then newDir else None)
            /\ (newDir = None -> ok = true)
            /\ searchPath d' = searchPath d0
            /\ openWriteList d' = openWriteList d0
            /\ openReadList d' = openReadList d0).
  { intros d0 H0 Hw0. cbn [negb] in H0. destruct newDir as [nd|].
    - destruct (createDirHandle IO P None nd None true (env d0))
        as [[dh|] e1] eqn:Ec; inversion H0; subst ok d'.
      + apply createDirHandle_Some in Ec.
        destruct Ec as (dh0 & _ & _ & _ & _ & Hn & _).
        unfold PHYSFS_getWriteDir. cbn. rewrite Hn.
        repeat split; auto; discriminate.
      + unfold PHYSFS_getWriteDir. cbn. repeat split; auto; discriminate.
    - inversion H0; subst ok d'. unfold PHYSFS_getWriteDir. rewrite Hw0.
      repeat split; auto. }
  destruct (writeDir d) as [w|] eqn:Ew.
  - rewrite (Hfr w eq_refl) in H. apply Hnew in H; [|reflexivity].
    exact H.
  - apply Hnew in H; [|exact Ew]. exact H.
Qed.

End WriteDirProps.

(* --------------------------------------------------------------------- *)
(** ** The properties of Part III at concrete inputs *)
(* --------------------------------------------------------------------- *)

Lemma tape_reads_like_file : reads_like_file tapeIo snd.
Proof.
  intros s len rc data s' Hlen H. cbn in H. unfold tape_read in H.
  inversion H; subst. repeat split.
Qed.

Lemma tape_writes_like_file : writes_like_file tapeIo fst.
Proof.
  intros s buf len rc s' Hlen Hbuf H. cbn in H. unfold tape_write in H.
  assert (E : firstn (Z.to_nat len) buf = buf).
  { apply firstn_all2. lia. }
  rewrite E in H. inversion H; subst. split; [lia | reflexivity].
Qed.

Lemma mem_seek_contract : seek_contract memIo.
Proof.
  intros [bytes cur] pos s' Hpos H. cbn in H.
  destruct (pos <=? Z.of_nat (List.length bytes))%Z; inversion H; reflexivity.
Qed.

Lemma calculateBaseDir_parses_argv0_witness :
  calculateBaseDir demoPosix None demo_env
  = (None, PHYSFS_setErrorCode PHYSFS_ERR_ARGV0_IS_NULL demo_env)
  /\ (exists dir file,
         calculateBaseDir demoPosix (Some "./bin/app") demo_env
         = (Some dir, demo_env)
         /\ "./bin/app" = dir ++ file
         /\ ends_with_slash dir = true
         /\ contains_char "/" file = false)
  /\ calculateBaseDir demoPosix (Some "nothere") demo_env
     = (None, PHYSFS_setErrorCode PHYSFS_ERR_INVALID_ARGUMENT demo_env).
Proof.
  split; [|split].
  - apply (calculateBaseDir_parses_argv0 demoPosix None demo_env). reflexivity.
  - apply (calculateBaseDir_parses_argv0 demoPosix (Some "./bin/app") demo_env).
    reflexivity.
  - apply (calculateBaseDir_parses_argv0 demoPosix (Some "nothere") demo_env).
    reflexivity.
Defined.

Lemma baseDir_ends_with_separator_witness :
  calculateBaseDir demoPosix (Some "app") demo_env = (Some "/usr/bin/", demo_env)
  /\ ends_with_slash "/usr/bin/" = true.
Proof.
  assert (H : calculateBaseDir demoPosix (Some "app") demo_env
              = (Some "/usr/bin/", demo_env)) by reflexivity.
  split; [exact H|].
  apply (baseDir_ends_with_separator demoPosix (Some "app") demo_env demo_env
           "/usr/bin/"); [|exact H].
  intros envr Henv. cbn in Henv. inversion Henv; subst envr.
  repeat constructor.
Defined.

Lemma eof_iff_tell_reaches_length_witness :
  PHYSFS_eof memIo buffered_reader = false
  /\ PHYSFS_eof memIo spent_reader = true.
Proof.
  split.
  - rewrite (eof_iff_tell_reaches_length memIo buffered_reader).
    + reflexivity.
    + reflexivity.
    + unfold handle_wf; simpl; lia.
    + simpl; lia.
    + simpl; lia.
  - rewrite (eof_iff_tell_reaches_length memIo spent_reader).
    + reflexivity.
    + reflexivity.
    + unfold handle_wf; simpl; lia.
    + simpl; lia.
    + simpl; lia.
Defined.

Lemma readBytes_delivers_next_bytes_witness :
  exists fh',
    PHYSFS_readBytes tapeIo tape_reader 6
    = Ok (6%Z, [Byte.x00; Byte.x01; Byte.x02; Byte.x03; Byte.x04; Byte.x05], fh')
    /\ unread snd fh' = [Byte.x06; Byte.x07; Byte.x08; Byte.x09]
    /\ forReading fh' = true /\ handle_wf fh' /\ buffer_ok fh'.
Proof.
  apply (readBytes_delivers_next_bytes tapeIo snd tape_reads_like_file
           tape_reader 6).
  - reflexivity.
  - unfold handle_wf; simpl; lia.
  - unfold buffer_ok; simpl; lia.
  - lia.
Defined.

Lemma buffered_writes_reach_stream_witness :
  exists fh1 fh2,
    write_chunks tapeIo [five_bytes; ten_bytes; []; five_bytes] tape_writer
    = Some fh1
    /\ PHYSFS_flush tapeIo fh1 = (true, fh2)
    /\ fst (io fh2) = (five_bytes ++ ten_bytes ++ five_bytes)%list
    /\ buffill fh2 = 0%Z.
Proof.
  apply (buffered_writes_reach_stream tapeIo fst tape_writes_like_file
           tape_writer [five_bytes; ten_bytes; []; five_bytes]).
  - reflexivity.
  - unfold handle_wf; simpl; lia.
  - unfold buffer_ok; simpl; lia.
  - reflexivity.
  - repeat constructor; simpl; lia.
Defined.

Lemma seek_then_tell_witness :
  PHYSFS_seek memIo buffered_reader 9
  = (true, mkFileHandle 9 (ten_bytes, 9%Z) true 7 (buffer buffered_reader) 4 0 0)
  /\ PHYSFS_tell memIo
       (mkFileHandle 9 (ten_bytes, 9%Z) true 7 (buffer buffered_reader) 4 0 0)
     = 9%Z.
Proof.
  assert (H : PHYSFS_seek memIo buffered_reader 9
              = (true, mkFileHandle 9 (ten_bytes, 9%Z) true 7
                                    (buffer buffered_reader) 4 0 0))
    by reflexivity.
  split; [exact H|].
  apply (seek_then_tell memIo buffered_reader _ 9 mem_seek_contract).
  - unfold handle_wf; simpl; lia.
  - intros _. simpl; lia.
  - lia.
  - exact H.
Defined.

Lemma setBuffer_keeps_position_witness :
  let fh' := mkFileHandle 9 (ten_bytes, 2%Z) true 7
                          (Some [Byte.x00; Byte.x01; Byte.x02; Byte.x03;
                                 Byte.x00; Byte.x00]) 6 0 0 in
  PHYSFS_setBuffer memIo buffered_reader 6 = Ok (true, fh')
  /\ PHYSFS_tell memIo fh' = PHYSFS_tell memIo buffered_reader
  /\ bufsize fh' = 6%Z /\ buffill fh' = 0%Z /\ bufpos fh' = 0%Z
  /\ buffer_ok fh' /\ handle_wf fh'.
Proof.
  intros fh'.
  assert (H : PHYSFS_setBuffer memIo buffered_reader 6 = Ok (true, fh'))
    by reflexivity.
  split; [exact H|].
  apply (setBuffer_keeps_position memIo buffered_reader fh' 6 mem_seek_contract).
  - reflexivity.
  - unfold handle_wf; simpl; lia.
  - simpl; lia.
  - lia.
  - exact H.
Defined.

Lemma mount_adds_only_directories_witness :
  let d' := snd (doMount memIo demoPlatform None (Some "/data") None true
                         emptyDrive) in
  (@None MemStream) = None
  /\ (exists sb, __PHYSFS_platformStat demoPlatform "/data" true = (None, sb)
                 /\ filetype sb = PHYSFS_FILETYPE_DIRECTORY)
  /\ exists dh,
       In dh (searchPath d') /\ dirName dh = Some "/data"
       /\ funcs dh = __PHYSFS_Archiver_DIR demoPlatform
       /\ opaque dh = "/data/".
Proof.
  intros d'.
  apply (mount_adds_only_directories memIo demoPlatform None "/data" None true
           emptyDrive d').
  - intros dh [].
  - reflexivity.
Defined.

Lemma mountIo_never_mounts_witness :
  exists c,
    PHYSFS_mountIo memIo demoPlatform
                   (Some ([Byte.x50; Byte.x4b; Byte.x03], 0%Z)) 0
                   (Some "/data/pack.zip") None true emptyDrive
    = (false, bail c emptyDrive)
    /\ (c = PHYSFS_ERR_UNSUPPORTED \/ c = PHYSFS_ERR_BAD_FILENAME).
Proof.
  apply (mountIo_never_mounts memIo demoPlatform
           ([Byte.x50; Byte.x4b; Byte.x03], 0%Z) 0 "/data/pack.zip" None true
           emptyDrive).
  intros dh [].
Defined.

Lemma mount_then_getMountPoint_witness :
  let d' := snd (PHYSFS_mount memIo demoPlatform (Some "/data") (Some "/mnt/sub/")
                              true emptyDrive) in
  PHYSFS_getMountPoint "/data" d' = (Some "mnt/sub/", d').
Proof.
  intros d'.
  apply (mount_then_getMountPoint memIo demoPlatform "/data" (Some "/mnt/sub/")
           true emptyDrive d').
  - intros dh [].
  - reflexivity.
Defined.

Lemma mount_then_unmount_witness :
  exists e2,
    PHYSFS_unmount (Some "/data")
      (snd (PHYSFS_mount memIo demoPlatform (Some "/data") (Some "d") false
                         tree_drive))
    = (true, set_env tree_drive e2).
Proof.
  apply (mount_then_unmount memIo demoPlatform "/data" (Some "d") false
           tree_drive).
  - intros dh [<- | []]. discriminate.
  - constructor.
  - reflexivity.
Defined.

Lemma getSearchPath_lists_dirNames_witness :
  PHYSFS_getSearchPath busy_drive = (Some [Some "/data"; None], busy_drive).
Proof.
  apply (getSearchPath_lists_dirNames busy_drive).
  - repeat constructor. discriminate.
  - simpl. lia.
Defined.

Lemma writeDir_held_while_file_open_witness :
  let w := __PHYSFS_Archiver_DIR_write outPlatform outPlatformWrite in
  let fh := mkFileHandle 1 ([] : list byte, 0%Z) false 5 None 0 0 0 in
  let d1 := snd (doOpenWrite w (Some "new.txt") false out_drive) in
  doOpenWrite w (Some "new.txt") false out_drive = (Some fh, d1)
  /\ forReading fh = false /\ In fh (openWriteList d1)
  /\ PHYSFS_getWriteDir d1 = PHYSFS_getWriteDir out_drive
  /\ PHYSFS_setWriteDir memIo outPlatform None d1
     = (false, bail PHYSFS_ERR_FILES_STILL_OPEN d1).
Proof.
  intros w fh d1.
  assert (H : doOpenWrite w (Some "new.txt") false out_drive = (Some fh, d1))
    by reflexivity.
  split; [exact H|].
  apply (writeDir_held_while_file_open memIo outPlatform w (Some "new.txt") None
           false out_drive d1 fh H).
Defined.

Lemma nothing_written_without_writeDir_witness :
  let w := __PHYSFS_Archiver_DIR_write demoPlatform outPlatformWrite in
  PHYSFS_openWrite w (Some "a/b") tree_drive
  = (None, bail PHYSFS_ERR_NO_WRITE_DIR tree_drive)
  /\ PHYSFS_openAppend w (Some "a/b") tree_drive
     = (None, bail PHYSFS_ERR_NO_WRITE_DIR tree_drive)
  /\ PHYSFS_mkdir w (Some "a/b") tree_drive
     = (false, bail PHYSFS_ERR_NO_WRITE_DIR tree_drive)
  /\ PHYSFS_delete w (Some "a/b") tree_drive
     = (false, bail PHYSFS_ERR_NO_WRITE_DIR tree_drive).
Proof.
  intros w.
  apply (nothing_written_without_writeDir w "a/b" tree_drive). reflexivity.
Defined.

Lemma stat_implies_exists_witness :
  let d' := snd (PHYSFS_stat (Some "/foo") true tree_drive) in
  PHYSFS_exists (Some "/foo") tree_drive = (true, d')
  /\ exists i, In i (searchPath tree_drive)
               /\ PHYSFS_getRealDir (Some "/foo") tree_drive = (dirName i, d').
Proof.
  intros d'.
  apply (stat_implies_exists "/foo" "foo" tree_drive d'
           (Some (mkStat 3 0 PHYSFS_FILETYPE_REGULAR false))).
  - reflexivity.
  - discriminate.
  - reflexivity.
Defined.

Lemma skip_mountPoint_spec_witness :
  skip_mountPoint mnt_dir "mnt/sub/f" = Some "sub/f"
  /\ skip_mountPoint mnt_dir "mnt" = Some ""
  /\ skip_mountPoint mnt_dir "mntx/f" <> Some "f".
Proof.
  split; [|split].
  - apply (proj2 (skip_mountPoint_spec mnt_dir "mnt" "mnt/sub/f" "sub/f" eq_refl)).
    right. reflexivity.
  - apply (proj2 (skip_mountPoint_spec mnt_dir "mnt" "mnt" "" eq_refl)).
    left. split; reflexivity.
  - intros H.
    apply (proj1 (skip_mountPoint_spec mnt_dir "mnt" "mntx/f" "f" eq_refl)) in H.
    destruct H as [[H _] | H]; discriminate.
Defined.

Lemma openRead_opens_under_directory_witness :
  exists fh d',
    PHYSFS_openRead (Some "/sub/f") open_drive = (Some fh, d')
    /\ io fh = ([Byte.x50; Byte.x4b; Byte.x03], 0%Z)
    /\ dirHandle fh = 7 /\ forReading fh = true
    /\ openReadList d' = [fh]
    /\ trace (env d')
       = [EvOpenRead "/data/" "sub/f"; EvCreateNativeIo "/data/sub/f" "r"].
Proof.
  apply (openRead_opens_under_directory demoPlatform "/sub/f" "sub/f"
           "sub/f" demo_dir [] open_drive
           ([Byte.x50; Byte.x4b; Byte.x03], 0%Z)).
  - reflexivity.
  - reflexivity.
  - reflexivity.
  - reflexivity.
  - discriminate.
  - reflexivity.
  - reflexivity.
Defined.

Lemma deinit_releases_everything_witness :
  PHYSFS_deinit memIo demoPlatform busyGlobals
  = (true,
     mkGlobals
       (mkDrive [] None [] [] false
          (mkEnv PHYSFS_ERR_OK
             [EvIoDestroy ([Byte.x50; Byte.x4b; Byte.x03], 0%Z);
              EvCloseArchive "/data/"] 1))
       false None None None).
Proof.
  apply (deinit_releases_everything memIo demoPlatform busyGlobals).
  - reflexivity.
  - exact I.
  - repeat constructor.
  - intros h H. discriminate.
Defined.


Lemma demo_tree_wf : dt_wf demo_tree.
Proof.
  unfold demo_tree. cbv zeta.
  repeat apply (@Add_wf MemStream). apply Init_wf.
Qed.

Lemma built_trees_in_order_witness :
  @built MemStream demo_tree /\ dt_wf demo_tree.
Proof.
  assert (H : @built MemStream demo_tree).
  { unfold demo_tree. cbv zeta. repeat apply built_add. apply built_init. }
  split; [exact H|]. apply (built_trees_in_order demo_tree H).
Defined.

Lemma DirTreeAdd_then_Find_witness :
  let dt' := snd (fst (__PHYSFS_DirTreeAdd demo_tree "a/b/d" true demo_env)) in
  let e' := PHYSFS_setErrorCode PHYSFS_ERR_NOT_FOUND demo_env in
  __PHYSFS_DirTreeAdd demo_tree "a/b/d" true demo_env = (Some 6, dt', e')
  /\ (forall e2 : @Env MemStream, exists dt'',
         __PHYSFS_DirTreeFind dt' "a/b/d" e2 = (Some 6, dt'', e2))
  /\ ("a/b/d" <> "" -> name (entry_at dt' 6) = "a/b/d")
  /\ ((forall b, ~ finds demo_tree "a/b/d" b) ->
      isdir (entry_at dt' 6) = true
      /\ e' = PHYSFS_setErrorCode PHYSFS_ERR_NOT_FOUND demo_env)
  /\ (forall b, finds demo_tree "a/b/d" b ->
        6 = b /\ isdir (entry_at dt' 6) = isdir (entry_at demo_tree b)
        /\ e' = demo_env).
Proof.
  intros dt' e'.
  assert (H : __PHYSFS_DirTreeAdd demo_tree "a/b/d" true demo_env
              = (Some 6, dt', e')) by (vm_compute; reflexivity).
  split; [exact H|].
  apply (DirTreeAdd_then_Find demo_tree dt' "a/b/d" true demo_env e' 6
           demo_tree_wf H).
Defined.

Lemma DirTreeAdd_makes_directories_above_witness :
  let dt := snd (__PHYSFS_DirTreeInit 40) in
  let dt' := snd (fst (__PHYSFS_DirTreeAdd dt "a/b/c" false demo_env)) in
  let e' := PHYSFS_setErrorCode PHYSFS_ERR_NOT_FOUND demo_env in
  ancestors "a/b/c" = ["a"; "a/b"]
  /\ (forall anc, In anc (ancestors "a/b/c") ->
        exists p dt'' e2,
          __PHYSFS_DirTreeFind dt' anc e' = (Some p, dt'', e2)
          /\ isdir (entry_at dt' p) = true)
  /\ (forall b, List.length (store dt) <= b < List.length (store dt') ->
                In (name (entry_at dt' b)) ("a/b/c" :: ancestors "a/b/c")).
Proof.
  intros dt dt' e'. split; [vm_compute; reflexivity|].
  apply (DirTreeAdd_makes_directories_above dt dt' "a/b/c" false demo_env e' 3).
  - apply Init_wf.
  - vm_compute. reflexivity.
Defined.

Lemma demo_tree_names (nm : string) (b : nat) :
  nm <> "a" -> nm <> "a/b" -> nm <> "a/b/c" -> nm <> "a/x" -> nm <> "top" ->
  ~ named demo_tree nm b.
Proof.
  intros H1 H2 H3 H4 H5 [Hb Hn].
  assert (Hl : List.length (store demo_tree) = 6) by (vm_compute; reflexivity).
  rewrite Hl in Hb.
  assert (Hs : map name (store demo_tree)
               = ["/"; "a"; "a/b"; "a/b/c"; "a/x"; "top"])
    by (vm_compute; reflexivity).
  assert (He : name (entry_at demo_tree b)
               = nth b (map name (store demo_tree)) "").
  { unfold entry_at.
    exact (eq_sym (map_nth name (store demo_tree)
                           (mkDirTreeEntry "" false []) b)). }
  rewrite He, Hs in Hn.
  destruct b as [|[|[|[|[|[|b]]]]]]; simpl in Hn; try lia; congruence.
Qed.

Lemma DirTreeAdd_fails_below_a_file_witness :
  fst (fst (__PHYSFS_DirTreeAdd demo_tree "top/z/y" true demo_env)) = None
  /\ same_entries demo_tree
       (snd (fst (__PHYSFS_DirTreeAdd demo_tree "top/z/y" true demo_env)))
  /\ snd (__PHYSFS_DirTreeAdd demo_tree "top/z/y" true demo_env)
     = PHYSFS_setErrorCode PHYSFS_ERR_CORRUPT demo_env.
Proof.
  destruct (DirTreeAdd_fails_below_a_file demo_tree "top/z/y" true demo_env
              demo_tree_wf) as [Hiff Hthen].
  assert (H : fst (fst (__PHYSFS_DirTreeAdd demo_tree "top/z/y" true demo_env))
              = None).
  { apply Hiff. split.
    - intros b. apply demo_tree_names; discriminate.
    - exists "top", 5. split; [vm_compute; left; reflexivity|].
      split; [split; [vm_compute; lia | vm_compute; reflexivity]
             | vm_compute; reflexivity]. }
  split; [exact H | exact (Hthen H)].
Defined.

Lemma DirTreeFind_answers_witness :
  let dt' := snd (fst (__PHYSFS_DirTreeFind demo_tree "a/b" demo_env)) in
  (finds demo_tree "a/b" 2 /\ demo_env = demo_env)
  /\ same_entries demo_tree dt'
  /\ forall (path2 : string) (e2 : @Env MemStream),
       fst (fst (__PHYSFS_DirTreeFind dt' path2 e2))
       = fst (fst (__PHYSFS_DirTreeFind demo_tree path2 e2)).
Proof.
  intros dt'.
  apply (DirTreeFind_answers demo_tree dt' "a/b" demo_env demo_env (Some 2)
           demo_tree_wf).
  vm_compute. reflexivity.
Defined.

Lemma DirTreeEnumerate_lists_directory_witness :
  (exists dt',
      __PHYSFS_DirTreeEnumerate demo_tree "a" note_names "a" [] demo_env
      = (PHYSFS_ENUM_OK, ["x"; "b"], dt', demo_env)
      /\ same_entries demo_tree dt')
  /\ __PHYSFS_DirTreeEnumerate demo_tree "a/x/y" note_names "a" [] demo_env
     = (PHYSFS_ENUM_ERROR, [], demo_tree,
        PHYSFS_setErrorCode PHYSFS_ERR_NOT_FOUND demo_env).
Proof.
  destruct (DirTreeEnumerate_lists_directory demo_tree "a" "a" [] demo_env
              demo_tree_wf) as [Hfound _].
  destruct (DirTreeEnumerate_lists_directory demo_tree "a/x/y" "a" [] demo_env
              demo_tree_wf) as [_ Hmissing].
  split.
  - assert (Hf : finds demo_tree "a" 1)
      by (split; [vm_compute; lia | vm_compute; reflexivity]).
    destruct (Hfound 1 Hf) as [(dt' & HE & Hse) _].
    exists dt'. split; [|exact Hse]. rewrite HE.
    assert (Hn : map (fun a => base_name (name (entry_at demo_tree a)))
                     (children (entry_at demo_tree 1)) = ["x"; "b"])
      by (vm_compute; reflexivity).
    rewrite Hn. reflexivity.
  - apply Hmissing. intros b. apply demo_tree_names; discriminate.
Defined.

Lemma setWriteDir_then_getWriteDir_witness :
  let d1 := snd (PHYSFS_setWriteDir memIo outPlatform (Some "/nowhere")
                                    out_drive) in
  let d2 := snd (PHYSFS_setWriteDir memIo outPlatform (Some "/out")
                                    emptyDrive) in
  PHYSFS_getWriteDir out_drive = Some "/out"
  /\ fst (PHYSFS_setWriteDir memIo outPlatform (Some "/nowhere") out_drive)
     = false
  /\ PHYSFS_getWriteDir d1 = None
  /\ PHYSFS_getWriteDir d2 = Some "/out".
Proof.
  intros d1 d2. split; [reflexivity|]. split; [reflexivity|]. split.
  - apply (setWriteDir_then_getWriteDir memIo outPlatform (Some "/nowhere")
             out_drive d1 false).
    + intros w fh _ [].
    + reflexivity.
  - apply (setWriteDir_then_getWriteDir memIo outPlatform (Some "/out")
             emptyDrive d2 true).
    + intros w fh _ [].
    + reflexivity.
Defined.
